(** * BoreholeInterpreter: the CPT derived-parameter engine

    A shallow embedding of [classes/CPT.py] and of
    [classes/CPT_SoilClassification.py]: the raw channels of a Cone
    Penetration Test, the memoised derived quantities with their
    invalidation rules, the stress integration and the zone classification.

    Numbers.  A Python/numpy float is modelled as an exact rational, with
    [NaN] for the undefined value; the rounding of binary64 is not modelled
    and an infinite value (a division by zero) is identified with [NaN].
    Depth labels, unit weights and groundwater levels are finite numbers.
    The unit-weight array keeps the element type numpy gives it, int64 or
    float64: an update in place of one of its breakpoints is stored
    truncated in an int64 array.  [np.interp] follows numpy's search for
    the interval of the sample, so that it is defined as numpy has it on
    breakpoints in any order. *)

From Stdlib Require Import QArith Qminmax Ascii String Lqa.
From stdpp Require Import base option list strings gmap fin_maps.

Local Open Scope Q_scope.
Local Open Scope string_scope.
Local Open Scope list_scope.

(** ** Floats *)

Definition float := option Q.
Definition NaN : float := None.
Definition num (q : Q) : float := Some (Qred q).

Definition lift2 (f : Q -> Q -> Q) (a b : float) : float :=
  match a, b with
  | Some x, Some y => Some (Qred (f x y))
  | _, _ => None
  end.

Definition fadd := lift2 Qplus.
Definition fsub := lift2 Qminus.
Definition fmul := lift2 Qmult.
Definition fdiv (a b : float) : float :=
  match a, b with
  | Some x, Some y => if Qeq_bool y 0 then None else Some (Qred (x / y))
  | _, _ => None
  end.

(** Comparisons are false as soon as one side is [NaN]. *)
Definition fcmp (c : Q -> Q -> bool) (a b : float) : bool :=
  match a, b with
  | Some x, Some y => c x y
  | _, _ => false
  end.
Definition Qlt_bool (x y : Q) : bool := negb (Qle_bool y x).
Definition fltb := fcmp Qlt_bool.
Definition fleb := fcmp Qle_bool.
Definition fgeb (a b : float) := fleb b a.
Definition isnan (a : float) : bool := match a with None => true | Some _ => false end.

(** ** Depth-indexed series ([pd.Series]) *)

Record Series := mkSeries {
  items : list (Q * float);   (* (depth label, value), one per row *)
  sname : string
}.

Definition index (s : Series) : list Q := map fst (items s).
Definition values (s : Series) : list float := map snd (items s).
Definition rename (n : string) (s : Series) : Series := mkSeries (items s) n.

(** [Index.equals]: the same labels in the same order. *)
Fixpoint index_equals (a b : list Q) : bool :=
  match a, b with
  | [], [] => true
  | x :: a', y :: b' => Qeq_bool x y && index_equals a' b'
  | _, _ => false
  end.

(** Label lookup, the value of the first row carrying the label. *)
Fixpoint at_label (l : Q) (rows : list (Q * float)) : float :=
  match rows with
  | [] => NaN
  | (l', v) :: rest => if Qeq_bool l l' then v else at_label l rest
  end.

(** [Series.reindex]: the rows of [s] laid out on the labels [idx]; on an
    equal index nothing moves, otherwise a label absent from [s] gives NaN. *)
Definition reindex (idx : list Q) (s : Series) : list float :=
  if index_equals idx (index s) then values s
  else map (fun l => at_label l (items s)) idx.

(** Sorted union of two label lists (the outer join of two indexes). *)
Fixpoint insert_label (l : Q) (ls : list Q) : list Q :=
  match ls with
  | [] => [l]
  | x :: rest =>
      if Qeq_bool l x then ls
      else if Qle_bool l x then l :: ls
      else x :: insert_label l rest
  end.
Definition union_index (a b : list Q) : list Q :=
  fold_right insert_label [] (a ++ b).

(** Arithmetic between two series: element by element when both carry the
    same index, otherwise after aligning both on the union of the labels.
    The result of a pandas operator has the common name, or none. *)
Definition series_binop (f : float -> float -> float) (a b : Series) : Series :=
  let nm := if String.eqb (sname a) (sname b) then sname a else "" in
  if index_equals (index a) (index b)
  then mkSeries (map (fun '((l, x), (_, y)) => (l, f x y))
                     (combine (items a) (items b))) nm
  else mkSeries (map (fun l => (l, f (at_label l (items a)) (at_label l (items b))))
                     (union_index (index a) (index b))) nm.

Definition series_map (f : float -> float) (s : Series) : Series :=
  mkSeries (map (fun '(l, x) => (l, f x)) (items s)) (sname s).

Definition fillna (d : float) (s : Series) : Series :=
  series_map (fun x => if isnan x then d else x) s.

(** [Series.max()]: the largest value, NaN rows skipped. *)
Definition fmax_skipna (a b : float) : float :=
  match a, b with
  | Some x, Some y => Some (if Qle_bool x y then y else x)
  | Some x, None => Some x
  | None, b => b
  end.
Definition series_max (s : Series) : float := fold_right fmax_skipna NaN (values s).

(** ** Stress integration (the pure part of [_calculate_total_stress]) *)

(** The element type of the unit-weight array: [np.array] makes an int64
    array of a table of Python ints, and a float64 array of a table that has
    a float in it. *)
Inductive dtype := int64 | float64.

Definition epsilon : Q := 1 # 1000000.

(** The conversion of a float to int64: towards zero. *)
Definition truncate (q : Q) : Q := inject_Z (Z.quot (Qnum q) (Zpos (Qden q))).

(** [uw[i, 0] += 0.000001]: the sum is a float, which an int64 array stores
    truncated. *)
Definition nudged (dt : dtype) (x : Q) : Q :=
  match dt with
  | float64 => Qred (x + epsilon)
  | int64 => truncate (x + epsilon)
  end.

(** The in-place pass [if uw[i,0] == uw[i-1,0]: uw[i,0] += 0.000001]. *)
Fixpoint nudge_from (dt : dtype) (prev : Q) (rows : list (Q * Q)) : list (Q * Q) :=
  match rows with
  | [] => []
  | (x, y) :: rest =>
      let x' := if Qeq_bool x prev then nudged dt x else x in
      (x', y) :: nudge_from dt x' rest
  end.
Definition nudge_duplicates (dt : dtype) (rows : list (Q * Q)) : list (Q * Q) :=
  match rows with
  | [] => []
  | (x, y) :: rest => (x, y) :: nudge_from dt x rest
  end.

(** ** [np.interp]

    numpy's [arr_interp] for one sample: the interval of the sample is
    found by [binary_search_with_guess], called with the guess 0. *)

(** [arr[i]] *)
Definition item (arr : list Q) (i : nat) : Q := nth i arr 0.

(** The result of the search: -1, [len], or an index [j]. *)
Inductive found :=
| Below
| Above
| At (j : nat).

Definition LIKELY_IN_CACHE_SIZE : nat := 8.

(** [for (i = 1; i < len && key >= arr[i]; ++i);] on the items from [i]
    on: the [i] the loop ends with. *)
Fixpoint linear_search (key : Q) (i : nat) (rest : list Q) : nat :=
  match rest with
  | [] => i
  | x :: rest' => if Qle_bool x key then linear_search key (S i) rest' else i
  end.

(** [while (imin < imax)]: the bisection, which takes at most [n] rounds
    when [n] is not less than [imax - imin]. *)
Fixpoint bisect (n : nat) (key : Q) (arr : list Q) (imin imax : nat) : nat :=
  match n with
  | O => imin
  | S n' =>
      if (imin <? imax)%nat then
        let imid := (imin + (imax - imin) / 2)%nat in
        if Qle_bool (item arr imid) key then bisect n' key arr (imid + 1) imax
        else bisect n' key arr imin imid
      else imin
  end.

Definition binary_search_with_guess (key : Q) (arr : list Q) (guess : nat) : found :=
  let len := length arr in
  if Qlt_bool (item arr (len - 1)) key then Above
  else if Qlt_bool key (item arr 0) then Below
  else if (len <=? 4)%nat then At (linear_search key 1 (tl arr) - 1)
  else
    let guess := if (len - 3 <? guess)%nat then (len - 3)%nat else guess in
    let guess := if (guess <? 1)%nat then 1%nat else guess in
    if Qlt_bool key (item arr guess) then
      if Qlt_bool key (item arr (guess - 1)) then
        let imax := (guess - 1)%nat in
        let imin :=
          if (LIKELY_IN_CACHE_SIZE <? guess)%nat
             && Qle_bool (item arr (guess - LIKELY_IN_CACHE_SIZE)) key
          then (guess - LIKELY_IN_CACHE_SIZE)%nat else 0%nat in
        At (bisect len key arr imin imax - 1)
      else At (guess - 1)
    else if Qlt_bool key (item arr (guess + 1)) then At guess
    else if Qlt_bool key (item arr (guess + 2)) then At (guess + 1)
    else
      let imin := (guess + 2)%nat in
      let imax :=
        if (guess <? len - LIKELY_IN_CACHE_SIZE - 1)%nat
           && Qlt_bool key (item arr (guess + LIKELY_IN_CACHE_SIZE))
        then (guess + LIKELY_IN_CACHE_SIZE)%nat else len in
      At (bisect len key arr imin imax - 1).

(** [np.interp(z, xp, fp)] of a number [z], with the default [left] and
    [right]: the first and the last of [fp]. *)
Definition np_interp (z : Q) (pts : list (Q * Q)) : Q :=
  let dx := map fst pts in
  let dy := map snd pts in
  let lenxp := length pts in
  let lval := item dy 0 in
  let rval := item dy (lenxp - 1) in
  if (lenxp =? 0)%nat then 0     (* ValueError; the callers have a row *)
  else if (lenxp =? 1)%nat then
    if Qlt_bool z (item dx 0) then lval
    else if Qlt_bool (item dx 0) z then rval
    else item dy 0
  else
    match binary_search_with_guess z dx 0 with
    | Below => lval
    | Above => rval
    | At j =>
        if (j =? lenxp - 1)%nat then item dy j
        else if Qeq_bool (item dx j) z then item dy j
        else
          let slope := (item dy (j + 1) - item dy j) / (item dx (j + 1) - item dx j) in
          slope * (z - item dx j) + item dy j
    end.

(** [np.diff] *)
Fixpoint np_diff (l : list Q) : list Q :=
  match l with
  | a :: ((b :: _) as t) => (b - a) :: np_diff t
  | _ => []
  end.

(** element-wise product of two arrays of one length *)
Fixpoint np_mul (a b : list Q) : list Q :=
  match a, b with
  | x :: a', y :: b' => x * y :: np_mul a' b'
  | _, _ => []
  end.

(** [Series.cumsum] *)
Fixpoint cumsum_from (acc : Q) (l : list Q) : list Q :=
  match l with
  | [] => []
  | x :: t => let s := Qred (acc + x) in s :: cumsum_from s t
  end.
Definition cumsum (l : list Q) : list Q :=
  match l with
  | [] => []
  | x :: t => Qred x :: cumsum_from (Qred x) t
  end.

(** The values stored by [_calculate_total_stress] for the depth samples
    [d0 :: ds] and the (non-empty) unit-weight table [(x0, w0) :: uw] of
    the element type [dt]. *)
Definition total_stress_values (dt : dtype) (d0 : Q) (ds : list Q) (x0 w0 : Q)
    (uw : list (Q * Q)) : list Q :=
  let unit_weight_dataset := nudge_duplicates dt ((x0, w0) :: uw) in
  let interpolated_unit_weight :=
    map (fun z => np_interp z unit_weight_dataset) (d0 :: ds) in
  let interpolated_inc_total_stress :=
    np_mul (np_diff (d0 :: ds)) (tl interpolated_unit_weight) in
  cumsum (d0 * w0 :: interpolated_inc_total_stress).

(** ** The probe object *)

(** One row of the classification result and of its graph data. *)
Record ZoneRow := mkZoneRow {
  zr_depth : Q;
  zr_number : option string;        (* "Soil Zone Number", None is pd.NA *)
  zr_description : option string;   (* "Soil Zone Description" *)
  zr_uscs : option string           (* "USCS" *)
}.
Record GraphRow := mkGraphRow {
  gr_depth : Q;
  X_graph_1 : float; Y_graph_1 : float;
  X_graph_2 : float; Y_graph_2 : float
}.

(** The instance attributes of a [CPT].  The series-valued private
    attributes ([_qc], [_fs], [_u2] and the cached derived quantities) live
    in [series] under their attribute name: they are the ones the code tests
    with [hasattr] and removes with [delattr] by name.  An attribute that is
    not set is absent from the map, or [None] for the typed fields.  The
    array [_unit_weight] is held as its rows and its element type; the
    element type is read only while there are rows. *)
Record CPT := mkCPT {
  pointID : string;
  holedepth : float;
  series : gmap string Series;
  _area_ratio : option float;
  _gwl : option Q;
  _elevated_gwl : option Q;
  _unit_weight : option (list (Q * Q));     (* the rows of the array *)
  _unit_weight_dtype : dtype;               (* and its element type *)
  _soil_classification_method : option string;
  _soil_classification : option (list ZoneRow);
  _soil_classification_graph_data : option (list GraphRow)
}.

(** [GeotechPoint.__init__]: identity only, [holedepth = 0]. *)
Definition new_CPT (id : string) : CPT :=
  mkCPT id (num 0) ∅ None None None None float64 None None None.

Definition with_holedepth (h : float) (p : CPT) : CPT :=
  mkCPT (pointID p) h (series p) (_area_ratio p) (_gwl p) (_elevated_gwl p)
        (_unit_weight p) (_unit_weight_dtype p) (_soil_classification_method p)
        (_soil_classification p) (_soil_classification_graph_data p).
Definition with_series (m : gmap string Series) (p : CPT) : CPT :=
  mkCPT (pointID p) (holedepth p) m (_area_ratio p) (_gwl p) (_elevated_gwl p)
        (_unit_weight p) (_unit_weight_dtype p) (_soil_classification_method p)
        (_soil_classification p) (_soil_classification_graph_data p).
Definition with_area_ratio (a : option float) (p : CPT) : CPT :=
  mkCPT (pointID p) (holedepth p) (series p) a (_gwl p) (_elevated_gwl p)
        (_unit_weight p) (_unit_weight_dtype p) (_soil_classification_method p)
        (_soil_classification p) (_soil_classification_graph_data p).
Definition with_gwl (g : option Q) (p : CPT) : CPT :=
  mkCPT (pointID p) (holedepth p) (series p) (_area_ratio p) g (_elevated_gwl p)
        (_unit_weight p) (_unit_weight_dtype p) (_soil_classification_method p)
        (_soil_classification p) (_soil_classification_graph_data p).
Definition with_elevated_gwl (g : option Q) (p : CPT) : CPT :=
  mkCPT (pointID p) (holedepth p) (series p) (_area_ratio p) (_gwl p) g
        (_unit_weight p) (_unit_weight_dtype p) (_soil_classification_method p)
        (_soil_classification p) (_soil_classification_graph_data p).
Definition with_unit_weight (u : option (list (Q * Q))) (p : CPT) : CPT :=
  mkCPT (pointID p) (holedepth p) (series p) (_area_ratio p) (_gwl p)
        (_elevated_gwl p) u (_unit_weight_dtype p) (_soil_classification_method p)
        (_soil_classification p) (_soil_classification_graph_data p).
Definition with_unit_weight_dtype (dt : dtype) (p : CPT) : CPT :=
  mkCPT (pointID p) (holedepth p) (series p) (_area_ratio p) (_gwl p)
        (_elevated_gwl p) (_unit_weight p) dt (_soil_classification_method p)
        (_soil_classification p) (_soil_classification_graph_data p).
Definition with_classification
    (m : option string) (c : option (list ZoneRow)) (g : option (list GraphRow))
    (p : CPT) : CPT :=
  mkCPT (pointID p) (holedepth p) (series p) (_area_ratio p) (_gwl p)
        (_elevated_gwl p) (_unit_weight p) (_unit_weight_dtype p) m c g.

(** ** Exceptions and the method monad

    A method runs on the probe and either returns or raises; what it wrote
    to the probe before raising stays written, as in Python. *)

Inductive exn :=
| AttributeError (msg : string)
| ValueError (msg : string)
| IndexError (msg : string)
| KeyError (msg : string)
| TypeError (msg : string)
| DatabaseError (msg : string)      (* sqlite3.Error *)
| RecursionError.

Inductive res (A : Type) :=
| Ok (a : A)
| Raise (e : exn).
Arguments Ok {A} a.
Arguments Raise {A} e.

Definition M (A : Type) : Type := CPT -> res A * CPT.

#[global] Instance M_ret : MRet M := λ A a p, (Ok a, p).
#[global] Instance M_bind : MBind M := λ A B f m p,
  match m p with
  | (Ok a, p') => f a p'
  | (Raise e, p') => (Raise e, p')
  end.

Definition raise {A} (e : exn) : M A := λ p, (Raise e, p).
Definition get : M CPT := λ p, (Ok p, p).
Definition modify (f : CPT -> CPT) : M unit := λ p, (Ok tt, f p).
(** [try: m except Exception: pass] *)
Definition try_pass (m : M unit) : M unit := λ p,
  match m p with
  | (_, p') => (Ok tt, p')
  end.
Definition when (b : bool) (m : M unit) : M unit := if b then m else mret tt.

Definition is_ok {A} (r : res A) : bool :=
  match r with Ok _ => true | Raise _ => false end.

(** [hasattr(self, name)], [self.__dict__[name]], [self.name = s] and
    [del self.name] on the series-valued attributes. *)
Definition hasattr (name : string) (p : CPT) : bool := bool_decide (is_Some (series p !! name)).
Definition no_attribute (name : string) : exn :=
  AttributeError ("'CPT' object has no attribute '" +:+ name +:+ "'").
Definition attr (name : string) : M Series := λ p,
  match series p !! name with
  | Some s => (Ok s, p)
  | None => (Raise (no_attribute name), p)
  end.
Definition setattr (name : string) (s : Series) : M unit :=
  modify (λ p, with_series (<[name := s]> (series p)) p).
Definition del_attr (name : string) : M unit := λ p,
  match series p !! name with
  | Some _ => (Ok tt, with_series (delete name (series p)) p)
  | None => (Raise (no_attribute name), p)
  end.

(** [del self.classification] *)
Definition del_classification : M unit :=
  modify (λ p, with_classification (_soil_classification_method p) None None p).

(** [listener_dependency]: drop the named caches, then the classification
    result when a classification method is remembered. *)
Fixpoint delete_dependencies (list_dependencies : list string) : M unit :=
  match list_dependencies with
  | [] => mret tt
  | dpd :: rest =>
      p ← get;
      when (hasattr ("_" +:+ dpd) p)
           (modify (λ p, with_series (delete ("_" +:+ dpd) (series p)) p));;
      delete_dependencies rest
  end.

Definition listener_dependency (list_dependencies : list string) : M unit :=
  delete_dependencies list_dependencies;;
  p ← get;
  when (bool_decide (is_Some (_soil_classification_method p))) del_classification.

(** [del self.qt] *)
Definition del_qt : M unit :=
  listener_dependency ["Rf"; "Qt"; "Fr"; "Bq"; "Ic"];;
  p ← get;
  when (hasattr "_qt" p) (del_attr "_qt").

(** ** Raw channels *)

(** An array-like argument: one row per depth sample, the depth first and
    the remaining columns after it.  [np.array] refuses ragged rows. *)
Definition table := list (Q * list float).

Definition num_columns (t : table) : option nat :=
  match t with
  | [] => None
  | (_, cols) :: rest =>
      if forallb (λ r, Nat.eqb (length r.2) (length cols)) rest
      then Some (S (length cols)) else None
  end.

(** [pd.Series(data=table_data[:, c], index=table_data[:, 0], name=n)],
    for a value column [c >= 1] that exists. *)
Definition column (c : nat) (n : string) (t : table) : Series :=
  mkSeries (map (λ r, (r.1, nth (c - 1) r.2 NaN)) t) n.

Definition ragged : exn :=
  ValueError "setting an array element with a sequence.".
Definition too_many_indices : exn :=
  IndexError "too many indices for array".
Definition out_of_bounds : exn :=
  IndexError "index out of bounds".

(** [_validate_depth_index] *)
Definition _validate_depth_index (seriesData : Series) (arr_checkDatasets : list string)
    (p : CPT) : bool * option (list string) :=
  let arr_existing_data_series :=
    omap (λ a, series p !! ("_" +:+ a)) arr_checkDatasets in
  match arr_existing_data_series with
  | [] => (true, None)
  | _ =>
      let arr_misaligned_dataset :=
        map sname (List.filter (λ e, negb (index_equals (index seriesData) (index e)))
                               arr_existing_data_series) in
      match arr_misaligned_dataset with
      | [] => (true, None)
      | _ => (false, Some arr_misaligned_dataset)
      end
  end.

Fixpoint join (sep : string) (l : list string) : string :=
  match l with
  | [] => ""
  | [a] => a
  | a :: rest => a +:+ sep +:+ join sep rest
  end.

Definition mismatch_error (arr_mismatcheddatasets : list string) : exn :=
  ValueError ("Error: Input data is mismatched with existing "
              +:+ join ", " arr_mismatcheddatasets
              +:+ " datasets." +:+ String "010"%char "To reset the whole raw dataset, use the raw_data property.").

Definition update_holedepth (max_depth : float) : M unit :=
  modify (λ p, if fltb (holedepth p) max_depth then with_holedepth max_depth p else p).

(** ** Stress calculation *)

Definition GLOBAL_unit_weight_of_water : Q := 10.

Definition first_raw_channel (p : CPT) : option Series :=
  match series p !! "_qc", series p !! "_fs", series p !! "_u2" with
  | Some s, _, _ => Some s
  | None, Some s, _ => Some s
  | None, None, o => o
  end.

(** [_calculate_total_stress] *)
Definition _calculate_total_stress : M unit :=
  p ← get;
  match _unit_weight p with
  | None =>
      raise (AttributeError ("Unit weight of " +:+ pointID p +:+
        " not set. This is needed to calculate the total stress across depth."))
  | Some uw =>
      depth_index_series ←
        match first_raw_channel p with
        | Some s => mret (index s)
        | None => match uw with
                  | [] => raise too_many_indices
                  | _ => mret (map fst uw)
                  end
        end;
      match depth_index_series, uw with
      | d0 :: ds, (x0, w0) :: rest =>
          modify (λ p, with_series
            (<["_total_stress" :=
               mkSeries (combine (d0 :: ds)
                                 (map Some (total_stress_values (_unit_weight_dtype p)
                                              d0 ds x0 w0 rest)))
                        "sv0"]> (series p)) p)
      | _ :: _, [] => raise too_many_indices
      | [], _ => raise out_of_bounds
      end
  end.

(** The pore pressure under a groundwater level:
    [0 if z < gwl else (z - gwl) * GLOBAL_unit_weight_of_water]. *)
Definition u0_at (gwl z : Q) : Q :=
  if Qlt_bool z gwl then 0 else (z - gwl) * GLOBAL_unit_weight_of_water.
Definition u0_series (nm : string) (gwl : Q) (depth_index : list Q) : Series :=
  mkSeries (map (λ z, (z, num (u0_at gwl z))) depth_index) nm.

(** [_calculate_effective_stress] *)
Definition _calculate_effective_stress : M unit :=
  p ← get;
  match _unit_weight p, _gwl p, _elevated_gwl p with
  | None, _, _ =>
      raise (AttributeError ("Unit weight of " +:+ pointID p +:+
        " is not yet defined. This is needed to calculate the total/effective stress across depth."))
  | Some _, None, None =>
      raise (AttributeError ("Groundwater level of " +:+ pointID p +:+
        " is not yet defined. This is needed to calculate the effective stress across depth."))
  | Some _, static, elevated =>
      total_stress ← attr "_total_stress";
      let depth_index := index total_stress in
      match elevated with
      | Some elevated_gwl =>
          setattr "_elevated_u0" (u0_series "u0 (elevated)" elevated_gwl depth_index)
      | None => mret tt
      end;;
      match static with
      | Some static_gwl => setattr "_static_u0" (u0_series "u0" static_gwl depth_index)
      | None => mret tt
      end;;
      let effective_stress :=
        match elevated, static with
        | Some elevated_gwl, _ =>
            series_binop fsub total_stress
                         (u0_series "u0 (elevated)" elevated_gwl depth_index)
        | None, Some static_gwl =>
            series_binop fsub total_stress (u0_series "u0" static_gwl depth_index)
        | None, None => total_stress
        end in
      setattr "_effective_stress" (rename "sv0'" effective_stress)
  end.

(** ** The classification method store (an external, read-only database) *)

Record Zone := mkZone {
  zone_no : string;
  zone_boundary : list (Q * Q)     (* the rows of zone_definitions, in order *)
}.

Record Method := mkMethod {
  param_x1 : string; param_y1 : string;
  param_x2 : option string; param_y2 : option string;
  is_x1_on_log_scale : bool; is_y1_on_log_scale : bool;
  is_x2_on_log_scale : bool; is_y2_on_log_scale : bool;
  zone_names : list (string * (string * string)); (* zone_no, description, USCS *)
  zone_definitions_1 : list Zone;   (* graph = 1, one entry per zone_no *)
  zone_definitions_2 : list Zone    (* graph = 2 *)
}.

(** [SELECT zone_no, MIN(x), MAX(x), MIN(y), MAX(y) ... GROUP BY zone_no]:
    a zone without a vertex has no row. *)
Definition Qmin_b (a b : Q) : Q := if Qle_bool a b then a else b.
Definition Qmax_b (a b : Q) : Q := if Qle_bool a b then b else a.
Definition bounds (vs : list (Q * Q)) : option (Q * Q * Q * Q) :=
  match vs with
  | [] => None
  | (x, y) :: rest =>
      Some (fold_left (λ '(x0, x1, y0, y1) '(x, y),
                         (Qmin_b x0 x, Qmax_b x1 x, Qmin_b y0 y, Qmax_b y1 y))
                      rest (x, x, y, y))
  end.

(** A Python dict built from rows: the last row of a key wins. *)
Definition dict_of_rows {V} (rows : list (string * V)) : gmap string V :=
  fold_left (λ m r, <[r.1 := r.2]> m) rows ∅.

Definition is_concrete_zone (z : option string) : bool :=
  match z with
  | Some s => bool_decide (s ∈ ["9"; "10"; "11"; "12"])
  | None => false
  end.

Definition label_in (l : Q) (ls : list Q) : bool := existsb (Qeq_bool l) ls.

(** The closing pass over the deferred rows of "Robertson et al 1986". *)
Definition finalize_row (recalc_segment : list Q) (r : ZoneRow) : ZoneRow :=
  if label_in (zr_depth r) recalc_segment then
    let number := if is_concrete_zone (zr_number r) then zr_number r
                  else Some "9,10,11,12" in
    let description := if is_concrete_zone number then zr_description r
                       else Some "Zone 9,10,11,12" in
    let uscs := if is_concrete_zone number then zr_uscs r else Some "" in
    mkZoneRow (zr_depth r) number description uscs
  else r.

(** [np.log10] and [x ** 0.5] have no rational values: they are taken as
    given, as are the method store, shapely's containment test
    ([point.within(polygon)], or a distance to the boundary below 1e-8) and
    the interpreter's recursion limit. *)
Class External := {
  log10 : float -> float;
  sqrt : float -> float;
  db : string -> option Method;
  point_in_polygon : Q -> Q -> list (float * float) -> bool;
  recursion_limit : nat
}.

Section Engine.

Context {ext : External}.

Section Properties.

(** [self._calculate_stress()], as the properties call it. *)
Variable _calculate_stress : M unit.

Definition not_defined (what : string) (p : CPT) (rest : string) : exn :=
  AttributeError (what +:+ " of " +:+ pointID p +:+ rest).

Definition qc : M Series :=
  p ← get;
  match series p !! "_qc" with
  | Some s => mret s
  | None => raise (not_defined "Cone penetration, qc," p " is not yet defined.")
  end.
Definition fs : M Series :=
  p ← get;
  match series p !! "_fs" with
  | Some s => mret s
  | None => raise (not_defined "Sleeve friction, fs," p " is not yet defined.")
  end.
Definition u2 : M Series :=
  p ← get;
  match series p !! "_u2" with
  | Some s => mret s
  | None => raise (not_defined "Pore pressure, u2," p " is not yet defined.")
  end.
Definition area_ratio : M float :=
  p ← get;
  match _area_ratio p with
  | Some a => mret a
  | None => raise (not_defined "Area ratio" p
      (" is not yet defined." +:+ String "010"%char
       "For all calculations qt will be assumed to be the same as qc"))
  end.

Definition total_stress : M Series :=
  p ← get;
  match series p !! "_total_stress" with
  | Some s => mret s
  | None => _calculate_stress;; attr "_total_stress"
  end.
Definition effective_stress : M Series :=
  p ← get;
  match series p !! "_effective_stress" with
  | Some s => mret s
  | None => _calculate_stress;; attr "_effective_stress"
  end.
Definition static_u0 : M Series :=
  p ← get;
  match series p !! "_static_u0", _gwl p with
  | Some s, _ => mret s
  | None, None =>
      raise (not_defined "Groundwater level" p " not set. This is needed to calculate u0.")
  | None, Some _ => _calculate_stress;; attr "_static_u0"
  end.
Definition elevated_u0 : M Series :=
  p ← get;
  match series p !! "_elevated_u0", _elevated_gwl p with
  | Some s, _ => mret s
  | None, None =>
      raise (not_defined "Elevated groundwater level" p
               " not set. This is needed to calculate elevated u0.")
  | None, Some _ => _calculate_stress;; attr "_elevated_u0"
  end.

(** series (op) scalar keeps the name of the series *)
Definition series_scalar (f : float -> float -> float) (s : Series) (c : float) : Series :=
  series_map (λ x, f x c) s.
Definition scalar_series (f : float -> float -> float) (c : float) (s : Series) : Series :=
  series_map (λ x, f c x) s.

(** [qt]: without an area ratio the property warns and hands out [qc]
    itself, caching nothing. *)
Definition qt : M Series :=
  p ← get;
  if negb (hasattr "_qc" p) then
    raise (not_defined "Cone penetration, qc," p
      " is not yet defined. This is needed to calculate the corrected cone penetration, qt.")
  else
  match series p !! "_qt", _area_ratio p with
  | Some s, _ => mret s
  | None, None => qc
  | None, Some _ =>
      s_qc ← qc;
      s_u2 ← (if hasattr "_u2" p then s ← u2; mret (Some (fillna (num 0) s))
              else mret None);
      a ← area_ratio;
      let s_qt :=
        match s_u2 with
        | Some s_u2 =>
            series_binop fadd s_qc
              (series_scalar fmul (series_scalar fdiv s_u2 (num 1000)) (fsub (num 1) a))
        | None =>
            series_scalar fadd s_qc (fmul (fdiv (num 0) (num 1000)) (fsub (num 1) a))
        end in
      setattr "_qt" (rename "qt" s_qt);;
      attr "_qt"
  end.

Definition qt_or_qc : M Series :=
  p ← get; if bool_decide (is_Some (_area_ratio p)) then qt else qc.

Definition Rf : M Series :=
  p ← get;
  let suffix := "This is needed to calculate the friction ratio, Rf." in
  match hasattr "_qc" p, hasattr "_fs" p with
  | false, false =>
      raise (not_defined "Cone penetration, qc, and sleeve friction, fs," p
               (" are not yet defined." +:+ suffix))
  | false, true =>
      raise (not_defined "Cone penetration, qc," p (" is not yet defined." +:+ suffix))
  | true, false =>
      raise (not_defined "Sleeve friction, fs," p (" is not yet defined." +:+ suffix))
  | true, true =>
      match series p !! "_Rf" with
      | Some s => mret s
      | None =>
          s_fs ← attr "_fs";
          s_qt ← (if bool_decide (is_Some (_area_ratio p)) then qt else attr "_qc");
          let s_Rf :=
            series_scalar fmul
              (series_binop fdiv s_fs (series_scalar fmul s_qt (num 1000))) (num 100) in
          setattr "_Rf" (rename "Rf" s_Rf);;
          attr "_Rf"
      end
  end.

Definition Qt : M Series :=
  p ← get;
  match series p !! "_Qt" with
  | Some s => mret s
  | None =>
      if negb (hasattr "_qc" p) then
        raise (not_defined "Cone penetration, qc," p
          " is not yet defined. This is needed to calculate the normalized cone penetration, Qt.")
      else if negb (bool_decide (is_Some (_unit_weight p))) then
        raise (not_defined "Unit weight" p
          " is not yet defined. This is needed to calculate the total stress and normalized cone penetration, Qt.")
      else if negb (bool_decide (is_Some (_gwl p)))
              && negb (bool_decide (is_Some (_elevated_gwl p))) then
        raise (not_defined "Groundwater level" p
          " is not yet defined. This is needed to calculate the effective stress and normalized cone penetration, Qt.")
      else
        s_qt ← qt_or_qc;
        s_total_stress ← total_stress;
        s_effective_stress ← effective_stress;
        let s_norm_Qt :=
          series_binop fdiv
            (series_binop fsub (series_scalar fmul s_qt (num 1000)) s_total_stress)
            s_effective_stress in
        setattr "_Qt" (rename "Normalized Cone Penetration, Qt" s_norm_Qt);;
        attr "_Qt"
  end.

Definition Fr : M Series :=
  p ← get;
  match series p !! "_Fr" with
  | Some s => mret s
  | None =>
      if negb (hasattr "_qc" p) then
        raise (not_defined "Cone penetration, qc," p
          " is not yet defined. This is needed to calculate the normalized friction ratio, Fr.")
      else if negb (bool_decide (is_Some (_unit_weight p))) then
        raise (not_defined "Unit weight" p
          " is not yet defined. This is needed to calculate the total stress and normalized friction ratio, Fr.")
      else
        s_fs ← fs;
        s_qt ← qt_or_qc;
        s_total_stress ← total_stress;
        let s_norm_Fr :=
          scalar_series fmul (num 100)
            (series_binop fdiv s_fs
               (series_binop fsub (series_scalar fmul s_qt (num 1000)) s_total_stress)) in
        setattr "_Fr" (rename "Normalized Friction Ratio, Fr" s_norm_Fr);;
        attr "_Fr"
  end.

(** [Bq]: without [u2] the property builds an all-NaN series and then goes
    on to read [self.u2] all the same. *)
Definition Bq : M Series :=
  p ← get;
  match series p !! "_Bq" with
  | Some s => mret s
  | None =>
      if negb (hasattr "_qc" p) then
        raise (not_defined "Cone penetration, qc," p
          " is not yet defined. This is needed to calculate the porewater pressure ratio, Bq.")
      else if negb (bool_decide (is_Some (_unit_weight p))) then
        raise (not_defined "Unit weight" p
          " is not yet defined. This is needed to calculate the total stress and the porewater pressure ratio, Bq.")
      else if negb (bool_decide (is_Some (_gwl p)))
              && negb (bool_decide (is_Some (_elevated_gwl p))) then
        raise (not_defined "Groundwater level" p
          " is not yet defined. This is needed to calculate the porewater pressures.")
      else
        s_qt ← qt_or_qc;
        p1 ← get;
        let s_Bq_undefined :=
          if negb (hasattr "_u2" p1)
          then Some (mkSeries (map (λ z, (z, NaN)) (index s_qt)) "Bq") else None in
        s_total_stress ← total_stress;
        p2 ← get;
        when (negb (hasattr "_elevated_u0" p2) && negb (hasattr "_static_u0" p2))
             _calculate_effective_stress;;
        s_u2 ← u2;
        p3 ← get;
        s_u0 ← (if hasattr "_elevated_u0" p3 then elevated_u0 else static_u0);
        let s_Bq :=
          series_binop fdiv (series_binop fsub s_u2 s_u0)
            (series_binop fsub (series_scalar fmul s_qt (num 1000)) s_total_stress) in
        setattr "_Bq" (rename "Bq" s_Bq);;
        attr "_Bq"
  end.

Definition Ic : M Series :=
  p ← get;
  match series p !! "_Ic" with
  | Some s => mret s
  | None =>
      s_Qt ← Qt;
      s_Fr ← Fr;
      let sq (x : float) := fmul x x in
      let s_Ic :=
        series_map sqrt
          (series_binop fadd
             (series_map sq (scalar_series fsub (num (347 # 100)) (series_map log10 s_Qt)))
             (series_map sq (series_scalar fadd (series_map log10 s_Fr) (num (122 # 100))))) in
      setattr "_Ic" (rename "Ic" s_Ic);;
      attr "_Ic"
  end.

(** [CPT_point.__getattribute__(param)] for the series-valued properties a
    method store may name; any other name is not an attribute here. *)
Definition getattribute (param : string) : M Series :=
  if String.eqb param "qc" then qc
  else if String.eqb param "fs" then fs
  else if String.eqb param "u2" then u2
  else if String.eqb param "qt" then qt
  else if String.eqb param "Rf" then Rf
  else if String.eqb param "Qt" then Qt
  else if String.eqb param "Fr" then Fr
  else if String.eqb param "Bq" then Bq
  else if String.eqb param "Ic" then Ic
  else if String.eqb param "total_stress" then total_stress
  else if String.eqb param "effective_stress" then effective_stress
  else if String.eqb param "static_u0" then static_u0
  else if String.eqb param "u0" then static_u0
  else if String.eqb param "elevated_u0" then elevated_u0
  else raise (no_attribute param).

(** ** Classification ([CPT_SoilClassification.calculate_soil_classification]) *)

Definition transform (is_on_log_scale : bool) (x : float) : float :=
  if is_on_log_scale then log10 x else x.

(** The body of the loop of [_parallel_is_point_in_polygon]. *)
Definition is_point_in_polygon (x y : float) (polygon : list (float * float)) : bool :=
  match x, y with
  | Some x, Some y => point_in_polygon x y polygon
  | _, _ => false
  end.

(** [bool_series_inbounds], for one row. *)
Definition in_bounds (v : Q * Q * Q * Q) (r : ZoneRow) (xy : float * float) : bool :=
  let '(x_min, x_max, y_min, y_max) := v in
  bool_decide (zr_number r = None)
  && fgeb xy.1 (Some x_min) && fleb xy.1 (Some x_max)
  && fgeb xy.2 (Some y_min) && fleb xy.2 (Some y_max).

(** [bool_is_in_polygon], for one in-bounds row: coordinates and vertices
    go through the configured log transform first. *)
Definition in_polygon (lx ly : bool) (z : Zone) (xy : float * float) : bool :=
  is_point_in_polygon (transform lx xy.1) (transform ly xy.2)
    (map (λ v, (transform lx (Some v.1), transform ly (Some v.2))) (zone_boundary z)).

Definition combined_zone : string := "9,10,11,12".
Definition Robertson_1986 : string := "Robertson et al 1986".

(** The rows the polygon test of zone [z] puts in the zone. *)
Definition placed (v : Q * Q * Q * Q) (lx ly : bool) (z : Zone)
    (c : ZoneRow * (float * float)) : bool :=
  in_bounds v c.1 c.2 && in_polygon lx ly z c.2.

Definition frame : Type := list ZoneRow * option (list Q).

(** One turn of the loop over the zones of a graph. *)
Definition classify_zone (method : string) (dict_soilzone_names : gmap string (string * string))
    (lx ly : bool) (data : list (float * float)) (st : frame) (z : Zone) : res frame :=
  match bounds (zone_boundary z) with
  | None => Ok st
  | Some v =>
      let candidates := combine st.1 data in
      if negb (existsb (λ c, in_bounds v c.1 c.2) candidates) then Ok st
      else if String.eqb method Robertson_1986 && String.eqb (zone_no z) combined_zone
      then Ok (st.1, Some (map (λ c, zr_depth c.1)
                               (List.filter (λ c, placed v lx ly z c) candidates)))
      else
        match dict_soilzone_names !! zone_no z with
        | None => Raise (KeyError (zone_no z))
        | Some (description, uscs) =>
            Ok (map (λ c, if in_bounds v c.1 c.2
                          then if in_polygon lx ly z c.2
                               then mkZoneRow (zr_depth c.1) (Some (zone_no z))
                                              (Some description) (Some uscs)
                               else mkZoneRow (zr_depth c.1) None None None
                          else c.1) candidates,
                st.2)
        end
  end.

Fixpoint classify_graph (method : string) (names : gmap string (string * string))
    (lx ly : bool) (data : list (float * float)) (st : frame) (zones : list Zone)
  : res frame :=
  match zones with
  | [] => Ok st
  | z :: rest =>
      match classify_zone method names lx ly data st z with
      | Ok st' => classify_graph method names lx ly data st' rest
      | Raise e => Raise e
      end
  end.

(** The special case after both graphs. *)
Definition finalize (method : string) (st : frame) : list ZoneRow :=
  match st.2 with
  | Some recalc_segment =>
      if String.eqb method Robertson_1986 then map (finalize_row recalc_segment) st.1
      else st.1
  | None => st.1
  end.

(** The coordinates of one graph, laid out on the rows of the result. *)
Definition graph_points (idx : list Q) (xy : Series * Series) : list (float * float) :=
  combine (reindex idx xy.1) (reindex idx xy.2).

Definition classify_rows (method : string) (m : Method) (idx : list Q)
    (g1 : Series * Series) (g2 : option (Series * Series)) : res (list ZoneRow) :=
  let names := dict_of_rows (zone_names m) in
  let st0 : frame := (map (λ d, mkZoneRow d None None None) idx, None) in
  match classify_graph method names (is_x1_on_log_scale m) (is_y1_on_log_scale m)
                       (graph_points idx g1) st0 (zone_definitions_1 m) with
  | Raise e => Raise e
  | Ok st1 =>
      match g2 with
      | None => Ok (finalize method st1)
      | Some g2 =>
          match classify_graph method names (is_x2_on_log_scale m) (is_y2_on_log_scale m)
                               (graph_points idx g2) st1 (zone_definitions_2 m) with
          | Raise e => Raise e
          | Ok st2 => Ok (finalize method st2)
          end
      end
  end.

Definition graph_data (idx : list Q) (g1 : Series * Series) (g2 : option (Series * Series))
  : list GraphRow :=
  let second := match g2 with
                | Some g2 => graph_points idx g2
                | None => map (λ _, (NaN, NaN)) idx
                end in
  map (λ r, mkGraphRow r.1 r.2.1.1 r.2.1.2 r.2.2.1 r.2.2.2)
      (combine idx (combine (graph_points idx g1) second)).

(** The coordinate pairs [compare_data]. *)
Definition Eslami_Fellenius : string := "Eslami Fellenius".

Definition compare_data (method : string) (m : Method)
  : M ((Series * Series) * option (Series * Series)) :=
  if String.eqb method Eslami_Fellenius then
    x ← fs;
    p ← get;
    y ← (if hasattr "_u2" p
         then s_qt ← qt; s_u2 ← u2;
              mret (series_binop fsub s_qt (series_scalar fdiv s_u2 (num 1000)))
         else qt);
    mret ((x, y), None)
  else
    x1 ← getattribute (param_x1 m);
    y1 ← getattribute (param_y1 m);
    match param_x2 m with
    | None => mret ((x1, y1), None)
    | Some px2 =>
        x2 ← getattribute px2;
        y2 ← match param_y2 m with
             | Some py2 => getattribute py2
             | None => raise (TypeError "attribute name must be string, not 'NoneType'")
             end;
        mret ((x1, y1), Some (x2, y2))
    end.

Definition calculate_soil_classification (method : string) : M unit :=
  match db method with
  | None =>
      raise (DatabaseError ("No soil classification method by the label '" +:+ method
                            +:+ "' exists in the given database."))
  | Some m =>
      '(g1, g2) ← compare_data method m;
      s_qc ← qc;
      let idx := index s_qc in
      match g2, param_x2 m with
      | None, Some _ => raise (IndexError "list index out of range")
      | _, _ =>
          match classify_rows method m idx g1 g2 with
          | Raise e => raise e
          | Ok rows =>
              modify (with_classification (Some method) (Some rows)
                                          (Some (graph_data idx g1 g2)))
          end
      end
  end.

(** [classify_soil] *)
Definition classify_soil (method : option string) : M unit :=
  p ← get;
  match (match method with Some _ => method | None => _soil_classification_method p end) with
  | None => raise (AttributeError "Soil classification method is not set.")
  | Some method => calculate_soil_classification method
  end.

(** [classification] *)
Definition classification : M (list ZoneRow) :=
  p ← get;
  match _soil_classification_method p with
  | None =>
      raise (AttributeError
        ("Soil classification has not been defined for this CPT point. " +:+
         "Please call the method CPT.classify_soil() to calculate the soil zone."))
  | Some method =>
      when (negb (bool_decide (is_Some (_soil_classification p))))
           (classify_soil (Some method));;
      p ← get;
      match _soil_classification p with
      | Some c => mret c
      | None => raise (no_attribute "_soil_classification")
      end
  end.

End Properties.

(** ** [_calculate_stress]

    The stress pass re-runs the remembered classification, whose properties
    may call the stress pass again; [depth] bounds that nesting the way the
    interpreter's recursion limit does, and running out of it raises inside
    the [try] of the enclosing pass. *)
Fixpoint _calculate_stress_at (depth : nat) : M unit :=
  match depth with
  | O => raise RecursionError
  | S depth' =>
      _calculate_total_stress;;
      p ← get;
      when (bool_decide (is_Some (_gwl p)) || bool_decide (is_Some (_elevated_gwl p)))
           _calculate_effective_stress;;
      p ← get;
      match _soil_classification_method p with
      | Some method =>
          try_pass (classify_soil (_calculate_stress_at depth') (Some method))
      | None => mret tt
      end
  end.

Definition _calculate_stress : M unit := _calculate_stress_at (S recursion_limit).

(** ** Setters and deleters *)

(** [np.array(data, dtype=np.float64)]: the number of columns of a
    two-dimensional result, [None] for the one-dimensional empty array. *)
Definition np_array (data : table) : res (option nat) :=
  match data with
  | [] => Ok None
  | _ => match num_columns data with
         | Some n => Ok (Some n)
         | None => Raise ragged
         end
  end.

Definition all_derived : list string :=
  ["qt"; "Rf"; "Qt"; "Fr"; "Bq"; "Ic";
   "total_stress"; "effective_stress"; "static_u0"; "elevated_u0"].

Definition set_raw_data (data : table) : M unit :=
  match np_array data with
  | Raise e => raise e
  | Ok None => raise (ValueError "The input array must be two-dimensional.")
  | Ok (Some num_columns) =>
      if (num_columns <? 3)%nat then
        raise (ValueError "The input array must have at least 3 columns: Depth, Cone penetration qc, and Sleeve friction fs. A fourth column may be given for porewater pressure u2.")
      else
        setattr "_qc" (column 1 "qc" data);;
        setattr "_fs" (column 2 "fs" data);;
        when (3 <? num_columns)%nat (setattr "_u2" (column 3 "u2" data));;
        modify (with_holedepth
                  (fold_right fmax_skipna NaN (map (λ r, Some r.1) data)));;
        listener_dependency all_derived;;
        p ← get;
        when (hasattr "_total_stress" p) _calculate_stress
  end.

Definition del_raw_data : M unit :=
  listener_dependency
    ["qc"; "fs"; "u2"; "total_stress"; "effective_stress"; "static_u0"; "elevated_u0"];;
  del_qt.

(** The common shape of the [qc], [fs] and [u2] setters: [others] are the
    channels validated against, [evict] removes the dependencies. *)
Definition set_channel (name : string) (others : list string) (evict : M unit)
    (data : table) : M unit :=
  match np_array data with
  | Raise e => raise e
  | Ok None => raise too_many_indices
  | Ok (Some num_columns) =>
      if (num_columns <? 2)%nat then raise out_of_bounds
      else
        let new_series := column 1 name data in
        p ← get;
        match _validate_depth_index new_series others p with
        | (false, arr_mismatcheddatasets) =>
            raise (mismatch_error (default [] arr_mismatcheddatasets))
        | (true, _) =>
            let bool_keepexistingindex := (_validate_depth_index new_series [name] p).1 in
            setattr ("_" +:+ name) new_series;;
            update_holedepth (series_max new_series);;
            evict;;
            p ← get;
            when (hasattr "_total_stress" p && negb bool_keepexistingindex)
                 _calculate_stress
        end
  end.

Definition set_qc : table -> M unit := set_channel "qc" ["fs"; "u2"] del_qt.
Definition set_fs : table -> M unit :=
  set_channel "fs" ["qc"; "u2"] (listener_dependency ["Rf"; "Fr"; "Ic"]).
Definition set_u2 : table -> M unit := set_channel "u2" ["qc"; "fs"] del_qt.

Definition del_qc : M unit := del_qt;; del_attr "_qc".
Definition del_fs : M unit := listener_dependency ["Rf"; "Fr"; "Ic"];; del_attr "_fs".
Definition del_u2 : M unit := del_qt;; del_attr "_u2".

Definition set_area_ratio (value : float) : M unit :=
  modify (with_area_ratio (Some value));;
  del_qt.
Definition del_area_ratio : M unit :=
  del_qt;;
  p ← get;
  match _area_ratio p with
  | Some _ => modify (with_area_ratio None)
  | None => raise (no_attribute "_area_ratio")
  end.

Definition gwl_dependencies : list string := ["static_u0"; "effective_stress"; "Qt"; "Bq"; "Ic"].
Definition elevated_gwl_dependencies : list string :=
  ["elevated_u0"; "effective_stress"; "Qt"; "Bq"; "Ic"].
Definition unit_weight_dependencies : list string :=
  ["total_stress"; "effective_stress"; "Qt"; "Fr"; "Bq"; "Ic"].

(** [gwl] / [static_gwl] *)
Definition set_gwl (value : Q) : M unit :=
  modify (with_gwl (Some value));;
  _calculate_effective_stress;;
  listener_dependency gwl_dependencies.
Definition del_gwl : M unit :=
  listener_dependency gwl_dependencies;;
  p ← get;
  match _gwl p with
  | Some _ => modify (with_gwl None)
  | None => raise (no_attribute "_gwl")
  end.

Definition set_elevated_gwl (value : Q) : M unit :=
  modify (with_elevated_gwl (Some value));;
  _calculate_effective_stress;;
  listener_dependency elevated_gwl_dependencies.
Definition del_elevated_gwl : M unit :=
  listener_dependency elevated_gwl_dependencies;;
  p ← get;
  match _elevated_gwl p with
  | Some _ => modify (with_elevated_gwl None)
  | None => raise (no_attribute "_elevated_gwl")
  end.

(** The argument of the [unit_weight] setter: a number or an n x 2 table.
    [Constant] is a Python float and [Profile] a table that has a float in
    it (or a float64 array); [Int_constant] is a Python int and
    [Int_profile] a table of Python ints (or an int64 array). *)
Inductive unit_weight_value :=
| Constant (value : Q)
| Profile (rows : list (Q * Q))
| Int_constant (value : Z)
| Int_profile (rows : list (Z * Z)).

(** [np.array([[0, value], [9999, value]])] or [np.array(value)]: the rows
    and the element type of the array. *)
Definition np_array_of (value : unit_weight_value) : list (Q * Q) * dtype :=
  match value with
  | Constant v => ([(0, v); (9999, v)], float64)
  | Profile rows => (rows, float64)
  | Int_constant v => ([(0, inject_Z v); (9999, inject_Z v)], int64)
  | Int_profile rows => (map (λ r, (inject_Z r.1, inject_Z r.2)) rows, int64)
  end.

Definition set_unit_weight (value : unit_weight_value) : M unit :=
  modify (λ p, with_unit_weight (Some (np_array_of value).1)
                 (with_unit_weight_dtype (np_array_of value).2 p));;
  listener_dependency unit_weight_dependencies;;
  _calculate_stress.
Definition del_unit_weight : M unit :=
  listener_dependency unit_weight_dependencies;;
  p ← get;
  match _unit_weight p with
  | Some _ => modify (with_unit_weight None)
  | None => raise (no_attribute "_unit_weight")
  end.

(** The mutations of the public contract. *)
Inductive mutation :=
| Set_raw_data (data : table) | Del_raw_data
| Set_qc (data : table) | Del_qc
| Set_fs (data : table) | Del_fs
| Set_u2 (data : table) | Del_u2
| Set_area_ratio (value : float) | Del_area_ratio
| Set_unit_weight (value : unit_weight_value) | Del_unit_weight
| Set_static_gwl (value : Q) | Del_static_gwl
| Set_elevated_gwl (value : Q) | Del_elevated_gwl.

Definition run (m : mutation) : M unit :=
  match m with
  | Set_raw_data d => set_raw_data d | Del_raw_data => del_raw_data
  | Set_qc d => set_qc d | Del_qc => del_qc
  | Set_fs d => set_fs d | Del_fs => del_fs
  | Set_u2 d => set_u2 d | Del_u2 => del_u2
  | Set_area_ratio v => set_area_ratio v | Del_area_ratio => del_area_ratio
  | Set_unit_weight v => set_unit_weight v | Del_unit_weight => del_unit_weight
  | Set_static_gwl v => set_gwl v | Del_static_gwl => del_gwl
  | Set_elevated_gwl v => set_elevated_gwl v | Del_elevated_gwl => del_elevated_gwl
  end.

End Engine.

(** ** [calculate]

    The truth value that [any] takes of an argument: [None], the number 0
    and the empty string count as no argument; a NaN counts as one. *)
Definition truth_of_float (x : option float) : bool :=
  match x with
  | Some (Some q) => negb (Qeq_bool q 0)
  | Some None => true
  | None => false
  end.
Definition truth_of_number (x : option Q) : bool :=
  match x with
  | Some q => negb (Qeq_bool q 0)
  | None => false
  end.
Definition truth_of_str (x : option string) : bool :=
  match x with
  | Some s => negb (String.eqb s EmptyString)
  | None => false
  end.

Section Calculate.

Context {ext : External}.

(** [self._elevation], an attribute of [GeotechPoint] that the constructor
    sets for an elevation other than 0 and no method of [CPT] writes. *)
Variable _elevation : option Q.

(** [area_ratio], [unit_weight], [gwl_depth] and [gwl_el] are numbers or
    [None], [soil_classification_method] is a string or [None], as the
    signature has them. *)
Definition calculate (area_ratio : option float) (unit_weight gwl_depth gwl_el : option Q)
    (soil_classification_method : option string) : M unit :=
  if negb (truth_of_float area_ratio || truth_of_number unit_weight
           || truth_of_number gwl_depth || truth_of_number gwl_el
           || truth_of_str soil_classification_method)
  then raise (ValueError
    "Please enter at least one parameter, e.g. unit weight, to calculate the CPT data.")
  else
    match area_ratio with
    | Some a => modify (with_area_ratio (Some a));; qt;; mret tt
    | None => mret tt
    end;;
    Rf;;
    match unit_weight with
    | Some w => set_unit_weight (Constant w)
    | None => mret tt
    end;;
    Fr _calculate_stress;;
    match gwl_depth, _elevation with
    | Some d, _ => set_gwl d
    | None, Some el =>
        match gwl_el with
        | Some g => set_gwl (el - g)
        | None => raise (TypeError "unsupported operand type(s) for -: 'float' and 'NoneType'")
        end
    | None, None => mret tt
    end;;
    p ← get;
    when (bool_decide (is_Some (_gwl p)))
         (Bq _calculate_stress;; Qt _calculate_stress;; Ic _calculate_stress;; mret tt);;
    p ← get;
    match soil_classification_method, _soil_classification_method p with
    | Some method, _ => classify_soil _calculate_stress (Some method)
    | None, Some method => classify_soil _calculate_stress (Some method)
    | None, None => mret tt
    end.

End Calculate.

(** ** [Project]

    A project holds its points by reference, in one dict per kind of point.
    Of a point object it uses the name of its class and its [pointID]; a
    dict is the list of its items in insertion order. *)
Module Project.

Inductive exn :=
| StopIteration
| IndexError (msg : string)
| KeyError (msg : string)
| AttributeError (msg : string)
| UnboundLocalError
| RecursionError.

Inductive res (A : Type) :=
| Ok (a : A)
| Raise (e : exn).
Arguments Ok {A} a.
Arguments Raise {A} e.

Section Points.

Variable Point : Type.
Variable class_name : Point -> string.
Variable pointID : Point -> string.

Definition dict : Type := list (string * Point).

(** [k in d], [d.get(k)], [d.update({k: v})], [d.update(other)] and
    [list(d.values())]. *)
Definition contains (k : string) (d : dict) : bool :=
  existsb (fun kv => String.eqb k kv.1) d.
Fixpoint getitem (k : string) (d : dict) : option Point :=
  match d with
  | [] => None
  | (k', v) :: d' => if String.eqb k k' then Some v else getitem k d'
  end.
Fixpoint setitem (k : string) (v : Point) (d : dict) : dict :=
  match d with
  | [] => [(k, v)]
  | (k', v') :: d' => if String.eqb k k' then (k', v) :: d' else (k', v') :: setitem k v d'
  end.
Definition update (d other : dict) : dict :=
  fold_left (fun d kv => setitem kv.1 kv.2 d) other d.
Definition dict_values (d : dict) : list Point := map snd d.

(** [self.points], with the keys "Borehole", "CPT" and "Other" in this
    order, and the two counters that [__iter__] sets. *)
Record t := mk {
  Borehole : dict;
  CPT : dict;
  Other : dict;
  counters : option (nat * nat)       (* __counter, __kcounter *)
}.

Definition __init__ : t := mk [] [] [] None.

Definition with_counters (c : option (nat * nat)) (pr : t) : t :=
  mk (Borehole pr) (CPT pr) (Other pr) c.

(** [self.points[key]] and [self.points[key] = d] *)
Definition points_getitem (key : string) (pr : t) : option dict :=
  if String.eqb key "Borehole" then Some (Borehole pr)
  else if String.eqb key "CPT" then Some (CPT pr)
  else if String.eqb key "Other" then Some (Other pr)
  else None.
Definition points_store (key : string) (d : dict) (pr : t) : t :=
  if String.eqb key "Borehole" then mk d (CPT pr) (Other pr) (counters pr)
  else if String.eqb key "CPT" then mk (Borehole pr) d (Other pr) (counters pr)
  else if String.eqb key "Other" then mk (Borehole pr) (CPT pr) d (counters pr)
  else pr.
(** [list(self.points.values())] *)
Definition points_values (pr : t) : list dict := [Borehole pr; CPT pr; Other pr].

(** [size], [__len__] *)
Definition size (pr : t) : nat :=
  fold_right Nat.add 0%nat (map (fun v : dict => length v) (points_values pr)).

(** [add] *)
Definition add (point : Point) (pr : t) : res Point * t :=
  let klass := class_name point in
  let dict_key := if String.eqb klass "GeotechPoint" then "Other" else klass in
  match points_getitem dict_key pr with
  | None => (Raise (KeyError dict_key), pr)
  | Some store_to_dict =>
      let ID := pointID point in
      if contains ID store_to_dict then
        (Raise (IndexError
           ("A geotechnical point already exists in the project with the name " +:+ ID +:+ ".")),
         pr)
      else (Ok point, points_store dict_key (setitem ID point store_to_dict) pr)
  end.

(** [get]: the result [None] is Python's. *)
Fixpoint get_from (point_id : string) (vs : list dict) : option Point :=
  match vs with
  | [] => None
  | v :: vs' => if contains point_id v then getitem point_id v else get_from point_id vs'
  end.
Definition get (point_id : string) (pr : t) : option Point :=
  get_from point_id (points_values pr).

(** [query_points]: [points] is 'all' or a list of IDs, [holetype] is
    [None] or a key.  The branch for a list of IDs reads the local variable
    [list_points] before it is assigned. *)
Inductive points_arg :=
| All
| Named (ids : list string).

Definition query_points (points : points_arg) (holetype : option string) (pr : t)
    : res (list Point) :=
  match (match holetype with
         | None => Ok (fold_left update (points_values pr) [])
         | Some key => match points_getitem key pr with
                       | Some d => Ok d
                       | None => Raise (KeyError key)
                       end
         end) with
  | Raise e => Raise e
  | Ok query_from_dict =>
      match points with
      | All => Ok (dict_values query_from_dict)
      | Named _ => Raise UnboundLocalError
      end
  end.

(** [__iter__] and [__next__].  [__next__] calls itself to step over an
    empty dict; [depth] bounds that nesting. *)
Definition __iter__ (pr : t) : t := with_counters (Some (0, 0)%nat) pr.

Fixpoint next_at (depth : nat) (pr : t) : res Point * t :=
  match depth with
  | O => (Raise RecursionError, pr)
  | S depth' =>
      match counters pr with
      | None => (Raise (AttributeError "'Project' object has no attribute '_Project__kcounter'"),
                 pr)
      | Some (counter, kcounter) =>
          if (length (points_values pr) <=? kcounter)%nat then (Raise StopIteration, pr)
          else
            match points_values pr !! kcounter with
            | None => (Raise (IndexError "list index out of range"), pr)
            | Some access_dict =>
                if (length access_dict =? 0)%nat then
                  next_at depth' (with_counters (Some (0, kcounter + 1)%nat) pr)
                else
                  match dict_values access_dict !! counter with
                  | None => (Raise (IndexError "list index out of range"), pr)
                  | Some point =>
                      (Ok point,
                       if (length access_dict <=? counter + 1)%nat
                       then with_counters (Some (0, kcounter + 1)%nat) pr
                       else with_counters (Some (counter + 1, kcounter)%nat) pr)
                  end
            end
      end
  end.

Definition __next__ (recursion_limit : nat) : t -> res Point * t := next_at (S recursion_limit).

(** [[point for point in project]]: [__iter__], then [__next__] until it
    raises, at most [n] times; the points it returned, how it ended (if it
    did) and the project it leaves. *)
Fixpoint drain (recursion_limit n : nat) (pr : t) : list Point * option exn * t :=
  match n with
  | O => ([], None, pr)
  | S n' =>
      match __next__ recursion_limit pr with
      | (Raise e, pr') => ([], Some e, pr')
      | (Ok point, pr') =>
          let '(l, e, pr'') := drain recursion_limit n' pr' in (point :: l, e, pr'')
      end
  end.

Definition for_each (recursion_limit n : nat) (pr : t) : list Point * option exn * t :=
  drain recursion_limit n (__iter__ pr).

End Points.

Arguments mk {Point}.
Arguments Borehole {Point}.
Arguments CPT {Point}.
Arguments Other {Point}.
Arguments counters {Point}.
Arguments contains {Point}.
Arguments getitem {Point}.
Arguments setitem {Point}.
Arguments update {Point}.
Arguments dict_values {Point}.
Arguments with_counters {Point}.
Arguments points_getitem {Point}.
Arguments points_store {Point}.
Arguments points_values {Point}.
Arguments size {Point}.
Arguments add {Point}.
Arguments get_from {Point}.
Arguments get {Point}.
Arguments query_points {Point}.
Arguments __iter__ {Point}.
Arguments next_at {Point}.
Arguments __next__ {Point}.
Arguments drain {Point}.
Arguments for_each {Point}.

End Project.

(** ** Sample data

    A small method store and a containment test on rectangles, to run the
    model on concrete probes. *)

Definition rectangle (x0 x1 y0 y1 : Q) : list (Q * Q) :=
  [(x0, y0); (x1, y0); (x1, y1); (x0, y1); (x0, y0)].

(** inside the bounding box of the vertices *)
Definition in_box (x y : Q) (polygon : list (float * float)) : bool :=
  let xs := omap fst polygon in
  let ys := omap snd polygon in
  existsb (λ a, Qle_bool a x) xs && existsb (λ a, Qle_bool x a) xs
  && existsb (λ a, Qle_bool a y) ys && existsb (λ a, Qle_bool y a) ys.

Definition sample_Robertson_1986 : Method :=
  mkMethod "Bq" "qt" (Some "Rf") (Some "qt") false false false false
    [("3", ("Clay", "CL")); ("9", ("Sand", "SP")); ("10", ("Gravelly sand to sand", "SW"))]
    [mkZone "3" (rectangle 0 1 0 1); mkZone "9,10,11,12" (rectangle (-1) 1 1 100)]
    [mkZone "9" (rectangle 0 1 1 10); mkZone "3" (rectangle 1 2 1 100)].

Definition sample_Eslami_Fellenius : Method :=
  mkMethod "fs" "qE" None None false false false false
    [("1", ("Very soft clay", "CH")); ("5", ("Sand to sandy gravel", "SW"))]
    [mkZone "1" (rectangle 0 10 0 1); mkZone "5" (rectangle 0 1000 1 100)]
    [].

Definition sample_db (method : string) : option Method :=
  if String.eqb method "Robertson et al 1986" then Some sample_Robertson_1986
  else if String.eqb method "Eslami Fellenius" then Some sample_Eslami_Fellenius
  else None.

Definition sample_ext : External :=
  {| log10 := λ _, NaN; sqrt := λ _, NaN; db := sample_db;
     point_in_polygon := in_box; recursion_limit := 8 |}.

(** The probe left by a sequence of mutations (a failed one stays tried). *)
Definition after (ms : list mutation) (p : CPT) : CPT :=
  fold_left (λ p m, (run (ext := sample_ext) m p).2) ms p.

Definition rows1 (depths : list Q) (v : Q) : table :=
  map (λ d, (d, [num v])) depths.

(** * Vocabulary of the statements and sample probes *)

(** The unit weight at depth [z]: the profile of element type [dt], after
    the pass over its duplicated breakpoints, interpolated. *)
Definition unitweight (dt : dtype) (profile : list (Q * Q)) (z : Q) : Q :=
  np_interp z (nudge_duplicates dt profile).

(** The depth samples the stress is discretised at. *)
Definition depth_samples (p : CPT) : list Q :=
  match first_raw_channel p with
  | Some s => index s
  | None => match _unit_weight p with
            | Some uw => map fst uw
            | None => []
            end
  end.




(** [v] is the weight of a row of [pts], or the value at [z] of the line
    through two consecutive rows of [pts] that have [z] between their
    breakpoints. *)
Definition interpolates (pts : list (Q * Q)) (z v : Q) : Prop :=
  (exists r, r ∈ pts /\ v = r.2) \/
  (exists j r0 r1, pts !! j = Some r0 /\ pts !! S j = Some r1 /\ r0.1 < z /\ z < r1.1 /\
     v = (r1.2 - r0.2) / (r1.1 - r0.1) * (z - r0.1) + r0.2).






(** [s] is the pore pressure under the groundwater level [gwl] at the depths
    [idx]: 0 above the level, (z - gwl) * 10 at or below it. *)
Definition pore_pressure (gwl : Q) (idx : list Q) (s : Series) : Prop :=
  index s = idx /\
  Forall (fun r : Q * float =>
            exists u, r.2 = Some u /\
                      (r.1 < gwl -> u == 0) /\
                      (gwl <= r.1 -> u == (r.1 - gwl) * 10))
         (items s).

(** [e] is [t - u], row by row. *)
Definition series_difference (t u e : Series) : Prop :=
  items e = zip_with (fun a b : Q * float => (a.1, fsub a.2 b.2)) (items t) (items u).

Definition probe_C8 : CPT :=
  after [Set_qc (rows1 [10; 20] 1); Set_unit_weight (Constant 16); Set_static_gwl 15]
        (new_CPT "CPT-1").

Definition total_stress_C8 : Series := mkSeries [(10, Some 160); (20, Some 320)] "sv0".

Definition preserves {A} (R : CPT -> CPT -> Prop) (m : M A) : Prop :=
  forall p r p', m p = (r, p') -> R p p'.

(** The probe [p'] has the inputs of [p] and the same series under every
    attribute name in [keep]. *)
Record agree_on (keep : string -> Prop) (p p' : CPT) : Prop := {
  agree_pointID : pointID p' = pointID p;
  agree_holedepth : holedepth p' = holedepth p;
  agree_area_ratio : _area_ratio p' = _area_ratio p;
  agree_gwl : _gwl p' = _gwl p;
  agree_elevated_gwl : _elevated_gwl p' = _elevated_gwl p;
  agree_unit_weight : _unit_weight p' = _unit_weight p;
  agree_series : forall k, keep k -> series p' !! k = series p !! k;
  agree_unit_weight_dtype : _unit_weight_dtype p' = _unit_weight_dtype p
}.

Definition derived_slots : list string :=
  ["_qt"; "_Rf"; "_Qt"; "_Fr"; "_Bq"; "_Ic";
   "_total_stress"; "_effective_stress"; "_static_u0"; "_elevated_u0"].

Definition raw_channel (k : string) : Prop := k ∈ ["_qc"; "_fs"; "_u2"].

(** The all-undefined series over the depths of [qc] that C5 expects. *)
Definition all_undefined (s_qc : Series) : Series :=
  mkSeries (map (fun z => (z, NaN)) (index s_qc)) "Bq".

Definition raw3 : table :=
  [(1, [num 2; num 30]); (2, [num 3; num 40])].

Definition probe_C5 : CPT :=
  after [Set_raw_data raw3; Set_unit_weight (Constant 16); Set_static_gwl 0]
        (new_CPT "CPT-1").

(** Two label lists with the same labels, as sets. *)
Definition same_labels (a b : list Q) : bool :=
  forallb (fun x => label_in x b) a && forallb (fun x => label_in x a) b.

(** The invariant of C4: any two raw channels present carry the same depth
    labels. *)
Definition channels_aligned (p : CPT) : Prop :=
  forall a b sa sb,
    raw_channel a -> raw_channel b ->
    series p !! a = Some sa -> series p !! b = Some sb ->
    same_labels (index sa) (index sb) = true.

Definition raw4_shallow : table :=
  [(1, [num 2; num 30; num 5]); (2, [num 3; num 40; num 6])].

Definition raw3_deep : table :=
  [(3, [num 2; num 30]); (4, [num 3; num 40])].

Definition sample_Bq : Series := mkSeries [(1, num (1#2)); (2, num (1#2)); (3, num (1#2))] "Bq".

Definition sample_qt : Series := mkSeries [(1, num 5); (2, num 50); (3, num (1#2))] "qt".

Definition sample_Rf : Series := mkSeries [(1, num (1#2)); (2, num (3#2)); (3, num (1#2))] "Rf".

Definition sample_final : list ZoneRow :=
  [mkZoneRow 1 (Some "9") (Some "Sand") (Some "SP");
   mkZoneRow 2 (Some "9,10,11,12") (Some "Zone 9,10,11,12") (Some "");
   mkZoneRow 3 (Some "3") (Some "Clay") (Some "CL")].


Definition probe_C10 : CPT :=
  after [Set_raw_data raw4_shallow; Set_area_ratio (num (8 # 10))] (new_CPT "CPT-1").

Definition classified_C10 : CPT :=
  (calculate_soil_classification (ext := sample_ext)
     (_calculate_stress (ext := sample_ext)) Eslami_Fellenius probe_C10).2.

Definition delete_slots (ls : list string) (m : gmap string Series) : gmap string Series :=
  fold_left (fun m d => delete ("_" +:+ d) m) ls m.

(** The probe after [listener_dependency ls]. *)
Definition evict (ls : list string) (p : CPT) : CPT :=
  match _soil_classification_method p with
  | Some method =>
      with_classification (Some method) None None
        (with_series (delete_slots ls (series p)) p)
  | None => with_series (delete_slots ls (series p)) p
  end.

Definition qt_cascade : list string := ["Rf"; "Qt"; "Fr"; "Bq"; "Ic"; "qt"].

(** The classification result is cached only with its method remembered. *)
Definition classification_has_method (p : CPT) : Prop :=
  _soil_classification_method p = None ->
  _soil_classification p = None /\ _soil_classification_graph_data p = None.

Inductive channel := Qc | Fs | U2.

Definition channel_name (c : channel) : string :=
  match c with Qc => "qc" | Fs => "fs" | U2 => "u2" end.

Definition other_channels (c : channel) : list string :=
  match c with Qc => ["fs"; "u2"] | Fs => ["qc"; "u2"] | U2 => ["qc"; "fs"] end.

Definition channel_dependencies (c : channel) : list string :=
  match c with Qc | U2 => qt_cascade | Fs => ["Rf"; "Fr"; "Ic"] end.

Definition set_raw `{ext : External} (c : channel) : table -> M unit :=
  match c with Qc => set_qc | Fs => set_fs | U2 => set_u2 end.

(** The channels among [others] that are present with a depth index other
    than that of [new]. *)
Definition misaligned_series (new : Series) (others : list string) (p : CPT) : list Series :=
  List.filter (fun e => negb (index_equals (index new) (index e)))
              (omap (fun a => series p !! ("_" +:+ a)) others).

(** Total stress is cached only under a non-empty unit-weight profile. *)
Definition stress_ready (p : CPT) : Prop :=
  is_Some (series p !! "_total_stress") ->
  exists x0 w0 uw, _unit_weight p = Some ((x0, w0) :: uw).

Definition bump_holedepth (max_depth : float) (p : CPT) : CPT :=
  if fltb (holedepth p) max_depth then with_holedepth max_depth p else p.

(** The probe right after the eviction of a channel setter. *)
Definition channel_stored (c : channel) (new : Series) (p : CPT) : CPT :=
  evict (channel_dependencies c)
    (bump_holedepth (series_max new)
       (with_series (<["_" +:+ channel_name c := new]> (series p)) p)).

(** C7 as worded: the new depth index matches, as a set, the index of every
    other raw channel present. *)
Definition matches_as_set (new : Series) (others : list string) (p : CPT) : Prop :=
  forall a s, a ∈ others -> series p !! ("_" +:+ a) = Some s ->
              same_labels (index new) (index s) = true.

Definition probe_qc_12 : CPT := after [Set_qc (rows1 [1; 2] 1)] (new_CPT "CPT-1").

(** The derived quantities that the table of dependency edges lists for a
    mutated input, the cascade through [qt] included. *)
Definition listed (m : mutation) : list string :=
  match m with
  | Set_raw_data _ | Del_raw_data => all_derived
  | Set_qc _ | Del_qc | Set_u2 _ | Del_u2 | Set_area_ratio _ | Del_area_ratio =>
      ["qt"; "Rf"; "Qt"; "Fr"; "Bq"; "Ic"]
  | Set_fs _ | Del_fs => ["Rf"; "Fr"; "Ic"]
  | Set_unit_weight _ | Del_unit_weight =>
      ["total_stress"; "effective_stress"; "Qt"; "Fr"; "Bq"; "Ic"]
  | Set_static_gwl _ | Del_static_gwl =>
      ["static_u0"; "effective_stress"; "Qt"; "Bq"; "Ic"]
  | Set_elevated_gwl _ | Del_elevated_gwl =>
      ["elevated_u0"; "effective_stress"; "Qt"; "Bq"; "Ic"]
  end.

(** From [p] to [p1]: exactly the quantities [ls] are evicted and the
    classification result with them, the method name stays; the quantities
    [fresh] hold the given series; every other derived quantity is cached as
    it was. *)
Definition evicts_exactly (ls : list string) (fresh : list (string * Series))
    (p p1 : CPT) : Prop :=
  (forall d, d ∈ ls -> series p1 !! ("_" +:+ d) = None) /\
  (forall d s, (d, s) ∈ fresh -> series p1 !! ("_" +:+ d) = Some s) /\
  (forall d, d ∈ all_derived -> d ∉ ls -> d ∉ map fst fresh ->
             series p1 !! ("_" +:+ d) = series p !! ("_" +:+ d)) /\
  _soil_classification p1 = None /\
  _soil_classification_graph_data p1 = None /\
  _soil_classification_method p1 = _soil_classification_method p.

(** Whether the mutation runs the stress pass after its eviction. *)
Definition recalculates (m : mutation) (p : CPT) : bool :=
  match m with
  | Set_unit_weight _ => true
  | Set_qc data =>
      hasattr "_total_stress" p && negb (_validate_depth_index (column 1 "qc" data) ["qc"] p).1
  | Set_fs data =>
      hasattr "_total_stress" p && negb (_validate_depth_index (column 1 "fs" data) ["fs"] p).1
  | Set_u2 data =>
      hasattr "_total_stress" p && negb (_validate_depth_index (column 1 "u2" data) ["u2"] p).1
  | _ => false
  end.

(** The pore pressure of the other groundwater level, which the assignment
    of a level computes again from the cached total stress. *)
Definition refreshed (m : mutation) (p : CPT) : list (string * Series) :=
  match m, series p !! "_total_stress" with
  | Set_static_gwl _, Some t =>
      match _elevated_gwl p with
      | Some g => [("elevated_u0", u0_series "u0 (elevated)" g (index t))]
      | None => []
      end
  | Set_elevated_gwl _, Some t =>
      match _gwl p with
      | Some g => [("static_u0", u0_series "u0" g (index t))]
      | None => []
      end
  | _, _ => []
  end.

Definition probe_C1 : CPT :=
  after [Set_qc (rows1 [1; 2] 1); Set_unit_weight (Constant 16)] (new_CPT "CPT-1").

(** The classification fields of [q] are those of [p]. *)
Definition same_classification (p q : CPT) : Prop :=
  _soil_classification_method q = _soil_classification_method p /\
  _soil_classification q = _soil_classification p /\
  _soil_classification_graph_data q = _soil_classification_graph_data p.

(** The series attributes after [_calculate_effective_stress] on a total
    stress [t]. *)
Definition stress_slots (q : CPT) (t : Series) : gmap string Series :=
  let m1 := match _elevated_gwl q with
            | Some g => <["_elevated_u0" := u0_series "u0 (elevated)" g (index t)]> (series q)
            | None => series q
            end in
  let m2 := match _gwl q with
            | Some g => <["_static_u0" := u0_series "u0" g (index t)]> m1
            | None => m1
            end in
  <["_effective_stress" :=
     rename "sv0'"
       match _elevated_gwl q, _gwl q with
       | Some g, _ => series_binop fsub t (u0_series "u0 (elevated)" g (index t))
       | None, Some g => series_binop fsub t (u0_series "u0" g (index t))
       | None, None => t
       end]> m2.

Definition follows_table `{ext : External} (m : mutation) (p p' : CPT) : Prop :=
  exists p1,
    evicts_exactly (listed m) (refreshed m p) p p1 /\
    if recalculates m p then _calculate_stress p1 = (Ok tt, p') else p' = p1.

(** The two facts about a probe that the statements below rely on; every
    probe that the public operations can build has them. *)
Definition well_formed (p : CPT) : Prop :=
  classification_has_method p /\ stress_ready p.

Definition keeps_well_formed (p p' : CPT) : Prop := well_formed p -> well_formed p'.

(** The probes that a program can hold: a new one, and what a mutation, a
    classification or the read of a property leaves. *)
Inductive reachable `{ext : External} : CPT -> Prop :=
| reachable_new id : reachable (new_CPT id)
| reachable_run m p : reachable p -> reachable (run m p).2
| reachable_classify_soil method p :
    reachable p -> reachable (classify_soil _calculate_stress method p).2
| reachable_read param p :
    reachable p -> reachable (getattribute _calculate_stress param p).2
| reachable_classification p :
    reachable p -> reachable (classification _calculate_stress p).2.

(** What a program does with a probe besides mutating it: it reads a
    property, classifies, or reads the classification. *)
Inductive observation :=
| Read (param : string)
| Classify_soil (method : option string)
| Classification.

(** The probe an observation leaves, whether it returned or raised. *)
Definition observe `{ext : External} (o : observation) (p : CPT) : CPT :=
  match o with
  | Read param => (getattribute _calculate_stress param p).2
  | Classify_soil method => (classify_soil _calculate_stress method p).2
  | Classification => (classification _calculate_stress p).2
  end.

Definition succeeds `{ext : External} (o : observation) (p : CPT) : bool :=
  match o with
  | Read param => is_ok (getattribute _calculate_stress param p).1
  | Classify_soil method => is_ok (classify_soil _calculate_stress method p).1
  | Classification => is_ok (classification _calculate_stress p).1
  end.

(** The series that [_calculate_total_stress] stores on [p]. *)
Definition expected_total_stress (p : CPT) : option Series :=
  match _unit_weight p, depth_samples p with
  | Some ((x0, w0) :: uw), d0 :: ds =>
      Some (mkSeries (combine (d0 :: ds)
                              (map Some (total_stress_values (_unit_weight_dtype p)
                                           d0 ds x0 w0 uw)))
                     "sv0")
  | _, _ => None
  end.

(** From [p] to [q] nothing but caches were filled: the inputs, the raw
    channels and the remembered method are those of [p], whatever was cached
    in [p] is cached in [q], and a total stress that was up to date still
    is. *)
Record caches_filled (p q : CPT) : Prop := {
  filled_inputs : agree_on (fun k => k ∉ derived_slots) p q;
  filled_method : _soil_classification_method q = _soil_classification_method p;
  filled_series : forall k, is_Some (series p !! k) -> is_Some (series q !! k);
  filled_classification :
    is_Some (_soil_classification p) -> is_Some (_soil_classification q);
  filled_graph_data :
    is_Some (_soil_classification_graph_data p) ->
    is_Some (_soil_classification_graph_data q);
  filled_total_stress :
    forall s, expected_total_stress p = Some s ->
              series p !! "_total_stress" = Some s ->
              series q !! "_total_stress" = Some s
}.

(** A probe with [qc] on the depths 1, 2 and a unit weight of 16, nothing
    cached. *)
Definition probe_constant_weight : CPT :=
  with_unit_weight (Some [(0, 16); (9999, 16)]) probe_qc_12.

(** A read that returns leaves its value under the attribute [slot]. *)
Definition ends_cached (slot : string) (m : M Series) (p : CPT) : Prop :=
  forall s p', m p = (Ok s, p') -> series p' !! slot = Some s.

(** Every unit weight of the profile lies between [lo] and [hi]. *)
Definition weights_within (lo hi : Q) (profile : list (Q * Q)) : Prop :=
  Forall (fun r : Q * Q => lo <= r.2 /\ r.2 <= hi) profile.


(** The table a [unit_weight] assignment stores, and its element type. *)
Definition profile_of (value : unit_weight_value) : list (Q * Q) := (np_array_of value).1.
Definition dtype_of (value : unit_weight_value) : dtype := (np_array_of value).2.

(** The probe with the array of [value] as its unit weight. *)
Definition with_unit_weight_of (value : unit_weight_value) (p : CPT) : CPT :=
  with_unit_weight (Some (profile_of value)) (with_unit_weight_dtype (dtype_of value) p).

(** The assignments of raw data: in bulk, or one channel. *)
Definition assigns_raw (m : mutation) : bool :=
  match m with
  | Set_raw_data _ | Set_qc _ | Set_fs _ | Set_u2 _ => true
  | _ => false
  end.

(** [table_data[:, 0].max()] *)
Definition max_depth (data : table) : float :=
  fold_right fmax_skipna NaN (map (fun r : Q * list float => Some r.1) data).

(** The hole depth a mutation that returns leaves: the bulk assignment sets
    it to the largest depth of the table; the assignment of one channel
    raises it to the largest value of the channel ([qc_series.max()]) when
    that is larger; nothing else touches it. *)
Definition holedepth_after (m : mutation) (p : CPT) : float :=
  match m with
  | Set_raw_data data => max_depth data
  | Set_qc data => holedepth (bump_holedepth (series_max (column 1 "qc" data)) p)
  | Set_fs data => holedepth (bump_holedepth (series_max (column 1 "fs" data)) p)
  | Set_u2 data => holedepth (bump_holedepth (series_max (column 1 "u2" data)) p)
  | _ => holedepth p
  end.

Definition same_holedepth (p q : CPT) : Prop := holedepth q = holedepth p.

(** The coordinates lie in the bounding box [v] ([bool_series_inbounds]
    without its test on the zone number). *)
Definition fits (v : Q * Q * Q * Q) (xy : float * float) : bool :=
  let '(x_min, x_max, y_min, y_max) := v in
  fgeb xy.1 (Some x_min) && fleb xy.1 (Some x_max)
  && fgeb xy.2 (Some y_min) && fleb xy.2 (Some y_max).

(** The point lies in the zone: in the bounding box of its vertices and in
    its polygon. *)
Definition holds `{ext : External} (lx ly : bool) (xy : float * float) (z : Zone) : bool :=
  match bounds (zone_boundary z) with
  | Some v => fits v xy && in_polygon lx ly z xy
  | None => false
  end.

(** The first zone that holds the sample: among the zones of the first
    graph in their order, and failing that among those of the second graph
    at the coordinates of the second graph. *)
Definition first_zone `{ext : External} (m : Method)
    (xy1 : float * float) (xy2 : option (float * float)) : option Zone :=
  match List.find (holds (is_x1_on_log_scale m) (is_y1_on_log_scale m) xy1)
                  (zone_definitions_1 m) with
  | Some z => Some z
  | None =>
      match xy2 with
      | Some xy2 => List.find (holds (is_x2_on_log_scale m) (is_y2_on_log_scale m) xy2)
                              (zone_definitions_2 m)
      | None => None
      end
  end.

(** The row of the result at depth [d] for a sample of the zone [oz]. *)
Definition row_of (names : gmap string (string * string)) (oz : option Zone) (d : Q)
    (r : ZoneRow) : Prop :=
  match oz with
  | Some z => exists description uscs,
      names !! zone_no z = Some (description, uscs) /\
      r = mkZoneRow d (Some (zone_no z)) (Some description) (Some uscs)
  | None => r = mkZoneRow d None None None
  end.

(** From [p] to [q] the attribute [slot], where set, kept its series. *)
Definition slot_kept (slot : string) (p q : CPT) : Prop :=
  forall s, series p !! slot = Some s -> series q !! slot = Some s.

(** Caches were filled from [p] to [q], and not the one of [qt] if it was
    filled already. *)
Definition observed (p q : CPT) : Prop :=
  caches_filled p q /\ slot_kept "_qt" p q.

(** What the steps of [calculate] after the area ratio keep of a probe. *)
Record kept_by_calculate (p q : CPT) : Prop := {
  kept_pointID : pointID q = pointID p;
  kept_holedepth : holedepth q = holedepth p;
  kept_area_ratio : _area_ratio q = _area_ratio p;
  kept_raw : forall k, raw_channel k -> series q !! k = series p !! k;
  kept_qt : slot_kept "_qt" p q
}.

(** A probe with the four raw columns, and what [calculate] leaves of it
    when called with an area ratio of 0.8, a unit weight of 16, a
    groundwater level at 1 m and a classification method. *)
Definition probe_raw4 : CPT := after [Set_raw_data raw4_shallow] (new_CPT "CPT-1").

Definition calculated_raw4 : CPT :=
  (calculate (ext := sample_ext) None (Some (num (8 # 10))) (Some 16) (Some 1) None
     (Some Eslami_Fellenius) probe_raw4).2.

(** The probe with an area ratio of 0.8 after a read of [qt]. *)
Definition probe_with_qt : CPT := (qt probe_C10).2.

(** The key under which [add] files a point. *)
Definition dict_key_of (klass : string) : string :=
  if String.eqb klass "GeotechPoint" then "Other" else klass.

(** The dicts that [get] searches before the one under [key]. *)
Definition dicts_before {Point} (key : string) (pr : Project.t Point)
    : list (Project.dict Point) :=
  if String.eqb key "Borehole" then []
  else if String.eqb key "CPT" then [Project.Borehole pr]
  else [Project.Borehole pr; Project.CPT pr].

(** The points of a project, by kind and then in the order they were added. *)
Definition all_points {Point} (pr : Project.t Point) : list Point :=
  concat (map Project.dict_values (Project.points_values pr)).

(** The IDs of a project, by kind and then in the order they were added. *)
Definition all_ids {Point} (pr : Project.t Point) : list string :=
  concat (map (map fst) (Project.points_values pr)).

(** The points that an iteration with the counters [c] and [k] has yet to
    return, and the counters an iteration can have: [c] is a position in the
    dict number [k], or it is 0. *)
Definition remaining_points {Point} (c k : nat) (pr : Project.t Point) : list Point :=
  match Project.points_values pr !! k with
  | Some d => drop c (Project.dict_values d)
  | None => []
  end ++ concat (map Project.dict_values (drop (S k) (Project.points_values pr))).

Definition iterating {Point} (c k : nat) (pr : Project.t Point) : Prop :=
  (k <= length (Project.points_values pr))%nat /\
  (c = 0%nat \/ exists d : Project.dict Point, Project.points_values pr !! k = Some d /\ (c < length d)%nat).

(** Two points of a sample project: a borehole and a probe that share an
    ID.  A point is given here by the name of its class and its ID. *)
Definition sample_borehole : string * string := ("Borehole", "P-1").
Definition sample_probe : string * string := ("CPT", "P-1").
Definition sample_project : Project.t (string * string) :=
  (Project.add fst snd sample_borehole (Project.__init__ _)).2.

(** The attribute that a deleter of one input deletes, and whether the probe
    has it. *)
Definition deleted_input (m : mutation) (p : CPT) : option (string * bool) :=
  match m with
  | Del_qc => Some ("_qc", hasattr "_qc" p)
  | Del_fs => Some ("_fs", hasattr "_fs" p)
  | Del_u2 => Some ("_u2", hasattr "_u2" p)
  | Del_area_ratio => Some ("_area_ratio", bool_decide (is_Some (_area_ratio p)))
  | Del_unit_weight => Some ("_unit_weight", bool_decide (is_Some (_unit_weight p)))
  | Del_static_gwl => Some ("_gwl", bool_decide (is_Some (_gwl p)))
  | Del_elevated_gwl => Some ("_elevated_gwl", bool_decide (is_Some (_elevated_gwl p)))
  | _ => None
  end.

(** A probe with a cached friction ratio and no area ratio. *)
Definition probe_with_Rf : CPT := (Rf probe_raw4).2.

(** * Properties *)

(** ** Stress integration *)








Lemma Qle_bool_false x y : Qle_bool x y = false -> y < x.
Proof.
  intros H. apply Qnot_le_lt. intros Hle. apply Qle_bool_iff in Hle. congruence.
Qed.

Lemma interp_segment_nonneg x0 y0 x1 y1 z :
  x0 <= z -> z < x1 -> 0 <= y0 -> 0 <= y1 ->
  0 <= (y1 - y0) / (x1 - x0) * (z - x0) + y0.
Proof.
  intros H0 H1 Hy0 Hy1.
  assert (Hd : 0 < x1 - x0) by lra.
  set (t := (z - x0) / (x1 - x0)).
  assert (Ht0 : 0 <= t).
  { unfold t. apply Qle_shift_div_l; [exact Hd|]. lra. }
  assert (Ht1 : t <= 1).
  { unfold t. apply Qle_shift_div_r; [exact Hd|]. lra. }
  assert (E : (y1 - y0) / (x1 - x0) * (z - x0) + y0 == y1 * t + y0 * (1 - t)).
  { unfold t. field. lra. }
  rewrite E.
  assert (0 <= y1 * t) by (apply Qmult_le_0_compat; assumption).
  assert (0 <= y0 * (1 - t)) by (apply Qmult_le_0_compat; [assumption|lra]).
  lra.
Qed.

Lemma Qlt_bool_iff x y : Qlt_bool x y = true <-> x < y.
Proof.
  unfold Qlt_bool. destruct (Qle_bool y x) eqn:E; simpl.
  - apply Qle_bool_iff in E. split; [discriminate|intros H; lra].
  - apply Qle_bool_false in E. tauto.
Qed.

Lemma Qlt_bool_false x y : Qlt_bool x y = false -> y <= x.
Proof.
  unfold Qlt_bool. destruct (Qle_bool y x) eqn:E; simpl; [|discriminate].
  intros _. now apply Qle_bool_iff.
Qed.

(** The bisection ends on an index that has the key at or after the item
    before it and before the item at it. *)
Lemma bisect_spec key arr n : forall imin imax,
  (imin <= imax)%nat -> (imax - imin <= n)%nat ->
  ((1 <= imin)%nat /\ item arr (imin - 1) <= key \/
   (imin < imax)%nat /\ item arr imin <= key) ->
  (imax = length arr \/ key < item arr imax) ->
  let r := bisect n key arr imin imax in
  (1 <= r <= imax)%nat /\ item arr (r - 1) <= key /\
  (r = length arr \/ key < item arr r).
Proof.
  induction n as [|n IH]; intros imin imax Hle Hn Hlo Hhi; cbn [bisect]; cbv zeta.
  - assert (imin = imax) as -> by lia.
    destruct Hlo as [[H1 H2]|[H1 _]]; [|lia]. auto.
  - destruct (imin <? imax)%nat eqn:E.
    + apply Nat.ltb_lt in E.
      assert (Hhalf : ((imax - imin) / 2 < imax - imin)%nat) by (apply Nat.div_lt; lia).
      assert (Hhalf' : ((imax - imin) / 2 <= n)%nat).
      { apply Nat.lt_succ_r. eapply Nat.lt_le_trans; [exact Hhalf|exact Hn]. }
      remember (imin + (imax - imin) / 2)%nat as imid eqn:Emid.
      assert (Hmid : (imin <= imid < imax)%nat) by lia.
      assert (Hmid' : (imid - imin <= n)%nat) by lia.
      clear Emid Hhalf Hhalf'.
      destruct (Qle_bool (item arr imid) key) eqn:Ek.
      * apply Qle_bool_iff in Ek.
        destruct (IH (imid + 1)%nat imax) as (H1 & H2 & H3); [lia|lia| |exact Hhi|].
        { left. split; [lia|]. now replace (imid + 1 - 1)%nat with imid by lia. }
        split; [lia|]. auto.
      * apply Qle_bool_false in Ek.
        destruct (IH imin imid) as (H1 & H2 & H3); [lia| | |right; exact Ek|].
        { exact Hmid'. }
        { destruct Hlo as [Hlo|[_ Hlo]]; [left; exact Hlo|].
          destruct (decide (imin = imid)) as [Heq|Hne].
          - exfalso. rewrite <- Heq in Ek. lra.
          - right. split; [lia|exact Hlo]. }
        split; [lia|]. auto.
    + apply Nat.ltb_ge in E. assert (imin = imax) as -> by lia.
      destruct Hlo as [[H1 H2]|[H1 _]]; [|lia]. auto.
Qed.

Lemma linear_search_spec key : forall rest i,
  let r := linear_search key i rest in
  (i <= r <= i + length rest)%nat /\
  ((i < r)%nat -> nth (r - 1 - i) rest 0 <= key) /\
  ((r < i + length rest)%nat -> key < nth (r - i) rest 0).
Proof.
  induction rest as [|x rest IH]; intros i; simpl.
  - split; [lia|]. split; intros; lia.
  - destruct (Qle_bool x key) eqn:E.
    + destruct (IH (S i)) as (H1 & H2 & H3). split; [lia|]. split.
      * intros _. destruct (decide (linear_search key (S i) rest = S i)) as [Heq|Hne].
        -- rewrite Heq. replace (S i - 1 - i)%nat with 0%nat by lia.
           now apply Qle_bool_iff.
        -- specialize (H2 ltac:(lia)).
           replace (linear_search key (S i) rest - 1 - i)%nat
             with (S (linear_search key (S i) rest - 1 - S i)) by lia.
           exact H2.
      * intros Hr. specialize (H3 ltac:(lia)).
        replace (linear_search key (S i) rest - i)%nat
          with (S (linear_search key (S i) rest - S i)) by lia.
        exact H3.
    + apply Qle_bool_false in E. split; [lia|]. split; [lia|].
      intros _. now replace (i - i)%nat with 0%nat by lia.
Qed.

(** What the search returns brackets the key. *)
Lemma binary_search_with_guess_spec key arr guess :
  arr <> [] ->
  match binary_search_with_guess key arr guess with
  | Below => key < item arr 0
  | Above => item arr (length arr - 1) < key
  | At j =>
      (j < length arr)%nat /\ item arr j <= key /\
      ((j + 1 < length arr)%nat -> key < item arr (j + 1))
  end.
Proof.
  intros Hne. unfold binary_search_with_guess.
  destruct (Qlt_bool (item arr (length arr - 1)) key) eqn:Ehi; [now apply Qlt_bool_iff|].
  apply Qlt_bool_false in Ehi.
  destruct (Qlt_bool key (item arr 0)) eqn:Elo; [now apply Qlt_bool_iff|].
  apply Qlt_bool_false in Elo.
  assert (Hlen : (1 <= length arr)%nat) by (destruct arr; [congruence|simpl; lia]).
  destruct (length arr <=? 4)%nat eqn:E4.
  - destruct arr as [|a arr]; [congruence|]. cbn [tl length] in *.
    destruct (linear_search_spec key arr 1) as (H1 & H2 & H3).
    set (r := linear_search key 1 arr) in *.
    split; [lia|]. split.
    + destruct (decide (r = 1%nat)) as [->|Hr]; [exact Elo|].
      specialize (H2 ltac:(lia)). unfold item.
      replace (r - 1)%nat with (S (r - 1 - 1)) by lia. exact H2.
    + intros Hj. specialize (H3 ltac:(lia)). unfold item.
      replace (r - 1 + 1)%nat with (S (r - 1)) by lia. exact H3.
  - apply Nat.leb_gt in E4.
    set (g1 := if (length arr - 3 <? guess)%nat then (length arr - 3)%nat else guess).
    set (g := if (g1 <? 1)%nat then 1%nat else g1).
    assert (Hg : (1 <= g <= length arr - 3)%nat).
    { unfold g, g1. destruct (length arr - 3 <? guess)%nat eqn:Ea.
      - destruct (length arr - 3 <? 1)%nat eqn:Eb; [apply Nat.ltb_lt in Eb; lia|lia].
      - apply Nat.ltb_ge in Ea. destruct (guess <? 1)%nat eqn:Eb; [lia|].
        apply Nat.ltb_ge in Eb. lia. }
    clearbody g. clear g1.
    destruct (Qlt_bool key (item arr g)) eqn:Eg.
    + apply Qlt_bool_iff in Eg.
      destruct (Qlt_bool key (item arr (g - 1))) eqn:Eg1.
      * apply Qlt_bool_iff in Eg1.
        assert (Hg1 : (g - 1 <> 0)%nat) by (intros H0; rewrite H0 in Eg1; lra).
        set (imin := if (LIKELY_IN_CACHE_SIZE <? g)%nat
                        && Qle_bool (item arr (g - LIKELY_IN_CACHE_SIZE)) key
                     then (g - LIKELY_IN_CACHE_SIZE)%nat else 0%nat).
        assert (Hmin : (imin < g - 1)%nat /\ item arr imin <= key).
        { unfold imin, LIKELY_IN_CACHE_SIZE.
          destruct (8 <? g)%nat eqn:E8; simpl; [|split; [lia|exact Elo]].
          apply Nat.ltb_lt in E8.
          destruct (Qle_bool (item arr (g - 8)) key) eqn:Ek; [|split; [lia|exact Elo]].
          apply Qle_bool_iff in Ek. split; [lia|exact Ek]. }
        destruct (bisect_spec key arr (length arr) imin (g - 1)%nat) as (H1 & H2 & H3);
          [lia|lia|right; exact Hmin|right; exact Eg1|].
        set (r := bisect (length arr) key arr imin (g - 1)) in *.
        split; [lia|]. split; [exact H2|].
        intros _. replace (r - 1 + 1)%nat with r by lia. destruct H3 as [H3|H3]; [lia|exact H3].
      * apply Qlt_bool_false in Eg1. split; [lia|]. split; [exact Eg1|].
        intros _. now replace (g - 1 + 1)%nat with g by lia.
    + apply Qlt_bool_false in Eg.
      destruct (Qlt_bool key (item arr (g + 1))) eqn:Eg1.
      * apply Qlt_bool_iff in Eg1. split; [lia|]. auto.
      * apply Qlt_bool_false in Eg1.
        destruct (Qlt_bool key (item arr (g + 2))) eqn:Eg2.
        -- apply Qlt_bool_iff in Eg2. split; [lia|]. split; [exact Eg1|].
           intros _. now replace (g + 1 + 1)%nat with (g + 2)%nat by lia.
        -- apply Qlt_bool_false in Eg2.
           set (imax := if (g <? length arr - LIKELY_IN_CACHE_SIZE - 1)%nat
                           && Qlt_bool key (item arr (g + LIKELY_IN_CACHE_SIZE))
                        then (g + LIKELY_IN_CACHE_SIZE)%nat else length arr).
           assert (Hmax : (g + 2 < imax <= length arr)%nat /\
                          (imax = length arr \/ key < item arr imax)).
           { unfold imax, LIKELY_IN_CACHE_SIZE.
             destruct (g <? length arr - 8 - 1)%nat eqn:E8; simpl; [|split; [lia|now left]].
             apply Nat.ltb_lt in E8.
             destruct (Qlt_bool key (item arr (g + 8))) eqn:Ek; [|split; [lia|now left]].
             apply Qlt_bool_iff in Ek. split; [lia|now right]. }
           destruct Hmax as [Hm1 Hm2].
           destruct (bisect_spec key arr (length arr) (g + 2)%nat imax) as (H1 & H2 & H3);
             [lia|lia|right; split; [lia|exact Eg2]|exact Hm2|].
           set (r := bisect (length arr) key arr (g + 2) imax) in *.
           split; [lia|]. split; [exact H2|].
           intros Hj. replace (r - 1 + 1)%nat with r by lia.
           destruct H3 as [H3|H3]; [lia|exact H3].
Qed.

Lemma item_fst (pts : list (Q * Q)) j r : pts !! j = Some r -> item (map fst pts) j = r.1.
Proof.
  intros H. unfold item. apply nth_lookup_Some with (d := 0).
  now rewrite list_lookup_fmap, H.
Qed.

Lemma item_snd (pts : list (Q * Q)) j r : pts !! j = Some r -> item (map snd pts) j = r.2.
Proof.
  intros H. unfold item. apply nth_lookup_Some with (d := 0).
  now rewrite list_lookup_fmap, H.
Qed.

(** [np.interp] returns the weight of a row, or the value at the sample of
    the line through two rows that have the sample between them. *)
Lemma np_interp_interpolates z pts : pts <> [] -> interpolates pts z (np_interp z pts).
Proof.
  intros Hne. unfold interpolates, np_interp.
  assert (Hlen : (1 <= length pts)%nat) by (destruct pts; [congruence|simpl; lia]).
  assert (Hrow : forall j, (j < length pts)%nat -> exists r, pts !! j = Some r /\ r ∈ pts).
  { intros j Hj. destruct (lookup_lt_is_Some_2 pts j Hj) as [r Hr].
    exists r. split; [exact Hr|]. eapply list_elem_of_lookup_2, Hr. }
  destruct (length pts =? 0)%nat eqn:E0; [apply Nat.eqb_eq in E0; lia|].
  destruct (Hrow 0%nat ltac:(lia)) as (rf & Hf & Hfin).
  destruct (Hrow (length pts - 1)%nat ltac:(lia)) as (rl & Hl & Hlin).
  rewrite (item_snd _ _ _ Hf), (item_snd _ _ _ Hl).
  destruct (length pts =? 1)%nat.
  { left. repeat destruct (Qlt_bool _ _); eauto. }
  pose proof (binary_search_with_guess_spec z (map fst pts) 0) as Hs.
  rewrite length_map in Hs.
  destruct (binary_search_with_guess z (map fst pts) 0) as [| |j]; [eauto|eauto|].
  destruct Hs as (Hj & Hjz & Hj1); [destruct pts; [congruence|discriminate]|].
  destruct (Hrow j Hj) as (r0 & Hr0 & Hr0in).
  rewrite (item_snd _ _ _ Hr0), (item_fst _ _ _ Hr0) in *.
  destruct (j =? length pts - 1)%nat eqn:Ej; [eauto|].
  apply Nat.eqb_neq in Ej.
  destruct (Qeq_bool r0.1 z) eqn:Eq; [eauto|].
  destruct (Hrow (j + 1)%nat ltac:(lia)) as (r1 & Hr1 & Hr1in).
  rewrite (item_snd _ _ _ Hr1), (item_fst _ _ _ Hr1) in *.
  right. exists j, r0, r1. rewrite Nat.add_1_r in Hr1.
  split_and!; try assumption; [|apply Hj1; lia|reflexivity].
  apply Qeq_bool_neq in Eq. lra.
Qed.

Lemma np_interp_cases z pts :
  pts <> [] ->
  (exists r, r ∈ pts /\ np_interp z pts = r.2) \/
  (exists r0 r1, r0 ∈ pts /\ r1 ∈ pts /\ r0.1 < z /\ z < r1.1 /\
     np_interp z pts = (r1.2 - r0.2) / (r1.1 - r0.1) * (z - r0.1) + r0.2).
Proof.
  intros Hne.
  destruct (np_interp_interpolates z pts Hne) as [H|(j & r0 & r1 & H0 & H1 & H)]; [now left|].
  right. exists r0, r1.
  split; [eapply list_elem_of_lookup_2, H0|]. split; [eapply list_elem_of_lookup_2, H1|].
  exact H.
Qed.

Lemma nudge_from_values dt prev rows : map snd (nudge_from dt prev rows) = map snd rows.
Proof.
  revert prev; induction rows as [|[x y] rows IH]; intros prev; simpl; [reflexivity|].
  now rewrite IH.
Qed.

Lemma nudge_duplicates_values dt rows : map snd (nudge_duplicates dt rows) = map snd rows.
Proof. destruct rows as [|[x y] rows]; simpl; [reflexivity|]. now rewrite nudge_from_values. Qed.

(** A float64 array has the duplicated breakpoint moved by 0.000001. *)
Lemma nudged_float64 x : nudged float64 x == x + epsilon.
Proof. apply Qred_correct. Qed.

(** An int64 array keeps a duplicated breakpoint that is not negative: the
    whole table is left as it is. *)
Lemma nudged_int64 (z : Z) : (0 <= z)%Z -> nudged int64 (inject_Z z) = inject_Z z.
Proof.
  intros Hz. unfold nudged, truncate, epsilon, inject_Z. cbn [Qplus Qnum Qden].
  f_equal. rewrite Z.quot_div_nonneg by lia.
  symmetry. apply (Z.div_unique _ _ _ 1); lia.
Qed.

Lemma nudge_from_int64 (rows : list (Z * Z)) : forall prev,
  Forall (fun r : Z * Z => (0 <= r.1)%Z) rows ->
  nudge_from int64 prev (np_array_of (Int_profile rows)).1 = (np_array_of (Int_profile rows)).1.
Proof.
  induction rows as [|[x y] rows IH]; intros prev H; [reflexivity|].
  inversion H as [|? ? Hx Hrows]; subst.
  cbn [np_array_of fst snd map nudge_from] in *.
  rewrite (nudged_int64 x Hx). destruct (Qeq_bool _ _); now rewrite IH.
Qed.

Lemma nudge_duplicates_int64 (rows : list (Z * Z)) :
  Forall (fun r : Z * Z => (0 <= r.1)%Z) rows ->
  nudge_duplicates int64 (np_array_of (Int_profile rows)).1 = (np_array_of (Int_profile rows)).1.
Proof.
  destruct rows as [|[x y] rows]; intros H; [reflexivity|].
  inversion H; subst. cbn [np_array_of fst snd map nudge_duplicates]. f_equal.
  now apply (nudge_from_int64 rows).
Qed.







(** ** The method monad *)

Ltac mred :=
  cbv beta iota zeta delta [mbind mret M_bind M_ret get modify raise when].

Lemma bind_ok {A B} (m : M A) (f : A -> M B) p a p1 :
  m p = (Ok a, p1) -> (m ≫= f) p = f a p1.
Proof. intros H. mred. now rewrite H. Qed.

Lemma bind_raise {A B} (m : M A) (f : A -> M B) p e p1 :
  m p = (Raise e, p1) -> (m ≫= f) p = (Raise e, p1).
Proof. intros H. mred. now rewrite H. Qed.

Lemma index_equals_refl l : index_equals l l = true.
Proof. induction l as [|x l IH]; simpl; [reflexivity|]. now rewrite Qeq_bool_refl. Qed.

Lemma index_u0_series nm g idx : index (u0_series nm g idx) = idx.
Proof.
  unfold index, u0_series; simpl. rewrite map_map. simpl. apply map_id.
Qed.

(** ** Total stress (C2, C9) *)

(** The values the test suite expects, [test_initialize_stress_2]: a
    constant unit weight of 16 over samples 0.05 apart. *)
Example total_stress_test_2 :
  total_stress_values int64 (5#100) [10#100; 15#100; 20#100] 0 16 [(9999, 16)]
  = map Qred [8#10; 16#10; 24#10; 32#10].
Proof. vm_compute. reflexivity. Qed.

(** [test_initialize_stress_5]: a step in the profile at depth 0.2. *)
Example total_stress_test_5 :
  total_stress_values float64 (5#100) [10#100; 15#100; 20#100; 25#100; 30#100]
                      0 14 [(2#10, 14); (2#10, 15); (5#10, 15)]
  = map Qred [7#10; 14#10; 21#10; 28#10; 355#100; 43#10].
Proof. vm_compute. reflexivity. Qed.

Lemma calculate_total_stress_ok p x0 w0 uw d0 ds :
  _unit_weight p = Some ((x0, w0) :: uw) ->
  depth_samples p = d0 :: ds ->
  _calculate_total_stress p =
  (Ok tt, with_series
            (<["_total_stress" :=
               mkSeries (combine (d0 :: ds)
                                 (map Some (total_stress_values (_unit_weight_dtype p)
                                              d0 ds x0 w0 uw)))
                        "sv0"]> (series p)) p).
Proof.
  intros Huw Hds. unfold _calculate_total_stress, depth_samples in *. mred.
  rewrite Huw in *. destruct (first_raw_channel p) as [s|]; mred.
  - rewrite Hds. reflexivity.
  - rewrite Hds. reflexivity.
Qed.

Lemma values_combine_index (ds : list Q) (vs : list float) nm :
  length vs = length ds ->
  index (mkSeries (combine ds vs) nm) = ds /\ values (mkSeries (combine ds vs) nm) = vs.
Proof.
  unfold index, values; simpl. intros H. split.
  - revert vs H; induction ds as [|d ds IH]; intros [|v vs] H; simpl in *; try reflexivity; try discriminate.
    f_equal. apply IH. lia.
  - revert vs H; induction ds as [|d ds IH]; intros [|v vs] H; simpl in *; try reflexivity; try discriminate.
    f_equal. apply IH. lia.
Qed.


(** A step at depth 2 from 14 to 15, sampled at the depths 1, 2 and 3.
    Given as a table of Python ints the array is an int64 array, nothing
    moves, and the weight at the step depth is that of the layer below it:
    the total stress is 14, 29, 44.  Given with a float in it, the second
    breakpoint at 2 moves to 2.000001, the weight at the step depth is that
    of the layer above it, and the total stress is 14, 28, 43. *)
Example total_stress_at_a_step :
  total_stress_values int64 1 [2; 3] 0 14 [(2, 14); (2, 15); (5, 15)] = [14; 29; 44] /\
  total_stress_values float64 1 [2; 3] 0 14 [(2, 14); (2, 15); (5, 15)] = [14; 28; 43] /\
  unitweight int64 [(0, 14); (2, 14); (2, 15); (5, 15)] 2 = 15 /\
  unitweight float64 [(0, 14); (2, 14); (2, 15); (5, 15)] 2 = 14.
Proof. repeat split; vm_compute; reflexivity. Qed.





(** ** Pore pressure and effective stress (C8) *)

Lemma u0_series_pore_pressure nm g idx : pore_pressure g idx (u0_series nm g idx).
Proof.
  split; [apply index_u0_series|].
  unfold u0_series; simpl. apply Forall_forall. intros r Hr.
  apply list_elem_of_In, in_map_iff in Hr as [z [<- _]]. simpl.
  exists (Qred (u0_at g z)). split; [reflexivity|].
  rewrite Qred_correct. unfold u0_at, Qlt_bool, GLOBAL_unit_weight_of_water.
  destruct (Qle_bool g z) eqn:E; simpl.
  - apply Qle_bool_iff in E. split; [intros; lra|intros; reflexivity].
  - apply Qle_bool_false in E. split; [intros; reflexivity|intros; lra].
Qed.

Lemma series_binop_same_index f (t u : Series) :
  index u = index t ->
  items (series_binop f t u)
  = zip_with (fun a b : Q * float => (a.1, f a.2 b.2)) (items t) (items u).
Proof.
  intros Hi. unfold series_binop. rewrite Hi, index_equals_refl. simpl.
  unfold index in Hi. clear f0 || idtac.
  revert Hi. generalize (items u). induction (items t) as [|[l x] rows IH];
    intros [|[l' y] rows'] Hi; simpl in *; try reflexivity; try discriminate.
  f_equal. apply IH. congruence.
Qed.

(** C8: for every probe with a unit-weight profile, at least one
    groundwater level and a total stress series [t],
    [_calculate_effective_stress] stores for each defined groundwater level
    the pore pressure series over the depths of [t] (0 above the level,
    (z - gwl) * 10 at or below it) and stores as effective stress [t] minus
    the elevated pore pressure when an elevated level is defined, otherwise
    [t] minus the static one. *)
Theorem C8_effective_stress p uw t :
  _unit_weight p = Some uw ->
  series p !! "_total_stress" = Some t ->
  is_Some (_gwl p) \/ is_Some (_elevated_gwl p) ->
  exists p',
    _calculate_effective_stress p = (Ok tt, p') /\
    (forall g, _gwl p = Some g ->
       exists u, series p' !! "_static_u0" = Some u /\ pore_pressure g (index t) u) /\
    (forall g, _elevated_gwl p = Some g ->
       exists u, series p' !! "_elevated_u0" = Some u /\ pore_pressure g (index t) u) /\
    exists e u,
      series p' !! "_effective_stress" = Some e /\
      series p' !! (if bool_decide (is_Some (_elevated_gwl p))
                    then "_elevated_u0" else "_static_u0") = Some u /\
      series_difference t u e.
Proof.
  intros Huw Ht Hg.
  unfold _calculate_effective_stress. mred. rewrite Huw.
  destruct (_gwl p) as [g|] eqn:Eg, (_elevated_gwl p) as [ge|] eqn:Ee;
    unfold attr, setattr; mred; rewrite ?Ht; cbn [series with_series];
    try (destruct Hg as [[? ?]|[? ?]]; discriminate).
  - eexists. split; [reflexivity|]. cbn [series with_series]. repeat split.
    + intros ? [= <-]. eexists. split; [|apply u0_series_pore_pressure].
      rewrite lookup_insert_ne by done. apply lookup_insert_eq.
    + intros ? [= <-]. eexists. split; [|apply u0_series_pore_pressure].
      rewrite !lookup_insert_ne by done. apply lookup_insert_eq.
    + eexists _, _. split; [apply lookup_insert_eq|]. split.
      * rewrite !lookup_insert_ne by done. apply lookup_insert_eq.
      * unfold series_difference. cbn [rename items].
        apply series_binop_same_index, index_u0_series.
  - eexists. split; [reflexivity|]. cbn [series with_series]. repeat split.
    + intros ? [= <-]. eexists. split; [|apply u0_series_pore_pressure].
      rewrite lookup_insert_ne by done. apply lookup_insert_eq.
    + intros ? [=].
    + eexists _, _. split; [apply lookup_insert_eq|]. split.
      * rewrite !lookup_insert_ne by done. apply lookup_insert_eq.
      * unfold series_difference. cbn [rename items].
        apply series_binop_same_index, index_u0_series.
  - eexists. split; [reflexivity|]. cbn [series with_series]. repeat split.
    + intros ? [=].
    + intros ? [= <-]. eexists. split; [|apply u0_series_pore_pressure].
      rewrite lookup_insert_ne by done. apply lookup_insert_eq.
    + eexists _, _. split; [apply lookup_insert_eq|]. split.
      * rewrite !lookup_insert_ne by done. apply lookup_insert_eq.
      * unfold series_difference. cbn [rename items].
        apply series_binop_same_index, index_u0_series.
Qed.

Lemma C8_effective_stress_witness :
  exists p',
    _calculate_effective_stress probe_C8 = (Ok tt, p') /\
    (forall g, _gwl probe_C8 = Some g ->
       exists u, series p' !! "_static_u0" = Some u /\ pore_pressure g [10; 20] u) /\
    (forall g, _elevated_gwl probe_C8 = Some g ->
       exists u, series p' !! "_elevated_u0" = Some u /\ pore_pressure g [10; 20] u) /\
    exists e u,
      series p' !! "_effective_stress" = Some e /\
      series p' !! "_static_u0" = Some u /\
      series_difference total_stress_C8 u e.
Proof.
  apply (C8_effective_stress probe_C8 [(0, 16); (9999, 16)] total_stress_C8).
  - vm_compute; reflexivity.
  - vm_compute; reflexivity.
  - left. vm_compute. eexists; reflexivity.
Defined.

(** ** Frame conditions

    [preserves R m]: whatever [m] does, and whether it returns or raises,
    the probe it leaves is related by [R] to the probe it started from. *)

Section Preserves.

Variable R : CPT -> CPT -> Prop.
Hypothesis R_refl : forall p, R p p.
Hypothesis R_trans : forall p q r, R p q -> R q r -> R p r.

Lemma preserves_ret {A} (a : A) : preserves R (mret a).
Proof. intros p r p' [= <- <-]. apply R_refl. Qed.

Lemma preserves_raise {A} e : preserves R (raise (A := A) e).
Proof. intros p r p' [= <- <-]. apply R_refl. Qed.

Lemma preserves_get : preserves R get.
Proof. intros p r p' [= <- <-]. apply R_refl. Qed.

Lemma preserves_attr name : preserves R (attr name).
Proof.
  intros p r p'. unfold attr. destruct (series p !! name); intros [= <- <-]; apply R_refl.
Qed.

Lemma preserves_bind {A B} (m : M A) (f : A -> M B) :
  preserves R m -> (forall a, preserves R (f a)) -> preserves R (m ≫= f).
Proof.
  intros Hm Hf p r p'. mred. destruct (m p) as [[a|e] p1] eqn:E.
  - intros H. eapply R_trans; [eapply Hm, E|eapply Hf, H].
  - intros [= <- <-]. eapply Hm, E.
Qed.

Lemma preserves_when b (m : M unit) : preserves R m -> preserves R (when b m).
Proof. destruct b; [trivial|intros _; apply preserves_ret]. Qed.

Lemma preserves_try_pass (m : M unit) : preserves R m -> preserves R (try_pass m).
Proof.
  intros Hm p r p'. unfold try_pass. destruct (m p) as [r1 p1] eqn:E.
  intros [= <- <-]. eapply Hm, E.
Qed.

Lemma preserves_modify f : (forall p, R p (f p)) -> preserves R (modify f).
Proof. intros Hf p r p' [= <- <-]. apply Hf. Qed.

End Preserves.

Lemma agree_on_refl keep p : agree_on keep p p.
Proof. split; reflexivity. Qed.

Lemma agree_on_trans keep p q r : agree_on keep p q -> agree_on keep q r -> agree_on keep p r.
Proof.
  intros [] []. split; try congruence.
  intros k Hk. rewrite agree_series1, agree_series0 by exact Hk. reflexivity.
Qed.

Ltac pres_step_with by_refl by_trans :=
  match goal with
  | H : preserves ?R ?m |- preserves ?R ?m => exact H
  | |- preserves _ (mret _) => apply preserves_ret; by_refl
  | |- preserves _ (raise _) => apply preserves_raise; by_refl
  | |- preserves _ get => apply preserves_get; by_refl
  | |- preserves _ (attr _) => apply preserves_attr; by_refl
  | |- preserves _ (when _ _) => apply preserves_when; [by_refl|]
  | |- preserves _ (try_pass _) => apply preserves_try_pass
  | |- preserves _ (_ ≫= _) => apply preserves_bind; [by_trans| |intros ?]
  | |- preserves _ (match ?x with _ => _ end) => destruct x
  end.

Ltac pres_step :=
  pres_step_with ltac:(apply agree_on_refl) ltac:(apply agree_on_trans).

Section Frame.

Context {ext : External}.

(** [keep] names none of the cached derived quantities. *)
Variable keep : string -> Prop.
Hypothesis keep_inputs : forall k, keep k -> k ∉ derived_slots.

Lemma preserves_setattr name s :
  name ∈ derived_slots -> preserves (agree_on keep) (setattr name s).
Proof.
  intros Hn. apply preserves_modify. intros p. split; try reflexivity.
  intros k Hk. simpl. apply lookup_insert_ne. intros ->. now apply (keep_inputs _ Hk).
Qed.

Lemma preserves_classification m c g :
  preserves (agree_on keep) (modify (with_classification m c g)).
Proof. apply preserves_modify. intros p. split; reflexivity. Qed.

Ltac slot := unfold derived_slots; set_solver.
Ltac pres :=
  repeat first [ pres_step
               | apply preserves_setattr; slot
               | apply preserves_classification
               | solve [auto] ].

Lemma preserves_calculate_total_stress : preserves (agree_on keep) _calculate_total_stress.
Proof.
  unfold _calculate_total_stress. pres.
  all: apply preserves_modify; intros ?; split; try reflexivity;
    intros k Hk; simpl; apply lookup_insert_ne; intros <-;
    apply (keep_inputs _ Hk); slot.
Qed.

Lemma preserves_calculate_effective_stress :
  preserves (agree_on keep) _calculate_effective_stress.
Proof. unfold _calculate_effective_stress. pres. Qed.

Lemma preserves_qc : preserves (agree_on keep) qc.
Proof. unfold qc. pres. Qed.
Lemma preserves_fs : preserves (agree_on keep) fs.
Proof. unfold fs. pres. Qed.
Lemma preserves_u2 : preserves (agree_on keep) u2.
Proof. unfold u2. pres. Qed.
Lemma preserves_area_ratio : preserves (agree_on keep) area_ratio.
Proof. unfold area_ratio. pres. Qed.
Lemma preserves_qt : preserves (agree_on keep) qt.
Proof.
  pose proof preserves_qc. pose proof preserves_u2. pose proof preserves_area_ratio.
  unfold qt. pres.
Qed.

Lemma preserves_qt_or_qc : preserves (agree_on keep) qt_or_qc.
Proof. pose proof preserves_qc. pose proof preserves_qt. unfold qt_or_qc. pres. Qed.

Lemma preserves_Rf : preserves (agree_on keep) Rf.
Proof. pose proof preserves_qt. unfold Rf. pres. Qed.

Section Getters.

Variable calc : M unit.
Hypothesis preserves_calc : preserves (agree_on keep) calc.

Lemma preserves_total_stress : preserves (agree_on keep) (total_stress calc).
Proof. unfold total_stress. pres. Qed.
Lemma preserves_effective_stress : preserves (agree_on keep) (effective_stress calc).
Proof. unfold effective_stress. pres. Qed.
Lemma preserves_static_u0 : preserves (agree_on keep) (static_u0 calc).
Proof. unfold static_u0. pres. Qed.
Lemma preserves_elevated_u0 : preserves (agree_on keep) (elevated_u0 calc).
Proof. unfold elevated_u0. pres. Qed.

Lemma preserves_Qt : preserves (agree_on keep) (Qt calc).
Proof.
  pose proof preserves_qt_or_qc. pose proof preserves_total_stress.
  pose proof preserves_effective_stress. unfold Qt. pres.
Qed.

Lemma preserves_Fr : preserves (agree_on keep) (Fr calc).
Proof.
  pose proof preserves_qt_or_qc. pose proof preserves_total_stress.
  pose proof preserves_fs. unfold Fr. pres.
Qed.

Lemma preserves_Bq : preserves (agree_on keep) (Bq calc).
Proof.
  pose proof preserves_qt_or_qc. pose proof preserves_total_stress.
  pose proof preserves_u2. pose proof preserves_static_u0. pose proof preserves_elevated_u0.
  pose proof preserves_calculate_effective_stress.
  unfold Bq. pres.
Qed.

Lemma preserves_Ic : preserves (agree_on keep) (Ic calc).
Proof. pose proof preserves_Qt. pose proof preserves_Fr. unfold Ic. pres. Qed.

Lemma preserves_getattribute param : preserves (agree_on keep) (getattribute calc param).
Proof.
  pose proof preserves_qc. pose proof preserves_fs. pose proof preserves_u2.
  pose proof preserves_qt. pose proof preserves_Rf. pose proof preserves_Qt.
  pose proof preserves_Fr. pose proof preserves_Bq. pose proof preserves_Ic.
  pose proof preserves_total_stress. pose proof preserves_effective_stress.
  pose proof preserves_static_u0. pose proof preserves_elevated_u0.
  unfold getattribute. pres.
Qed.

Lemma preserves_compare_data method m : preserves (agree_on keep) (compare_data calc method m).
Proof.
  pose proof preserves_fs. pose proof preserves_u2. pose proof preserves_qt.
  pose proof preserves_getattribute.
  unfold compare_data. pres.
Qed.

Lemma preserves_calculate_soil_classification method :
  preserves (agree_on keep) (calculate_soil_classification calc method).
Proof.
  pose proof preserves_compare_data. pose proof preserves_qc.
  unfold calculate_soil_classification. pres.
Qed.

Lemma preserves_classify_soil method : preserves (agree_on keep) (classify_soil calc method).
Proof.
  pose proof preserves_calculate_soil_classification.
  unfold classify_soil. pres.
Qed.

End Getters.

Lemma preserves_calculate_stress_at depth :
  preserves (agree_on keep) (_calculate_stress_at depth).
Proof.
  induction depth as [|depth IH]; simpl; [apply preserves_raise, agree_on_refl|].
  pose proof preserves_calculate_total_stress.
  pose proof preserves_calculate_effective_stress.
  pose proof (preserves_classify_soil _ IH).
  pres.
Qed.

Lemma preserves_calculate_stress : preserves (agree_on keep) _calculate_stress.
Proof. apply preserves_calculate_stress_at. Qed.

End Frame.

(** ** Bq without a pore-pressure channel (C5) *)

Lemma raw_channel_not_derived k : raw_channel k -> k ∉ derived_slots.
Proof.
  unfold raw_channel, derived_slots. intros H1 H2.
  apply list_elem_of_In in H1, H2. simpl in *. intuition (subst; discriminate).
Qed.

(** Reading [Bq] on a probe without [u2] and without a cached [Bq] never
    returns: it raises before or, at the latest, when it reads [self.u2]. *)
Lemma Bq_without_u2_raises `{ext : External} p :
  series p !! "_u2" = None -> series p !! "_Bq" = None ->
  exists e p', Bq _calculate_stress p = (Raise e, p').
Proof.
  intros Hu2 HBq.
  pose proof (preserves_calculate_stress raw_channel raw_channel_not_derived) as Hcalc.
  assert (Hu : forall {A} (m : M A) q r q',
             preserves (agree_on raw_channel) m -> series q !! "_u2" = None ->
             m q = (r, q') -> series q' !! "_u2" = None).
  { intros A m q r q' Hm Hq E. apply Hm in E. destruct E as [_ _ _ _ _ _ Hs].
    rewrite Hs; [exact Hq|]. unfold raw_channel. apply list_elem_of_In. simpl. tauto. }
  unfold Bq. mred. rewrite HBq. mred.
  destruct (negb (hasattr "_qc" p)); [eauto|].
  destruct (negb (bool_decide (is_Some (_unit_weight p)))); [eauto|].
  destruct (negb (bool_decide (is_Some (_gwl p)))
            && negb (bool_decide (is_Some (_elevated_gwl p)))); [eauto|].
  cbv beta.
  destruct (qt_or_qc p) as [[s_qt|e] p1] eqn:E1; [|eauto].
  apply Hu in E1; [|apply preserves_qt_or_qc; exact raw_channel_not_derived|exact Hu2].
  destruct (total_stress _calculate_stress p1) as [[s_ts|e] p2] eqn:E2; [|eauto].
  apply Hu in E2; [|apply preserves_total_stress; auto using raw_channel_not_derived|exact E1].
  assert (H3 : forall r p3,
             (if negb (hasattr "_elevated_u0" p2) && negb (hasattr "_static_u0" p2)
              then _calculate_effective_stress else fun q => (Ok tt, q)) p2 = (r, p3) ->
             series p3 !! "_u2" = None).
  { intros r p3. destruct (negb (hasattr "_elevated_u0" p2) && negb (hasattr "_static_u0" p2)).
    - intros E3. apply Hu in E3;
        [exact E3|apply preserves_calculate_effective_stress; exact raw_channel_not_derived|exact E2].
    - intros [= <- <-]. exact E2. }
  match goal with
  | |- context [let (_, _) := ?m p2 in _] => destruct (m p2) as [[[]|e] p3] eqn:E3; [|eauto]
  end.
  specialize (H3 _ _ eq_refl). unfold u2 at 1. mred. rewrite H3. eauto.
Qed.

(** C5, at a probe with qc, fs, a unit weight and a static groundwater level
    but no u2: reading [Bq] raises the missing-u2 error instead of returning
    the all-undefined series. *)
Theorem C5_Bq_without_u2 :
  hasattr "_qc" probe_C5 = true /\ hasattr "_u2" probe_C5 = false /\
  _unit_weight probe_C5 = Some [(0, 16); (9999, 16)] /\ _gwl probe_C5 = Some 0 /\
  (Bq (_calculate_stress (ext := sample_ext)) probe_C5).1
  = Raise (AttributeError "Pore pressure, u2, of CPT-1 is not yet defined.").
Proof. repeat split; vm_compute; reflexivity. Qed.

(** ** Failed groundwater assignment (C6) and stale pore pressure (C4) *)

Lemma set_gwl_without_unit_weight `{ext : External} p value :
  _unit_weight p = None ->
  exists e, set_gwl value p = (Raise e, with_gwl (Some value) p).
Proof.
  intros Huw. unfold set_gwl, _calculate_effective_stress. mred.
  cbn [with_gwl _unit_weight pointID]. rewrite Huw. eauto.
Qed.

(** C6, at a fresh probe: assigning the static groundwater level raises (no
    unit weight to recompute the effective stress with) and the probe is not
    what it was, the level stays assigned. *)
Theorem C6_failed_gwl_assignment_is_kept :
  exists e p',
    run (ext := sample_ext) (Set_static_gwl 1) (new_CPT "CPT-1") = (Raise e, p') /\
    _gwl (new_CPT "CPT-1") = None /\ _gwl p' = Some 1 /\ p' <> new_CPT "CPT-1".
Proof.
  eexists _, _. split; [vm_compute; reflexivity|].
  repeat split; try reflexivity. discriminate.
Qed.

(** The same on a probe that has every prerequisite: after a unit weight and
    then the raw data, no total stress is cached and the assignment raises on
    the missing attribute, again keeping the level. *)
Lemma failed_gwl_assignment_after_raw_data :
  let p := after [Set_unit_weight (Constant 16); Set_raw_data
                    [(1, [num 2; num 30]); (2, [num 3; num 40])]] (new_CPT "CPT-1") in
  exists p',
    run (ext := sample_ext) (Set_static_gwl 1) p
    = (Raise (no_attribute "_total_stress"), p') /\
    _gwl p = None /\ _gwl p' = Some 1.
Proof. eexists. split; [vm_compute; reflexivity|]. split; reflexivity. Qed.

(** C4, at a probe with u2: a bulk assignment of three-column data at other
    depths succeeds and leaves the old u2 in place, on depths that qc and fs
    no longer have. *)
Theorem C4_stale_u2_after_three_columns :
  let p := after [Set_raw_data raw4_shallow] (new_CPT "CPT-1") in
  channels_aligned p /\
  exists p' s_qc s_u2,
    run (ext := sample_ext) (Set_raw_data raw3_deep) p = (Ok tt, p') /\
    series p' !! "_qc" = Some s_qc /\ index s_qc = [3; 4] /\
    series p' !! "_u2" = Some s_u2 /\ index s_u2 = [1; 2] /\
    series p' !! "_u2" = series p !! "_u2" /\
    ~ channels_aligned p'.
Proof.
  split.
  - intros a b sa sb Ha Hb.
    apply list_elem_of_In in Ha, Hb. simpl in Ha, Hb.
    destruct Ha as [<-|[<-|[<-|[]]]], Hb as [<-|[<-|[<-|[]]]];
      vm_compute; intros [= <-] [= <-]; reflexivity.
  - eexists _, (column 1 "qc" raw3_deep), (column 3 "u2" raw4_shallow).
    split; [vm_compute; reflexivity|].
    repeat split; try (vm_compute; reflexivity).
    intros H.
    assert (Hq : raw_channel "_qc") by (apply list_elem_of_In; simpl; tauto).
    assert (Hu : raw_channel "_u2") by (apply list_elem_of_In; simpl; tauto).
    assert (E : same_labels (index (column 1 "qc" raw3_deep))
                            (index (column 3 "u2" raw4_shallow)) = true).
    { apply (H "_qc" "_u2"); try assumption; vm_compute; reflexivity. }
    vm_compute in E. discriminate.
Qed.

(** ** The combined zone of "Robertson et al 1986" (C3) *)

Section CombinedZone.

Context {ext : External}.

Variable names : gmap string (string * string).

Lemma classify_graph_app method lx ly data st zs1 zs2 :
  classify_graph method names lx ly data st (zs1 ++ zs2)
  = match classify_graph method names lx ly data st zs1 with
    | Ok st1 => classify_graph method names lx ly data st1 zs2
    | Raise e => Raise e
    end.
Proof.
  revert st; induction zs1 as [|z zs1 IH]; intros st; simpl; [reflexivity|].
  destruct (classify_zone method names lx ly data st z); [apply IH|reflexivity].
Qed.

Lemma lookup_combine_Some {A B} (l : list A) (k : list B) i x y :
  l !! i = Some x -> k !! i = Some y -> combine l k !! i = Some (x, y).
Proof.
  revert k i; induction l as [|a l IH]; intros [|b k] [|i]; simpl; try discriminate.
  - intros [= <-] [= <-]. reflexivity.
  - apply IH.
Qed.

Lemma depths_of_candidates (f : ZoneRow * (float * float) -> ZoneRow)
    (rows : list ZoneRow) (data : list (float * float)) :
  length data = length rows ->
  (forall c, zr_depth (f c) = zr_depth c.1) ->
  map zr_depth (map f (combine rows data)) = map zr_depth rows.
Proof.
  intros Hlen Hf. revert data Hlen.
  induction rows as [|r rows IH]; intros [|xy data] Hlen; simpl in *;
    try reflexivity; try discriminate.
  rewrite Hf. simpl. f_equal. apply IH. lia.
Qed.

(** A zone other than the deferred one leaves the deferred labels alone and
    keeps every row at its depth. *)
Lemma classify_zone_regular method lx ly data st z st' :
  length data = length st.1 ->
  (String.eqb method Robertson_1986 && String.eqb (zone_no z) combined_zone) = false ->
  classify_zone method names lx ly data st z = Ok st' ->
  st'.2 = st.2 /\ map zr_depth st'.1 = map zr_depth st.1.
Proof.
  intros Hlen Hz. unfold classify_zone. rewrite Hz.
  destruct (bounds (zone_boundary z)) as [v|]; [|intros [= <-]; auto].
  destruct (negb _); [intros [= <-]; auto|].
  destruct (names !! zone_no z) as [[d u]|]; [|discriminate].
  intros [= <-]. simpl. split; [reflexivity|].
  apply depths_of_candidates; [exact Hlen|].
  intros c. destruct (in_bounds v c.1 c.2); [destruct (in_polygon lx ly z c.2)|]; reflexivity.
Qed.

Lemma classify_graph_regular method lx ly data zs : forall st st',
  length data = length st.1 ->
  Forall (fun z => zone_no z <> combined_zone) zs ->
  classify_graph method names lx ly data st zs = Ok st' ->
  st'.2 = st.2 /\ map zr_depth st'.1 = map zr_depth st.1.
Proof.
  induction zs as [|z zs IH]; intros st st' Hlen Hzs; simpl; [intros [= <-]; auto|].
  inversion Hzs as [|? ? Hz Hrest]; subst.
  destruct (classify_zone method names lx ly data st z) as [st1|e] eqn:E; [|discriminate].
  intros H.
  destruct (classify_zone_regular method lx ly data st z st1 Hlen) as [H2 Hd]; [|exact E|].
  { apply andb_false_iff. right. apply String.eqb_neq. exact Hz. }
  destruct (IH st1 st') as [H2' Hd']; try assumption.
  { rewrite <- (length_map zr_depth st1.1), Hd, length_map. exact Hlen. }
  split; congruence.
Qed.

(** The deferred zone assigns nothing, and remembers the label of every row
    its polygon test places in it. *)
Lemma classify_zone_deferred lx ly data st z st' :
  zone_no z = combined_zone ->
  classify_zone Robertson_1986 names lx ly data st z = Ok st' ->
  st'.1 = st.1 /\
  forall v i r xy,
    bounds (zone_boundary z) = Some v ->
    st.1 !! i = Some r -> data !! i = Some xy ->
    placed v lx ly z (r, xy) = true ->
    exists recalc_segment,
      st'.2 = Some recalc_segment /\ label_in (zr_depth r) recalc_segment = true.
Proof.
  intros Hz. unfold classify_zone. rewrite Hz. simpl String.eqb. simpl andb.
  destruct (bounds (zone_boundary z)) as [v|] eqn:Ev.
  2:{ intros [= <-]. split; [reflexivity|]. intros; discriminate. }
  destruct (existsb _ _) eqn:Eany; simpl negb; cbv iota.
  - intros [= <-]. simpl. split; [reflexivity|].
    intros v' i r xy [= <-] Hr Hxy Hp.
    eexists. split; [reflexivity|]. unfold label_in.
    apply existsb_exists. exists (zr_depth r). split; [|apply Qeq_bool_refl].
    apply (in_map (fun c : ZoneRow * (float * float) => zr_depth c.1) _ (r, xy)).
    apply filter_In. split; [|exact Hp].
    apply list_elem_of_In, list_elem_of_lookup. exists i.
    now apply lookup_combine_Some.
  - intros [= <-]. split; [reflexivity|].
    intros v' i r xy [= <-] Hr Hxy Hp. exfalso.
    assert (Hin : In (r, xy) (combine st.1 data)).
    { apply list_elem_of_In, list_elem_of_lookup. exists i.
      now apply lookup_combine_Some. }
    assert (Ht : existsb (fun c : ZoneRow * (float * float) => in_bounds v c.1 c.2)
                         (combine st.1 data) = true).
    { apply existsb_exists. exists (r, xy). split; [exact Hin|].
      unfold placed in Hp. apply andb_true_iff in Hp. tauto. }
    congruence.
Qed.

Lemma finalize_row_deferred recalc_segment r :
  label_in (zr_depth r) recalc_segment = true ->
  zr_number (finalize_row recalc_segment r)
  = if is_concrete_zone (zr_number r) then zr_number r else Some combined_zone.
Proof. intros H. unfold finalize_row. rewrite H. reflexivity. Qed.

End CombinedZone.

Section CombinedZoneTheorem.

Context {ext : External}.

Lemma index_equals_length a : forall b, index_equals a b = true -> length a = length b.
Proof.
  induction a as [|x a IH]; intros [|y b]; simpl; try discriminate; [reflexivity|].
  intros H. apply andb_true_iff in H as [_ H]. f_equal. now apply IH.
Qed.

Lemma length_reindex idx s : length (reindex idx s) = length idx.
Proof.
  unfold reindex. destruct (index_equals idx (index s)) eqn:E.
  - apply index_equals_length in E. unfold values, index in *. rewrite length_map in *. lia.
  - apply length_map.
Qed.

Lemma length_graph_points idx g : length (graph_points idx g) = length idx.
Proof.
  unfold graph_points. rewrite length_combine, !length_reindex. lia.
Qed.

Lemma classify_zone_depths names method lx ly data st z st' :
  length data = length st.1 ->
  classify_zone method names lx ly data st z = Ok st' ->
  map zr_depth st'.1 = map zr_depth st.1.
Proof.
  intros Hlen H.
  destruct (String.eqb method Robertson_1986 && String.eqb (zone_no z) combined_zone) eqn:E.
  - revert H. unfold classify_zone. rewrite E.
    destruct (bounds (zone_boundary z)); [|intros [= <-]; reflexivity].
    destruct (negb _); intros [= <-]; reflexivity.
  - now apply (classify_zone_regular names method lx ly data st z st' Hlen E).
Qed.

Lemma classify_graph_depths names method lx ly data zs : forall st st',
  length data = length st.1 ->
  classify_graph method names lx ly data st zs = Ok st' ->
  map zr_depth st'.1 = map zr_depth st.1.
Proof.
  induction zs as [|z zs IH]; intros st st' Hlen; simpl; [intros [= <-]; reflexivity|].
  destruct (classify_zone method names lx ly data st z) as [st1|e] eqn:E; [|discriminate].
  intros H. pose proof (classify_zone_depths _ _ _ _ _ _ _ _ Hlen E) as Hd.
  rewrite (IH st1 st'); [exact Hd| |exact H].
  rewrite <- (length_map zr_depth st1.1), Hd, length_map. exact Hlen.
Qed.

Lemma same_depths_length (a b : list ZoneRow) :
  map zr_depth a = map zr_depth b -> length a = length b.
Proof. intros H. rewrite <- (length_map zr_depth a), H. apply length_map. Qed.

Lemma same_depths_lookup (a b : list ZoneRow) i r :
  map zr_depth a = map zr_depth b -> b !! i = Some r ->
  exists r', a !! i = Some r' /\ zr_depth r' = zr_depth r.
Proof.
  intros H Hr.
  assert (Hd : map zr_depth b !! i = Some (zr_depth r)) by (rewrite list_lookup_fmap, Hr; reflexivity).
  rewrite <- H, list_lookup_fmap in Hd.
  destruct (a !! i) as [r'|]; [|discriminate]. injection Hd as Hd. eauto.
Qed.

(** C3: classifying with "Robertson et al 1986", whose first graph has the
    combined zone "9,10,11,12" (and only the first graph has it): the
    combined zone assigns no row; and every sample that its polygon test
    places in it, unassigned until then, ends with the concrete zone 9, 10,
    11 or 12 that the remaining zones (the second graph) gave it, if they
    gave it one, and with zone number "9,10,11,12" otherwise. *)
Theorem C3_combined_zone_deferred m idx g1 g2 before zc after final :
  zone_definitions_1 m = before ++ zc :: after ->
  zone_no zc = combined_zone ->
  Forall (fun z => zone_no z <> combined_zone) (after ++ zone_definitions_2 m) ->
  classify_rows Robertson_1986 m idx g1 (Some g2) = Ok final ->
  let names := dict_of_rows (zone_names m) in
  let lx := is_x1_on_log_scale m in
  let ly := is_y1_on_log_scale m in
  let data1 := graph_points idx g1 in
  let unassigned : frame := (map (fun d => mkZoneRow d None None None) idx, None) in
  exists st_b st_c st_1 st_2,
    classify_graph Robertson_1986 names lx ly data1 unassigned before = Ok st_b /\
    classify_zone Robertson_1986 names lx ly data1 st_b zc = Ok st_c /\
    st_c.1 = st_b.1 /\
    classify_graph Robertson_1986 names lx ly data1 st_c after = Ok st_1 /\
    classify_graph Robertson_1986 names (is_x2_on_log_scale m) (is_y2_on_log_scale m)
                   (graph_points idx g2) st_1 (zone_definitions_2 m) = Ok st_2 /\
    forall v i r xy,
      bounds (zone_boundary zc) = Some v ->
      st_b.1 !! i = Some r -> data1 !! i = Some xy ->
      placed v lx ly zc (r, xy) = true ->
      zr_number r = None /\
      exists r2 rf,
        st_2.1 !! i = Some r2 /\ final !! i = Some rf /\
        zr_number rf = if is_concrete_zone (zr_number r2) then zr_number r2
                       else Some combined_zone.
Proof.
  intros Hzones Hzc Hrest Hrun names lx ly data1 unassigned.
  apply Forall_app in Hrest as [Hafter Hsecond].
  unfold classify_rows in Hrun. rewrite Hzones, classify_graph_app in Hrun.
  fold names lx ly data1 unassigned in Hrun.
  destruct (classify_graph Robertson_1986 names lx ly data1 unassigned before)
    as [st_b|] eqn:Eb; [|discriminate].
  simpl classify_graph in Hrun.
  destruct (classify_zone Robertson_1986 names lx ly data1 st_b zc)
    as [st_c|] eqn:Ec; [|discriminate].
  destruct (classify_graph Robertson_1986 names lx ly data1 st_c after)
    as [st_1|] eqn:E1; [|discriminate].
  destruct (classify_graph Robertson_1986 names _ _ (graph_points idx g2) st_1 _)
    as [st_2|] eqn:E2; [|discriminate].
  injection Hrun as <-.
  assert (L0 : length data1 = length unassigned.1).
  { unfold data1, unassigned. simpl. now rewrite length_graph_points, length_map. }
  pose proof (classify_graph_depths _ _ _ _ _ _ _ _ L0 Eb) as Db.
  assert (Lb : length data1 = length st_b.1).
  { rewrite (same_depths_length _ _ Db). exact L0. }
  destruct (classify_zone_deferred names lx ly data1 st_b zc st_c Hzc Ec) as [Hsame Hseg].
  assert (Lc : length data1 = length st_c.1) by (rewrite Hsame; exact Lb).
  destruct (classify_graph_regular names _ _ _ _ _ _ _ Lc Hafter E1) as [S1 D1].
  assert (L2 : length (graph_points idx g2) = length st_1.1).
  { rewrite length_graph_points, (same_depths_length _ _ D1), <- Lc.
    unfold data1. now rewrite length_graph_points. }
  destruct (classify_graph_regular names _ _ _ _ _ _ _ L2 Hsecond E2) as [S2 D2].
  exists st_b, st_c, st_1, st_2. repeat (split; [first [assumption|reflexivity]|]).
  intros v i r xy Hv Hr Hxy Hp. split.
  { unfold placed, in_bounds in Hp. destruct v as [[[? ?] ?] ?]. simpl in Hp.
    repeat (apply andb_true_iff in Hp as [Hp _]).
    now apply bool_decide_eq_true in Hp. }
  destruct (Hseg v i r xy Hv Hr Hxy Hp) as (seg & Hs & Hl).
  destruct (same_depths_lookup st_2.1 st_b.1 i r) as (r2 & Hr2 & Hd); [|exact Hr|].
  { rewrite D2, D1, Hsame. reflexivity. }
  exists r2, (finalize_row seg r2). split; [exact Hr2|].
  unfold finalize. rewrite S2, S1, Hs. simpl String.eqb. cbv iota. split.
  - rewrite list_lookup_fmap, Hr2. reflexivity.
  - apply finalize_row_deferred. rewrite Hd. exact Hl.
Qed.

End CombinedZoneTheorem.

Lemma C3_combined_zone_deferred_witness :
  let m := sample_Robertson_1986 in
  let idx := [1; 2; 3] in
  let zc := mkZone "9,10,11,12" (rectangle (-1) 1 1 100) in
  let names := dict_of_rows (zone_names m) in
  let data1 := graph_points idx (sample_Bq, sample_qt) in
  let unassigned : frame := (map (fun d => mkZoneRow d None None None) idx, None) in
  exists st_b st_c st_1 st_2,
    classify_graph (ext := sample_ext) Robertson_1986 names false false data1 unassigned
                   [mkZone "3" (rectangle 0 1 0 1)] = Ok st_b /\
    classify_zone (ext := sample_ext) Robertson_1986 names false false data1 st_b zc = Ok st_c /\
    st_c.1 = st_b.1 /\
    classify_graph (ext := sample_ext) Robertson_1986 names false false data1 st_c [] = Ok st_1 /\
    classify_graph (ext := sample_ext) Robertson_1986 names false false
                   (graph_points idx (sample_Rf, sample_qt)) st_1 (zone_definitions_2 m)
    = Ok st_2 /\
    forall v i r xy,
      bounds (zone_boundary zc) = Some v ->
      st_b.1 !! i = Some r -> data1 !! i = Some xy ->
      placed (ext := sample_ext) v false false zc (r, xy) = true ->
      zr_number r = None /\
      exists r2 rf,
        st_2.1 !! i = Some r2 /\ sample_final !! i = Some rf /\
        zr_number rf = if is_concrete_zone (zr_number r2) then zr_number r2
                       else Some combined_zone.
Proof.
  apply (C3_combined_zone_deferred (ext := sample_ext) sample_Robertson_1986 [1; 2; 3]
           (sample_Bq, sample_qt) (sample_Rf, sample_qt)
           [mkZone "3" (rectangle 0 1 0 1)]
           (mkZone "9,10,11,12" (rectangle (-1) 1 1 100)) [] sample_final).
  - reflexivity.
  - reflexivity.
  - repeat constructor; simpl; discriminate.
  - vm_compute; reflexivity.
Defined.

(** ** The coordinates of "Eslami Fellenius" (C10) *)

(** [qt] returns [qc] itself or the cached series, or computes, caches and
    returns a new one; only the attribute [_qt] can change. *)
Lemma qt_frame p r p1 :
  qt p = (r, p1) ->
  p1 = p \/ exists s, r = Ok s /\ p1 = with_series (<["_qt" := s]> (series p)) p.
Proof.
  unfold qt. mred. destruct (negb (hasattr "_qc" p)); [intros [= <- <-]; auto|].
  destruct (series p !! "_qt") as [s|]; [intros [= <- <-]; auto|].
  destruct (_area_ratio p) as [a|] eqn:Ea.
  2:{ unfold qc. mred. destruct (series p !! "_qc"); intros [= <- <-]; auto. }
  unfold qc, u2, area_ratio, setattr, attr. mred.
  destruct (series p !! "_qc") as [s_qc|]; [|intros [= <- <-]; auto].
  destruct (hasattr "_u2" p); mred.
  - destruct (series p !! "_u2") as [s_u2|]; [|intros [= <- <-]; auto].
    rewrite Ea. cbn [series with_series]. rewrite lookup_insert_eq.
    intros [= <- <-]. right. eauto.
  - rewrite Ea. cbn [series with_series]. rewrite lookup_insert_eq.
    intros [= <- <-]. right. eauto.
Qed.




Example classified_C10_result :
  _soil_classification classified_C10
  = Some [mkZoneRow 1 (Some "5") (Some "Sand to sandy gravel") (Some "SW");
          mkZoneRow 2 (Some "5") (Some "Sand to sandy gravel") (Some "SW")] /\
  option_map (map Y_graph_1) (_soil_classification_graph_data classified_C10)
  = Some [num ((2001 # 1000) - (5 # 1000)); num ((30012 # 10000) - (6 # 1000))].
Proof. split; vm_compute; reflexivity. Qed.

(** ** Eviction *)

Lemma with_series_id p : with_series (series p) p = p.
Proof. destruct p; reflexivity. Qed.

Lemma hasattr_true name p : hasattr name p = true <-> is_Some (series p !! name).
Proof. unfold hasattr. apply bool_decide_eq_true. Qed.

Lemma hasattr_false name p : hasattr name p = false <-> series p !! name = None.
Proof.
  unfold hasattr. rewrite bool_decide_eq_false, <- eq_None_not_Some. reflexivity.
Qed.

Lemma delete_dependencies_run ls : forall p,
  delete_dependencies ls p = (Ok tt, with_series (delete_slots ls (series p)) p).
Proof.
  induction ls as [|d ls IH]; intros p; simpl.
  - mred. now rewrite with_series_id.
  - mred. destruct (hasattr ("_" +:+ d) p) eqn:E.
    + rewrite IH. reflexivity.
    + apply hasattr_false in E. rewrite IH, (delete_id _ _ E). reflexivity.
Qed.

Lemma listener_dependency_run ls p : listener_dependency ls p = (Ok tt, evict ls p).
Proof.
  unfold listener_dependency. mred. rewrite delete_dependencies_run.
  unfold evict, del_classification. mred. cbn [_soil_classification_method with_series].
  destruct (_soil_classification_method p) as [method|] eqn:E.
  - rewrite bool_decide_eq_true_2 by eauto. cbv beta.
    cbn [_soil_classification_method with_series]. now rewrite E.
  - rewrite bool_decide_eq_false_2 by (intros [? ?]; discriminate). reflexivity.
Qed.

Lemma lookup_delete_slots ls : forall m k,
  delete_slots ls m !! k
  = if existsb (String.eqb k) (map (String.append "_") ls) then None else m !! k.
Proof.
  induction ls as [|d ls IH]; intros m k; [reflexivity|].
  unfold delete_slots in *. simpl. rewrite IH.
  destruct (String.eqb k ("_" +:+ d)) eqn:E; simpl.
  - apply String.eqb_eq in E as ->. rewrite lookup_delete_eq. now destruct (existsb _ _).
  - apply String.eqb_neq in E. rewrite lookup_delete_ne by congruence. reflexivity.
Qed.

Lemma series_evict ls p : series (evict ls p) = delete_slots ls (series p).
Proof. unfold evict. now destruct (_soil_classification_method p). Qed.

Lemma lookup_evict ls p k :
  series (evict ls p) !! k
  = if existsb (String.eqb k) (map (String.append "_") ls) then None else series p !! k.
Proof. rewrite series_evict. apply lookup_delete_slots. Qed.

Lemma evict_inputs ls p :
  pointID (evict ls p) = pointID p /\ holedepth (evict ls p) = holedepth p /\
  _area_ratio (evict ls p) = _area_ratio p /\ _gwl (evict ls p) = _gwl p /\
  _elevated_gwl (evict ls p) = _elevated_gwl p /\ _unit_weight (evict ls p) = _unit_weight p /\
  _soil_classification_method (evict ls p) = _soil_classification_method p.
Proof. unfold evict. destruct (_soil_classification_method p) eqn:E; simpl; rewrite ?E; tauto. Qed.

Lemma evict_unit_weight_dtype ls p :
  _unit_weight_dtype (evict ls p) = _unit_weight_dtype p.
Proof. unfold evict. destruct (_soil_classification_method p); reflexivity. Qed.

Lemma evict_classification ls p :
  classification_has_method p ->
  _soil_classification (evict ls p) = None /\
  _soil_classification_graph_data (evict ls p) = None.
Proof.
  intros H. unfold evict. destruct (_soil_classification_method p) eqn:E; simpl; auto.
Qed.

Lemma evict_app l1 l2 p : evict (l1 ++ l2) p = evict l2 (evict l1 p).
Proof.
  unfold evict, delete_slots. rewrite fold_left_app.
  destruct (_soil_classification_method p) eqn:E; simpl; rewrite ?E; reflexivity.
Qed.

Lemma evict_cleared ls p :
  is_Some (_soil_classification_method (evict ls p)) ->
  _soil_classification (evict ls p) = None /\
  _soil_classification_graph_data (evict ls p) = None.
Proof.
  unfold evict. destruct (_soil_classification_method p) eqn:E; simpl; [auto|].
  rewrite E. intros [? ?]; discriminate.
Qed.

Lemma evict_absent d q :
  series q !! ("_" +:+ d) = None ->
  (is_Some (_soil_classification_method q) ->
   _soil_classification q = None /\ _soil_classification_graph_data q = None) ->
  evict [d] q = q.
Proof.
  intros Hd Hc. unfold evict, delete_slots. simpl. rewrite (delete_id _ _ Hd).
  destruct q as [? ? ? ? ? ? ? ? [method|] c g]; simpl in *; [|reflexivity].
  destruct Hc as [-> ->]; [eauto|reflexivity].
Qed.

Lemma del_qt_run p : del_qt p = (Ok tt, evict qt_cascade p).
Proof.
  unfold del_qt. rewrite (bind_ok _ _ _ _ _ (listener_dependency_run _ p)). mred.
  change qt_cascade with (["Rf"; "Qt"; "Fr"; "Bq"; "Ic"] ++ ["qt"]). rewrite evict_app.
  pose proof (evict_cleared ["Rf"; "Qt"; "Fr"; "Bq"; "Ic"] p) as Hc.
  set (p1 := evict ["Rf"; "Qt"; "Fr"; "Bq"; "Ic"] p) in *.
  unfold del_attr. destruct (hasattr "_qt" p1) eqn:E.
  - apply hasattr_true in E as [s E]. rewrite E. unfold evict, delete_slots. simpl.
    destruct p1 as [? ? ? ? ? ? ? ? [method|] c g]; simpl in *; [|reflexivity].
    destruct Hc as [-> ->]; [eauto|reflexivity].
  - apply hasattr_false in E. now rewrite (evict_absent "qt" p1 E Hc).
Qed.

(** ** The stress pass returns *)

Lemma try_pass_run (m : M unit) p : try_pass m p = (Ok tt, (m p).2).
Proof. unfold try_pass. now destruct (m p). Qed.

Lemma calculate_effective_stress_ok p uw t :
  _unit_weight p = Some uw ->
  series p !! "_total_stress" = Some t ->
  is_Some (_gwl p) \/ is_Some (_elevated_gwl p) ->
  exists p', _calculate_effective_stress p = (Ok tt, p').
Proof.
  intros Huw Ht Hg. unfold _calculate_effective_stress. mred. rewrite Huw.
  destruct (_gwl p) as [g|], (_elevated_gwl p) as [ge|];
    unfold attr, setattr; mred; rewrite ?Ht; eauto.
  destruct Hg as [[? ?]|[? ?]]; discriminate.
Qed.

Lemma calculate_stress_ok `{ext : External} p x0 w0 uw d0 ds :
  _unit_weight p = Some ((x0, w0) :: uw) ->
  depth_samples p = d0 :: ds ->
  exists p', _calculate_stress p = (Ok tt, p').
Proof.
  intros Huw Hds. unfold _calculate_stress. simpl _calculate_stress_at.
  rewrite (bind_ok _ _ _ _ _ (calculate_total_stress_ok p x0 w0 uw d0 ds Huw Hds)).
  set (p1 := with_series _ p).
  mred. cbn [p1 with_series _gwl _elevated_gwl].
  assert (Hfin : forall q, exists p',
             (match _soil_classification_method q with
              | Some method =>
                  try_pass (classify_soil (_calculate_stress_at recursion_limit) (Some method))
              | None => fun q => (Ok tt, q)
              end) q = (Ok tt, p')).
  { intros q. destruct (_soil_classification_method q); [rewrite try_pass_run|]; eauto. }
  destruct (bool_decide (is_Some (_gwl p)) || bool_decide (is_Some (_elevated_gwl p))) eqn:Eg.
  - destruct (calculate_effective_stress_ok p1 ((x0, w0) :: uw)
                (mkSeries (combine (d0 :: ds)
                                   (map Some (total_stress_values (_unit_weight_dtype p)
                                                d0 ds x0 w0 uw))) "sv0"))
      as [p2 E2].
    + exact Huw.
    + apply lookup_insert_eq.
    + apply orb_true_iff in Eg as [Eg|Eg]; apply bool_decide_eq_true in Eg; auto.
    + rewrite E2. apply Hfin.
  - apply Hfin.
Qed.

(** ** Setting one raw channel (C7) *)

Lemma validate_depth_index_eq new others p :
  _validate_depth_index new others p
  = match map sname (misaligned_series new others p) with
    | [] => (true, None)
    | l => (false, Some l)
    end.
Proof.
  unfold _validate_depth_index, misaligned_series.
  destruct (omap _ others) as [|e es]; [reflexivity|].
  set (l := map sname _). now destruct l.
Qed.

Lemma misaligned_series_nil new others p :
  misaligned_series new others p = [] <->
  forall a s, a ∈ others -> series p !! ("_" +:+ a) = Some s ->
              index_equals (index new) (index s) = true.
Proof.
  unfold misaligned_series. induction others as [|b others IH]; simpl.
  - split; [intros _ a s Ha; inversion Ha|reflexivity].
  - destruct (series p !! ("_" +:+ b)) as [sb|] eqn:Eb; simpl.
    + destruct (index_equals (index new) (index sb)) eqn:Ei; simpl.
      * rewrite IH. split.
        -- intros H a s Ha Hs. apply elem_of_cons in Ha as [->|Ha]; [congruence|eauto].
        -- intros H a s Ha Hs. apply (H a s); [now apply list_elem_of_further|exact Hs].
      * split; [discriminate|]. intros H.
        rewrite (H b sb) in Ei; [discriminate|apply list_elem_of_here|exact Eb].
    + rewrite IH. split.
      * intros H a s Ha Hs. apply elem_of_cons in Ha as [->|Ha]; [congruence|eauto].
      * intros H a s Ha Hs. apply (H a s); [now apply list_elem_of_further|exact Hs].
Qed.

Section SetChannel.

Context {ext : External}.

Variables (name : string) (others dependencies : list string) (evict_them : M unit).
Hypothesis evict_them_run : forall q, evict_them q = (Ok tt, evict dependencies q).

(** What the setter of a channel does, on well-shaped data. *)
Lemma set_channel_run data n p :
  np_array data = Ok (Some n) -> (2 <= n)%nat ->
  let new := column 1 name data in
  set_channel name others evict_them data p
  = match map sname (misaligned_series new others p) with
    | [] =>
        let p2 := evict dependencies
                    (bump_holedepth (series_max new)
                       (with_series (<["_" +:+ name := new]> (series p)) p)) in
        if hasattr "_total_stress" p2 && negb (_validate_depth_index new [name] p).1
        then _calculate_stress p2 else (Ok tt, p2)
    | l => (Raise (mismatch_error l), p)
    end.
Proof.
  intros Hnp Hn new. unfold set_channel. rewrite Hnp.
  destruct (n <? 2)%nat eqn:E; [apply Nat.ltb_lt in E; lia|].
  mred. fold new. rewrite validate_depth_index_eq.
  destruct (map sname (misaligned_series new others p)) as [|l ls]; [|reflexivity].
  unfold setattr, update_holedepth. mred. rewrite evict_them_run.
  fold (bump_holedepth (series_max new) (with_series (<["_" +:+ name := new]> (series p)) p)).
  destruct (hasattr "_total_stress" _ && negb _); reflexivity.
Qed.

End SetChannel.

Section SetRaw.

Context {ext : External}.

Lemma set_raw_run c data n p :
  np_array data = Ok (Some n) -> (2 <= n)%nat ->
  let new := column 1 (channel_name c) data in
  set_raw c data p
  = match map sname (misaligned_series new (other_channels c) p) with
    | [] =>
        let p2 := evict (channel_dependencies c)
                    (bump_holedepth (series_max new)
                       (with_series (<["_" +:+ channel_name c := new]> (series p)) p)) in
        if hasattr "_total_stress" p2
           && negb (_validate_depth_index new [channel_name c] p).1
        then _calculate_stress p2 else (Ok tt, p2)
    | l => (Raise (mismatch_error l), p)
    end.
Proof.
  intros Hnp Hn. destruct c; simpl set_raw; unfold set_qc, set_fs, set_u2.
  - apply (set_channel_run _ _ _ _ del_qt_run data n p Hnp Hn).
  - apply (set_channel_run _ _ _ _ (listener_dependency_run _) data n p Hnp Hn).
  - apply (set_channel_run _ _ _ _ del_qt_run data n p Hnp Hn).
Qed.

Lemma series_bump_holedepth h q : series (bump_holedepth h q) = series q.
Proof. unfold bump_holedepth. now destruct (fltb _ _). Qed.

Lemma unit_weight_bump_holedepth h q : _unit_weight (bump_holedepth h q) = _unit_weight q.
Proof. unfold bump_holedepth. now destruct (fltb _ _). Qed.

Lemma channel_stored_lookup c new p k :
  k ∈ ["_qc"; "_fs"; "_u2"; "_total_stress"] ->
  series (channel_stored c new p) !! k
  = if String.eqb k ("_" +:+ channel_name c) then Some new else series p !! k.
Proof.
  intros Hk. unfold channel_stored. rewrite lookup_evict, series_bump_holedepth.
  cbn [series with_series].
  apply list_elem_of_In in Hk. simpl in Hk.
  destruct Hk as [<-|[<-|[<-|[<-|[]]]]], c; simpl;
    first [apply lookup_insert_eq | now apply lookup_insert_ne].
Qed.

Lemma channel_stored_unit_weight c new p :
  _unit_weight (channel_stored c new p) = _unit_weight p.
Proof.
  unfold channel_stored.
  destruct (evict_inputs (channel_dependencies c)
              (bump_holedepth (series_max new)
                 (with_series (<["_" +:+ channel_name c := new]> (series p)) p)))
    as (_ & _ & _ & _ & _ & -> & _).
  now rewrite unit_weight_bump_holedepth.
Qed.

Lemma nonempty_index_equals (a b : list Q) :
  index_equals a b = true -> a <> [] -> exists d ds, b = d :: ds.
Proof. destruct a, b; simpl; try discriminate; [congruence|eauto]. Qed.

Lemma channel_stored_depth_samples c new p :
  index new <> [] ->
  (forall a s, a ∈ other_channels c -> series p !! ("_" +:+ a) = Some s ->
               index_equals (index new) (index s) = true) ->
  exists d ds, depth_samples (channel_stored c new p) = d :: ds.
Proof.
  intros Hne Hal.
  assert (Hself : exists d ds, index new = d :: ds).
  { destruct (index new); [congruence|eauto]. }
  assert (Hoth : forall a s, a ∈ other_channels c -> series p !! ("_" +:+ a) = Some s ->
                             exists d ds, index s = d :: ds).
  { intros a s Ha Hs. eapply nonempty_index_equals; [eapply Hal; eauto|exact Hne]. }
  unfold depth_samples, first_raw_channel.
  rewrite !channel_stored_lookup by (apply list_elem_of_In; simpl; tauto).
  destruct c; simpl.
  - exact Hself.
  - destruct (series p !! "_qc") as [s|] eqn:E; [|exact Hself].
    apply (Hoth "qc" s); [apply list_elem_of_here|exact E].
  - destruct (series p !! "_qc") as [s|] eqn:E.
    { apply (Hoth "qc" s); [apply list_elem_of_here|exact E]. }
    destruct (series p !! "_fs") as [s|] eqn:E'; [|exact Hself].
    apply (Hoth "fs" s); [apply list_elem_of_further, list_elem_of_here|exact E'].
Qed.

Lemma index_column c name data : index (column c name data) = map fst data.
Proof. unfold index, column. simpl. now rewrite map_map. Qed.

Lemma np_array_nonempty data n : np_array data = Ok (Some n) -> map fst data <> [].
Proof. destruct data; [discriminate|]. simpl; discriminate. Qed.

(** C7, as the code has it: on well-shaped data (at least two columns) and
    a probe whose cached total stress, if any, has a unit-weight profile
    behind it, setting qc, fs or u2 succeeds if and only if the depth index
    of the new data equals, label by label and in the same order, the depth
    index of every other raw channel already present.  It then stores the
    new channel and leaves the other channels as they were; on a mismatch it
    raises the error that names every misaligned channel and points to the
    raw_data property, and the probe is unchanged. *)
Theorem C7_set_channel_alignment c data n p :
  np_array data = Ok (Some n) -> (2 <= n)%nat -> stress_ready p ->
  let new := column 1 (channel_name c) data in
  let aligned :=
    forall a s, a ∈ other_channels c -> series p !! ("_" +:+ a) = Some s ->
                index_equals (index new) (index s) = true in
  ((exists p', set_raw c data p = (Ok tt, p')) <-> aligned) /\
  (aligned ->
   exists p', set_raw c data p = (Ok tt, p') /\
              series p' !! ("_" +:+ channel_name c) = Some new /\
              forall a, a ∈ other_channels c ->
                        series p' !! ("_" +:+ a) = series p !! ("_" +:+ a)) /\
  (~ aligned ->
   misaligned_series new (other_channels c) p <> [] /\
   set_raw c data p
   = (Raise (mismatch_error (map sname (misaligned_series new (other_channels c) p))), p)).
Proof.
  intros Hnp Hn Hready new aligned.
  pose proof (set_raw_run c data n p Hnp Hn) as Hrun. cbv zeta in Hrun.
  fold new in Hrun. fold (channel_stored c new p) in Hrun.
  assert (Hok : aligned ->
    exists p', set_raw c data p = (Ok tt, p') /\
               series p' !! ("_" +:+ channel_name c) = Some new /\
               forall a, a ∈ other_channels c ->
                         series p' !! ("_" +:+ a) = series p !! ("_" +:+ a)).
  { intros Hal. rewrite Hrun.
    rewrite (proj2 (misaligned_series_nil new (other_channels c) p) Hal). simpl.
    assert (Hnew : series (channel_stored c new p) !! ("_" +:+ channel_name c) = Some new).
    { rewrite channel_stored_lookup, String.eqb_refl; [reflexivity|].
      apply list_elem_of_In. destruct c; simpl; tauto. }
    assert (Hoth : forall a, a ∈ other_channels c ->
              series (channel_stored c new p) !! ("_" +:+ a) = series p !! ("_" +:+ a)).
    { intros a Ha. apply list_elem_of_In in Ha.
      destruct c; simpl in Ha; destruct Ha as [<-|[<-|[]]];
        (rewrite channel_stored_lookup; [reflexivity|apply list_elem_of_In; simpl; tauto]). }
    destruct (hasattr "_total_stress" (channel_stored c new p)) eqn:Ets; simpl;
      [destruct (negb _); simpl|]; eauto.
    apply hasattr_true in Ets.
    rewrite channel_stored_lookup in Ets by (apply list_elem_of_In; simpl; tauto).
    replace (String.eqb "_total_stress" ("_" +:+ channel_name c)) with false in Ets
      by (now destruct c).
    destruct (Hready Ets) as (x0 & w0 & uw & Huw).
    destruct (channel_stored_depth_samples c new p) as (d & ds & Hds); [|exact Hal|].
    { unfold new. rewrite index_column. now apply (np_array_nonempty data n). }
    destruct (calculate_stress_ok (channel_stored c new p) x0 w0 uw d ds) as [p' Hp'];
      [now rewrite channel_stored_unit_weight|exact Hds|].
    exists p'. split; [exact Hp'|].
    pose proof (preserves_calculate_stress raw_channel raw_channel_not_derived _ _ _ Hp')
      as [_ _ _ _ _ _ Hs].
    split.
    - rewrite Hs; [exact Hnew|]. apply list_elem_of_In. destruct c; simpl; tauto.
    - intros a Ha. rewrite Hs; [now apply Hoth|].
      apply list_elem_of_In in Ha. apply list_elem_of_In.
      destruct c; simpl in *; destruct Ha as [<-|[<-|[]]]; tauto. }
  assert (Hbad : ~ aligned ->
    misaligned_series new (other_channels c) p <> [] /\
    set_raw c data p
    = (Raise (mismatch_error (map sname (misaligned_series new (other_channels c) p))), p)).
  { intros Hna.
    assert (Hne : misaligned_series new (other_channels c) p <> []).
    { intros E. apply Hna. exact (proj1 (misaligned_series_nil _ _ _) E). }
    split; [exact Hne|]. rewrite Hrun.
    destruct (misaligned_series new (other_channels c) p); [congruence|reflexivity]. }
  split; [|split; assumption].
  split.
  - intros [p' Hp'].
    destruct (misaligned_series new (other_channels c) p) as [|e es] eqn:E.
    + exact (proj1 (misaligned_series_nil _ _ _) E).
    + rewrite Hrun in Hp'. discriminate.
  - intros Hal. destruct (Hok Hal) as (p' & Hp' & _). eauto.
Qed.

End SetRaw.

(** C7, counterexample: with qc on the depths 1, 2, an fs given on the
    depths 2, 1 has the same depths as a set, and the setter rejects it. *)
Lemma C7_same_set_other_order_counterexample :
  matches_as_set (column 1 "fs" (rows1 [2; 1] 7)) ["qc"; "u2"] probe_qc_12 /\
  run (ext := sample_ext) (Set_fs (rows1 [2; 1] 7)) probe_qc_12
  = (Raise (mismatch_error ["qc"]), probe_qc_12).
Proof.
  split; [|vm_compute; reflexivity].
  intros a s Ha. apply list_elem_of_In in Ha. simpl in Ha.
  destruct Ha as [<-|[<-|[]]]; vm_compute; intros [= <-]; reflexivity.
Qed.

Lemma C7_set_channel_alignment_witness :
  let data := rows1 [1; 2] 7 in
  let p := probe_qc_12 in
  let new := column 1 "fs" data in
  let aligned :=
    forall a s, a ∈ ["qc"; "u2"] -> series p !! ("_" +:+ a) = Some s ->
                index_equals (index new) (index s) = true in
  ((exists p', set_raw (ext := sample_ext) Fs data p = (Ok tt, p')) <-> aligned) /\
  (aligned ->
   exists p', set_raw (ext := sample_ext) Fs data p = (Ok tt, p') /\
              series p' !! "_fs" = Some new /\
              forall a, a ∈ ["qc"; "u2"] ->
                        series p' !! ("_" +:+ a) = series p !! ("_" +:+ a)) /\
  (~ aligned ->
   misaligned_series new ["qc"; "u2"] p <> [] /\
   set_raw (ext := sample_ext) Fs data p
   = (Raise (mismatch_error (map sname (misaligned_series new ["qc"; "u2"] p))), p)).
Proof.
  apply (C7_set_channel_alignment (ext := sample_ext) Fs (rows1 [1; 2] 7) 2 probe_qc_12).
  - vm_compute; reflexivity.
  - lia.
  - intros [s Hs]. vm_compute in Hs. discriminate.
Defined.

(** ** The dependency table (C1) *)

(** C1, counterexample: total stress is not among the quantities listed for
    qc, and assigning qc on other depths replaces the cached total stress
    (the setter runs the stress pass when the depth index changes). *)
Lemma C1_set_qc_changes_total_stress_counterexample :
  exists p',
    run (ext := sample_ext) (Set_qc (rows1 [3; 4] 1)) probe_C1 = (Ok tt, p') /\
    ("total_stress" ∉ listed (Set_qc (rows1 [3; 4] 1))) /\
    series probe_C1 !! "_total_stress" = Some (mkSeries [(1, Some 16); (2, Some 32)] "sv0") /\
    series p' !! "_total_stress" = Some (mkSeries [(3, Some 48); (4, Some 64)] "sv0") /\
    ~ evicts_exactly (listed (Set_qc (rows1 [3; 4] 1))) [] probe_C1 p'.
Proof.
  eexists. split; [vm_compute; reflexivity|].
  assert (Hn : "total_stress" ∉ listed (Set_qc (rows1 [3; 4] 1))).
  { intros H. apply list_elem_of_In in H. simpl in H. intuition discriminate. }
  split; [exact Hn|]. split; [vm_compute; reflexivity|]. split; [vm_compute; reflexivity|].
  intros (_ & _ & H & _).
  specialize (H "total_stress").
  assert (Hd : "total_stress" ∈ all_derived) by (apply list_elem_of_In; simpl; tauto).
  specialize (H Hd Hn). simpl in H.
  assert (Hf : "total_stress" ∉ @nil string) by (intros Hf; inversion Hf).
  specialize (H Hf). vm_compute in H. discriminate.
Qed.

Lemma lookup_evict_in ls p k :
  existsb (String.eqb k) (map (String.append "_") ls) = true ->
  series (evict ls p) !! k = None.
Proof. intros H. now rewrite lookup_evict, H. Qed.

Lemma lookup_evict_notin ls p k :
  existsb (String.eqb k) (map (String.append "_") ls) = false ->
  series (evict ls p) !! k = series p !! k.
Proof. intros H. now rewrite lookup_evict, H. Qed.

Lemma has_method_evict ls p :
  classification_has_method p -> classification_has_method (evict ls p).
Proof. intros H _. now apply evict_classification. Qed.

Lemma evict_classification_of ls p q :
  classification_has_method p -> same_classification p q ->
  _soil_classification (evict ls q) = None /\
  _soil_classification_graph_data (evict ls q) = None /\
  _soil_classification_method (evict ls q) = _soil_classification_method p.
Proof.
  intros Hp (Hm & Hc & Hg).
  destruct (evict_classification ls q) as [H1 H2].
  { intros E. rewrite Hc, Hg. apply Hp. congruence. }
  destruct (evict_inputs ls q) as (_ & _ & _ & _ & _ & _ & H3).
  repeat split; congruence.
Qed.

Lemma calculate_effective_stress_inv q q2 :
  _calculate_effective_stress q = (Ok tt, q2) ->
  exists t, series q !! "_total_stress" = Some t /\ q2 = with_series (stress_slots q t) q.
Proof.
  unfold _calculate_effective_stress, stress_slots. mred.
  destruct (_unit_weight q); [|discriminate].
  destruct (_gwl q) as [g|], (_elevated_gwl q) as [ge|]; try discriminate;
    unfold attr, setattr; mred;
    (destruct (series q !! "_total_stress") as [t|]; [|discriminate]);
    intros [= <-]; exists t; (split; [reflexivity|]); reflexivity.
Qed.

Ltac in_cases H :=
  apply list_elem_of_In in H; simpl in H;
  repeat (destruct H as [<-|H]); try contradiction.

Ltac not_listed H :=
  solve [exfalso; apply H; apply list_elem_of_In; simpl; tauto].

Lemma hasattr_evict_in ls p k :
  existsb (String.eqb k) (map (String.append "_") ls) = true ->
  hasattr k (evict ls p) = false.
Proof. intros H. apply hasattr_false. now apply lookup_evict_in. Qed.

Lemma evicts_exactly_intro ls L fresh p q p1 :
  classification_has_method p ->
  same_classification p q ->
  same_classification (evict L q) p1 ->
  (forall d, d ∈ all_derived ->
             series p1 !! ("_" +:+ d) = series (evict L q) !! ("_" +:+ d)) ->
  (forall d, d ∈ ls ->
             d ∈ all_derived /\
             existsb (String.eqb ("_" +:+ d)) (map (String.append "_") L) = true) ->
  (forall d s, (d, s) ∈ fresh ->
               d ∈ all_derived /\
               existsb (String.eqb ("_" +:+ d)) (map (String.append "_") L) = false /\
               series q !! ("_" +:+ d) = Some s) ->
  (forall d, d ∈ all_derived -> d ∉ ls -> d ∉ map fst fresh ->
             existsb (String.eqb ("_" +:+ d)) (map (String.append "_") L) = false /\
             series q !! ("_" +:+ d) = series p !! ("_" +:+ d)) ->
  evicts_exactly ls fresh p p1.
Proof.
  intros Hp Hq (Hm1 & Hc1 & Hg1) Hs Hls Hfresh Hrest.
  destruct (evict_classification_of L p q Hp Hq) as (Hc & Hg & Hm).
  repeat split; try congruence.
  - intros d Hd. destruct (Hls d Hd) as [Ha Hb].
    rewrite (Hs d Ha). now apply lookup_evict_in.
  - intros d s Hd. destruct (Hfresh d s Hd) as (Ha & Hb & Hc').
    rewrite (Hs d Ha), lookup_evict_notin by exact Hb. exact Hc'.
  - intros d Ha Hnl Hnf. destruct (Hrest d Ha Hnl Hnf) as [Hb Hc'].
    rewrite (Hs d Ha), lookup_evict_notin by exact Hb. exact Hc'.
Qed.

Lemma same_classification_refl p : same_classification p p.
Proof. repeat split. Qed.

Section DependencyTable.

Context {ext : External}.

Lemma del_raw_data_table p p' :
  classification_has_method p ->
  run Del_raw_data p = (Ok tt, p') -> follows_table Del_raw_data p p'.
Proof.
  intros Hp. simpl run. unfold del_raw_data.
  rewrite (bind_ok _ _ _ _ _ (listener_dependency_run _ p)), del_qt_run, <- evict_app.
  intros [= <-]. eexists. split; [|reflexivity].
  eapply (evicts_exactly_intro _ _ _ p p); eauto using same_classification_refl.
  - intros d Hd. split; [exact Hd|]. in_cases Hd; reflexivity.
  - intros ? ? Hd. inversion Hd.
  - intros d Hd Hn _. not_listed Hn.
Qed.

Ltac derived := apply list_elem_of_In; simpl; tauto.

Lemma del_qc_table p p' :
  classification_has_method p -> run Del_qc p = (Ok tt, p') -> follows_table Del_qc p p'.
Proof.
  intros Hp. simpl run. unfold del_qc.
  rewrite (bind_ok _ _ _ _ _ (del_qt_run p)). unfold del_attr.
  destruct (series (evict qt_cascade p) !! "_qc"); [|discriminate].
  intros [= <-]. eexists. split; [|reflexivity].
  eapply (evicts_exactly_intro _ qt_cascade _ p p); eauto using same_classification_refl.
  - repeat split.
  - intros d Hd. cbn [series with_series]. in_cases Hd; now apply lookup_delete_ne.
  - intros d Hd. in_cases Hd; (split; [derived|reflexivity]).
  - intros ? ? Hd. inversion Hd.
  - intros d Hd Hn _. in_cases Hd; try not_listed Hn; split; reflexivity.
Qed.

Lemma del_u2_table p p' :
  classification_has_method p -> run Del_u2 p = (Ok tt, p') -> follows_table Del_u2 p p'.
Proof.
  intros Hp. simpl run. unfold del_u2.
  rewrite (bind_ok _ _ _ _ _ (del_qt_run p)). unfold del_attr.
  destruct (series (evict qt_cascade p) !! "_u2"); [|discriminate].
  intros [= <-]. eexists. split; [|reflexivity].
  eapply (evicts_exactly_intro _ qt_cascade _ p p); eauto using same_classification_refl.
  - repeat split.
  - intros d Hd. cbn [series with_series]. in_cases Hd; now apply lookup_delete_ne.
  - intros d Hd. in_cases Hd; (split; [derived|reflexivity]).
  - intros ? ? Hd. inversion Hd.
  - intros d Hd Hn _. in_cases Hd; try not_listed Hn; split; reflexivity.
Qed.

Lemma del_fs_table p p' :
  classification_has_method p -> run Del_fs p = (Ok tt, p') -> follows_table Del_fs p p'.
Proof.
  intros Hp. simpl run. unfold del_fs.
  rewrite (bind_ok _ _ _ _ _ (listener_dependency_run _ p)). unfold del_attr.
  destruct (series (evict _ p) !! "_fs"); [|discriminate].
  intros [= <-]. eexists. split; [|reflexivity].
  eapply (evicts_exactly_intro _ ["Rf"; "Fr"; "Ic"] _ p p); eauto using same_classification_refl.
  - repeat split.
  - intros d Hd. cbn [series with_series]. in_cases Hd; now apply lookup_delete_ne.
  - intros d Hd. in_cases Hd; (split; [derived|reflexivity]).
  - intros ? ? Hd. inversion Hd.
  - intros d Hd Hn _. in_cases Hd; try not_listed Hn; split; reflexivity.
Qed.

Lemma set_area_ratio_table value p p' :
  classification_has_method p ->
  run (Set_area_ratio value) p = (Ok tt, p') -> follows_table (Set_area_ratio value) p p'.
Proof.
  intros Hp. simpl run. unfold set_area_ratio. mred. rewrite del_qt_run.
  intros [= <-]. eexists. split; [|reflexivity].
  eapply (evicts_exactly_intro _ qt_cascade _ p (with_area_ratio (Some value) p));
    eauto using same_classification_refl.
  - repeat split.
  - intros d Hd. in_cases Hd; (split; [derived|reflexivity]).
  - intros ? ? Hd. inversion Hd.
  - intros d Hd Hn _. in_cases Hd; try not_listed Hn; split; reflexivity.
Qed.

Lemma del_area_ratio_table p p' :
  classification_has_method p ->
  run Del_area_ratio p = (Ok tt, p') -> follows_table Del_area_ratio p p'.
Proof.
  intros Hp. simpl run. unfold del_area_ratio.
  rewrite (bind_ok _ _ _ _ _ (del_qt_run p)). mred.
  destruct (_area_ratio (evict qt_cascade p)); [|discriminate].
  intros [= <-]. eexists. split; [|reflexivity].
  eapply (evicts_exactly_intro _ qt_cascade _ p p); eauto using same_classification_refl.
  - repeat split.
  - intros d Hd. in_cases Hd; (split; [derived|reflexivity]).
  - intros ? ? Hd. inversion Hd.
  - intros d Hd Hn _. in_cases Hd; try not_listed Hn; split; reflexivity.
Qed.

Lemma del_unit_weight_table p p' :
  classification_has_method p ->
  run Del_unit_weight p = (Ok tt, p') -> follows_table Del_unit_weight p p'.
Proof.
  intros Hp. simpl run. unfold del_unit_weight.
  rewrite (bind_ok _ _ _ _ _ (listener_dependency_run _ p)). mred.
  destruct (_unit_weight (evict _ p)); [|discriminate].
  intros [= <-]. eexists. split; [|reflexivity].
  eapply (evicts_exactly_intro _ unit_weight_dependencies _ p p);
    eauto using same_classification_refl.
  - repeat split.
  - intros d Hd. in_cases Hd; (split; [derived|reflexivity]).
  - intros ? ? Hd. inversion Hd.
  - intros d Hd Hn _. in_cases Hd; try not_listed Hn; split; reflexivity.
Qed.

Lemma del_gwl_table p p' :
  classification_has_method p ->
  run Del_static_gwl p = (Ok tt, p') -> follows_table Del_static_gwl p p'.
Proof.
  intros Hp. simpl run. unfold del_gwl.
  rewrite (bind_ok _ _ _ _ _ (listener_dependency_run _ p)). mred.
  destruct (_gwl (evict _ p)); [|discriminate].
  intros [= <-]. eexists. split; [|reflexivity].
  eapply (evicts_exactly_intro _ gwl_dependencies _ p p);
    eauto using same_classification_refl.
  - repeat split.
  - intros d Hd. in_cases Hd; (split; [derived|reflexivity]).
  - intros ? ? Hd. inversion Hd.
  - intros d Hd Hn _. in_cases Hd; try not_listed Hn; split; reflexivity.
Qed.

Lemma del_elevated_gwl_table p p' :
  classification_has_method p ->
  run Del_elevated_gwl p = (Ok tt, p') -> follows_table Del_elevated_gwl p p'.
Proof.
  intros Hp. simpl run. unfold del_elevated_gwl.
  rewrite (bind_ok _ _ _ _ _ (listener_dependency_run _ p)). mred.
  destruct (_elevated_gwl (evict _ p)); [|discriminate].
  intros [= <-]. eexists. split; [|reflexivity].
  eapply (evicts_exactly_intro _ elevated_gwl_dependencies _ p p);
    eauto using same_classification_refl.
  - repeat split.
  - intros d Hd. in_cases Hd; (split; [derived|reflexivity]).
  - intros ? ? Hd. inversion Hd.
  - intros d Hd Hn _. in_cases Hd; try not_listed Hn; split; reflexivity.
Qed.

Lemma set_unit_weight_table value p p' :
  classification_has_method p ->
  run (Set_unit_weight value) p = (Ok tt, p') -> follows_table (Set_unit_weight value) p p'.
Proof.
  intros Hp. simpl run. unfold set_unit_weight. mred. rewrite listener_dependency_run.
  intros H. eexists. split; [|exact H].
  eapply (evicts_exactly_intro _ unit_weight_dependencies _ p
            (with_unit_weight _ (with_unit_weight_dtype _ p)));
    eauto using same_classification_refl.
  - repeat split.
  - intros d Hd. in_cases Hd; (split; [derived|reflexivity]).
  - intros ? ? Hd. inversion Hd.
  - intros d Hd Hn _. in_cases Hd; try not_listed Hn; split; reflexivity.
Qed.

Lemma set_gwl_table value p p' :
  classification_has_method p ->
  run (Set_static_gwl value) p = (Ok tt, p') -> follows_table (Set_static_gwl value) p p'.
Proof.
  intros Hp. simpl run. unfold set_gwl. mred.
  destruct (_calculate_effective_stress (with_gwl (Some value) p)) as [[[]|e] q2] eqn:E;
    [|discriminate].
  rewrite listener_dependency_run. intros [= <-].
  apply calculate_effective_stress_inv in E as (t & Ht & ->).
  cbn [series with_gwl] in Ht.
  eexists. split; [|reflexivity].
  eapply (evicts_exactly_intro _ gwl_dependencies _ p
            (with_series (stress_slots (with_gwl (Some value) p) t) (with_gwl (Some value) p)));
    eauto using same_classification_refl.
  - repeat split.
  - intros d Hd. in_cases Hd; (split; [derived|reflexivity]).
  - unfold refreshed. rewrite Ht. unfold stress_slots. cbn [_gwl _elevated_gwl with_gwl series with_series].
    destruct (_elevated_gwl p) as [g|]; intros d s Hd; [|inversion Hd].
    apply list_elem_of_In in Hd. simpl in Hd. destruct Hd as [[= <- <-]|[]].
    split; [derived|]. split; [reflexivity|].
    rewrite !lookup_insert_ne by done. apply lookup_insert_eq.
  - unfold refreshed. rewrite Ht. unfold stress_slots.
    cbn [_gwl _elevated_gwl with_gwl series with_series].
    intros d Hd Hn Hf.
    destruct (_elevated_gwl p) as [g|]; in_cases Hd; try not_listed Hn; try not_listed Hf;
      (split; [reflexivity|]); rewrite !lookup_insert_ne by done; reflexivity.
Qed.

Lemma set_elevated_gwl_table value p p' :
  classification_has_method p ->
  run (Set_elevated_gwl value) p = (Ok tt, p') ->
  follows_table (Set_elevated_gwl value) p p'.
Proof.
  intros Hp. simpl run. unfold set_elevated_gwl. mred.
  destruct (_calculate_effective_stress (with_elevated_gwl (Some value) p))
    as [[[]|e] q2] eqn:E; [|discriminate].
  rewrite listener_dependency_run. intros [= <-].
  apply calculate_effective_stress_inv in E as (t & Ht & ->).
  cbn [series with_elevated_gwl] in Ht.
  eexists. split; [|reflexivity].
  eapply (evicts_exactly_intro _ elevated_gwl_dependencies _ p
            (with_series (stress_slots (with_elevated_gwl (Some value) p) t)
                         (with_elevated_gwl (Some value) p)));
    eauto using same_classification_refl.
  - repeat split.
  - intros d Hd. in_cases Hd; (split; [derived|reflexivity]).
  - unfold refreshed. rewrite Ht. unfold stress_slots.
    cbn [_gwl _elevated_gwl with_elevated_gwl series with_series].
    destruct (_gwl p) as [g|]; intros d s Hd; [|inversion Hd].
    apply list_elem_of_In in Hd. simpl in Hd. destruct Hd as [[= <- <-]|[]].
    split; [derived|]. split; [reflexivity|].
    rewrite !lookup_insert_ne by done. apply lookup_insert_eq.
  - unfold refreshed. rewrite Ht. unfold stress_slots.
    cbn [_gwl _elevated_gwl with_elevated_gwl series with_series].
    intros d Hd Hn Hf.
    destruct (_gwl p) as [g|]; in_cases Hd; try not_listed Hn; try not_listed Hf;
      (split; [reflexivity|]); rewrite !lookup_insert_ne by done; reflexivity.
Qed.

Lemma set_raw_data_table data p p' :
  classification_has_method p ->
  run (Set_raw_data data) p = (Ok tt, p') -> follows_table (Set_raw_data data) p p'.
Proof.
  intros Hp. simpl run. unfold set_raw_data.
  destruct (np_array data) as [[n|]|e]; try discriminate.
  destruct (n <? 3)%nat; [discriminate|].
  unfold setattr. mred. cbn [series with_series].
  destruct (3 <? n)%nat; mred; rewrite listener_dependency_run;
    (rewrite hasattr_evict_in by reflexivity); intros [= <-];
    (eexists; split; [|reflexivity]);
    match goal with
    | |- evicts_exactly _ _ _ (evict _ ?q) =>
        apply (evicts_exactly_intro _ all_derived _ p q)
    end;
    try exact Hp; try apply same_classification_refl; try (repeat split; fail);
    try (intros; reflexivity).
  - intros d Hd. split; [exact Hd|]. in_cases Hd; reflexivity.
  - intros ? ? Hd. inversion Hd.
  - intros d Hd Hn _. not_listed Hn.
  - intros d Hd. split; [exact Hd|]. in_cases Hd; reflexivity.
  - intros ? ? Hd. inversion Hd.
  - intros d Hd Hn _. not_listed Hn.
Qed.

Lemma set_channel_shape name others ev data p p' :
  set_channel name others ev data p = (Ok tt, p') ->
  exists n, np_array data = Ok (Some n) /\ (2 <= n)%nat.
Proof.
  unfold set_channel. destruct (np_array data) as [[n|]|e]; try discriminate.
  destruct (n <? 2)%nat eqn:E; [discriminate|]. apply Nat.ltb_ge in E. eauto.
Qed.

Lemma set_raw_table c data p p' :
  classification_has_method p ->
  set_raw c data p = (Ok tt, p') ->
  exists p1,
    evicts_exactly (channel_dependencies c) [] p p1 /\
    if hasattr "_total_stress" p
       && negb (_validate_depth_index (column 1 (channel_name c) data) [channel_name c] p).1
    then _calculate_stress p1 = (Ok tt, p') else p' = p1.
Proof.
  intros Hp H.
  assert (Hshape : exists n, np_array data = Ok (Some n) /\ (2 <= n)%nat).
  { destruct c; eapply set_channel_shape; exact H. }
  destruct Hshape as (n & Hnp & Hn).
  rewrite (set_raw_run c data n p Hnp Hn) in H. cbv zeta in H.
  set (new := column 1 (channel_name c) data) in *.
  destruct (map sname (misaligned_series new (other_channels c) p)); [|discriminate].
  fold (channel_stored c new p) in H.
  assert (Hts : hasattr "_total_stress" (channel_stored c new p) = hasattr "_total_stress" p).
  { unfold hasattr. rewrite channel_stored_lookup by derived. now destruct c. }
  rewrite Hts in H.
  exists (channel_stored c new p). split.
  - unfold channel_stored.
    apply (evicts_exactly_intro _ (channel_dependencies c) _ p
             (bump_holedepth (series_max new)
                (with_series (<["_" +:+ channel_name c := new]> (series p)) p))).
    + exact Hp.
    + unfold bump_holedepth. destruct (fltb _ _); repeat split.
    + apply same_classification_refl.
    + intros; reflexivity.
    + intros d Hd. destruct c; in_cases Hd; (split; [derived|reflexivity]).
    + intros ? ? Hd. inversion Hd.
    + intros d Hd Hnl _. rewrite series_bump_holedepth. cbn [series with_series].
      destruct c; in_cases Hd; try not_listed Hnl;
        (split; [reflexivity|now apply lookup_insert_ne]).
  - destruct (hasattr "_total_stress" p && negb _); [exact H|now injection H].
Qed.

Lemma evicts_exactly_same_set ls ls' fresh p p1 :
  (forall d, d ∈ ls' <-> d ∈ ls) ->
  evicts_exactly ls fresh p p1 -> evicts_exactly ls' fresh p p1.
Proof.
  intros Hset (H1 & H2 & H3 & H4). repeat split; try tauto.
  - intros d Hd. apply H1, Hset, Hd.
  - intros d Hd Hn Hf. apply H3; [exact Hd| |exact Hf]. intros Hin. apply Hn, Hset, Hin.
Qed.

Lemma qt_cascade_listed d : d ∈ ["qt"; "Rf"; "Qt"; "Fr"; "Bq"; "Ic"] <-> d ∈ qt_cascade.
Proof.
  unfold qt_cascade. rewrite !list_elem_of_In. simpl. tauto.
Qed.

(** C1, as the code has it: a mutation that returns, on a probe whose
    cached classification has its method remembered, evicts exactly the
    derived quantities that the table lists for the mutated input (cascade
    through qt included) and the cached classification result, keeps the
    remembered method name, and leaves every derived quantity that is not
    listed cached as it was; with two additions that recompute instead of
    only evicting.  Assigning unit_weight, and assigning qc, fs or u2 on a
    depth index other than the stored one while a total stress is cached,
    run the stress pass on the probe so evicted.  Assigning the static or
    the elevated groundwater level first recomputes, from the cached total
    stress, the pore pressure of the other level (when that level is
    defined), which is then cached with its new value. *)
Theorem C1_mutation_follows_table m p p' :
  classification_has_method p ->
  run m p = (Ok tt, p') ->
  exists p1,
    evicts_exactly (listed m) (refreshed m p) p p1 /\
    if recalculates m p then _calculate_stress p1 = (Ok tt, p') else p' = p1.
Proof.
  intros Hp H. destruct m.
  - exact (set_raw_data_table _ _ _ Hp H).
  - exact (del_raw_data_table _ _ Hp H).
  - destruct (set_raw_table Qc data p p' Hp H) as (p1 & He & Hr).
    exists p1. split; [|exact Hr].
    eapply evicts_exactly_same_set; [apply qt_cascade_listed|exact He].
  - exact (del_qc_table _ _ Hp H).
  - destruct (set_raw_table Fs data p p' Hp H) as (p1 & He & Hr). eauto.
  - exact (del_fs_table _ _ Hp H).
  - destruct (set_raw_table U2 data p p' Hp H) as (p1 & He & Hr).
    exists p1. split; [|exact Hr].
    eapply evicts_exactly_same_set; [apply qt_cascade_listed|exact He].
  - exact (del_u2_table _ _ Hp H).
  - exact (set_area_ratio_table _ _ _ Hp H).
  - exact (del_area_ratio_table _ _ Hp H).
  - exact (set_unit_weight_table _ _ _ Hp H).
  - exact (del_unit_weight_table _ _ Hp H).
  - exact (set_gwl_table _ _ _ Hp H).
  - exact (del_gwl_table _ _ Hp H).
  - exact (set_elevated_gwl_table _ _ _ Hp H).
  - exact (del_elevated_gwl_table _ _ Hp H).
Qed.

End DependencyTable.

Lemma C1_mutation_follows_table_witness :
  let m := Set_static_gwl 1 in
  let p := after [Set_qc (rows1 [1; 2] 1); Set_unit_weight (Constant 16); Set_elevated_gwl 0]
                 (new_CPT "CPT-1") in
  let p' := (run (ext := sample_ext) m p).2 in
  exists p1,
    evicts_exactly (listed m) (refreshed m p) p p1 /\
    if recalculates m p then _calculate_stress (ext := sample_ext) p1 = (Ok tt, p')
    else p' = p1.
Proof.
  apply (C1_mutation_follows_table (ext := sample_ext)).
  - intros _. split; reflexivity.
  - vm_compute; reflexivity.
Defined.

(** ** Reachable probes are well formed *)

Lemma keeps_well_formed_refl p : keeps_well_formed p p.
Proof. intros H; exact H. Qed.

Lemma keeps_well_formed_trans p q r :
  keeps_well_formed p q -> keeps_well_formed q r -> keeps_well_formed p r.
Proof. unfold keeps_well_formed. auto. Qed.

(** Same unit weight and classification, and a total stress that is the
    old one or gone. *)
Lemma keeps_well_formed_intro p p' :
  _unit_weight p' = _unit_weight p ->
  (series p' !! "_total_stress" = series p !! "_total_stress"
   \/ series p' !! "_total_stress" = None) ->
  same_classification p p' ->
  keeps_well_formed p p'.
Proof.
  intros Hu Ht (Hm & Hc & Hg) [Hcls Hready]. split.
  - intros E. rewrite Hc, Hg. apply Hcls. congruence.
  - intros Hs. rewrite Hu. apply Hready.
    destruct Ht as [Ht|Ht]; rewrite Ht in Hs; [exact Hs|destruct Hs; discriminate].
Qed.

Lemma well_formed_evict ls p : keeps_well_formed p (evict ls p).
Proof.
  intros [Hcls Hready]. split; [now apply has_method_evict|].
  intros Hs. destruct (evict_inputs ls p) as (_ & _ & _ & _ & _ & -> & _).
  apply Hready. rewrite lookup_evict in Hs.
  destruct (existsb _ _); [destruct Hs; discriminate|exact Hs].
Qed.

Ltac wf_step :=
  pres_step_with ltac:(apply keeps_well_formed_refl) ltac:(apply keeps_well_formed_trans).

Lemma wf_setattr name s :
  name <> "_total_stress" -> preserves keeps_well_formed (setattr name s).
Proof.
  intros Hn. apply preserves_modify. intros p.
  apply keeps_well_formed_intro; [reflexivity| |repeat split].
  left. simpl. now apply lookup_insert_ne.
Qed.

Lemma wf_del_attr name : preserves keeps_well_formed (del_attr name).
Proof.
  intros p r p'. unfold del_attr. destruct (series p !! name) eqn:E; intros [= <- <-];
    [|apply keeps_well_formed_refl].
  apply keeps_well_formed_intro; [reflexivity| |repeat split]. simpl.
  destruct (decide (name = "_total_stress")) as [->|Hn];
    [right; apply lookup_delete_eq|left; now apply lookup_delete_ne].
Qed.

Lemma wf_listener_dependency ls : preserves keeps_well_formed (listener_dependency ls).
Proof.
  intros p r p'. rewrite listener_dependency_run. intros [= <- <-]. apply well_formed_evict.
Qed.

Lemma wf_del_qt : preserves keeps_well_formed del_qt.
Proof. intros p r p'. rewrite del_qt_run. intros [= <- <-]. apply well_formed_evict. Qed.

Lemma wf_modify_inputs f :
  (forall p, _unit_weight (f p) = _unit_weight p /\ series (f p) = series p /\
             same_classification p (f p)) ->
  preserves keeps_well_formed (modify f).
Proof.
  intros Hf. apply preserves_modify. intros p. destruct (Hf p) as (Hu & Hs & Hc).
  apply keeps_well_formed_intro; [exact Hu|left; now rewrite Hs|exact Hc].
Qed.

Lemma wf_classification method rows g :
  preserves keeps_well_formed (modify (with_classification (Some method) rows g)).
Proof.
  apply preserves_modify. intros p [_ Hready]. split; [intros E; discriminate|exact Hready].
Qed.

Lemma wf_with_total_stress s p :
  (exists x0 w0 uw, _unit_weight p = Some ((x0, w0) :: uw)) ->
  keeps_well_formed p (with_series (<["_total_stress" := s]> (series p)) p).
Proof. intros Hu [Hcls _]. split; [exact Hcls|]. intros _. exact Hu. Qed.

Lemma wf_calculate_total_stress : preserves keeps_well_formed _calculate_total_stress.
Proof.
  intros p r p'. unfold _calculate_total_stress. mred.
  destruct (_unit_weight p) as [uw|] eqn:Euw; [|intros [= <- <-]; apply keeps_well_formed_refl].
  destruct (first_raw_channel p) as [s|]; mred.
  - destruct (index s) as [|d0 ds]; [intros [= <- <-]; apply keeps_well_formed_refl|].
    destruct uw as [|[x0 w0] rest]; intros [= <- <-]; [apply keeps_well_formed_refl|].
    apply wf_with_total_stress. eauto.
  - destruct uw as [|[x0 w0] rest]; mred; [intros [= <- <-]; apply keeps_well_formed_refl|].
    cbn [map fst]. intros [= <- <-]. apply wf_with_total_stress. eauto.
Qed.

Lemma wf_calculate_effective_stress :
  preserves keeps_well_formed _calculate_effective_stress.
Proof.
  unfold _calculate_effective_stress.
  repeat first [wf_step | apply wf_setattr; discriminate].
Qed.

Section WellFormedGetters.

Context {ext : External}.
Variable calc : M unit.
Hypothesis wf_calc : preserves keeps_well_formed calc.

Ltac wf :=
  repeat first [ wf_step
               | apply wf_setattr; discriminate
               | apply wf_classification
               | solve [auto] ].

Lemma wf_qt : preserves keeps_well_formed qt.
Proof. unfold qt, qc, u2, area_ratio. wf. Qed.

Lemma wf_getattribute param : preserves keeps_well_formed (getattribute calc param).
Proof.
  pose proof wf_qt. pose proof wf_calculate_effective_stress.
  assert (preserves keeps_well_formed qt_or_qc) by (unfold qt_or_qc, qc; wf).
  assert (preserves keeps_well_formed (total_stress calc)) by (unfold total_stress; wf).
  assert (preserves keeps_well_formed (effective_stress calc)) by (unfold effective_stress; wf).
  assert (preserves keeps_well_formed (static_u0 calc)) by (unfold static_u0; wf).
  assert (preserves keeps_well_formed (elevated_u0 calc)) by (unfold elevated_u0; wf).
  assert (preserves keeps_well_formed (Qt calc)) by (unfold Qt; wf).
  assert (preserves keeps_well_formed (Fr calc)) by (unfold Fr, fs; wf).
  unfold getattribute.
  repeat match goal with
         | |- preserves _ (if ?b then _ else _) => destruct b
         end; try assumption.
  - unfold qc; wf.
  - unfold fs; wf.
  - unfold u2; wf.
  - unfold Rf; wf.
  - unfold Bq, u2; wf.
  - unfold Ic; wf.
  - wf.
Qed.

Lemma wf_classify_soil method : preserves keeps_well_formed (classify_soil calc method).
Proof.
  pose proof wf_qt. pose proof wf_getattribute.
  unfold classify_soil, calculate_soil_classification, compare_data, fs, u2, qc. wf.
Qed.

End WellFormedGetters.

Section WellFormed.

Context {ext : External}.

Lemma wf_calculate_stress_at depth : preserves keeps_well_formed (_calculate_stress_at depth).
Proof.
  induction depth as [|depth IH]; simpl; [apply preserves_raise, keeps_well_formed_refl|].
  pose proof wf_calculate_total_stress. pose proof wf_calculate_effective_stress.
  pose proof (wf_classify_soil _ IH).
  repeat first [wf_step | solve [auto]].
Qed.

Lemma wf_calculate_stress : preserves keeps_well_formed _calculate_stress.
Proof. apply wf_calculate_stress_at. Qed.

Ltac wf :=
  repeat first [ wf_step
               | apply wf_setattr; discriminate
               | apply wf_del_attr
               | apply wf_listener_dependency
               | apply wf_del_qt
               | apply wf_calculate_stress
               | apply wf_calculate_effective_stress
               | apply wf_modify_inputs; intros ?;
                 unfold bump_holedepth; repeat split; fail
               | solve [auto] ].

Lemma wf_update_holedepth h : preserves keeps_well_formed (update_holedepth h).
Proof.
  apply wf_modify_inputs. intros p. destruct (fltb (holedepth p) h); repeat split.
Qed.

Lemma wf_set_channel name others ev data :
  "_" +:+ name <> "_total_stress" ->
  preserves keeps_well_formed ev ->
  preserves keeps_well_formed (set_channel name others ev data).
Proof.
  intros Hn Hev. pose proof wf_update_holedepth. pose proof wf_calculate_stress.
  unfold set_channel.
  repeat first [wf_step | apply wf_setattr; exact Hn | solve [auto]].
Qed.

(** With the unit weight replaced, no total stress of the old one stays. *)
Lemma wf_replace_unit_weight uw dt p :
  keeps_well_formed p
    (evict unit_weight_dependencies (with_unit_weight uw (with_unit_weight_dtype dt p))).
Proof.
  intros [Hcls _]. split.
  - apply has_method_evict. exact Hcls.
  - intros [s Hs]. rewrite lookup_evict_in in Hs by reflexivity. discriminate.
Qed.

Lemma wf_run m : preserves keeps_well_formed (run m).
Proof.
  pose proof wf_update_holedepth.
  destruct m; simpl run.
  - unfold set_raw_data. wf.
  - unfold del_raw_data. wf.
  - apply wf_set_channel; [discriminate|apply wf_del_qt].
  - unfold del_qc. wf.
  - apply wf_set_channel; [discriminate|apply wf_listener_dependency].
  - unfold del_fs. wf.
  - apply wf_set_channel; [discriminate|apply wf_del_qt].
  - unfold del_u2. wf.
  - unfold set_area_ratio. wf.
  - unfold del_area_ratio. wf.
  - intros p r p'. unfold set_unit_weight. mred. rewrite listener_dependency_run.
    intros Hrun. eapply keeps_well_formed_trans; [apply wf_replace_unit_weight|].
    eapply wf_calculate_stress, Hrun.
  - intros p r p'. unfold del_unit_weight.
    rewrite (bind_ok _ _ _ _ _ (listener_dependency_run _ p)). mred.
    destruct (_unit_weight (evict unit_weight_dependencies p)); intros [= <- <-];
      [|apply well_formed_evict].
    intros Hp. apply (well_formed_evict unit_weight_dependencies) in Hp as [Hcls _].
    split; [exact Hcls|]. intros [s Hs]. simpl in Hs.
    rewrite lookup_evict_in in Hs by reflexivity. discriminate.
  - unfold set_gwl. wf.
  - unfold del_gwl. wf.
  - unfold set_elevated_gwl. wf.
  - unfold del_elevated_gwl. wf.
Qed.

Lemma well_formed_new id : well_formed (new_CPT id).
Proof.
  split; [intros _; split; reflexivity|]. intros [s Hs]. simpl in Hs.
  rewrite lookup_empty in Hs. discriminate.
Qed.

(** X1.  Two invariants of every probe a program can hold, that is of a new
    probe and of what mutations, classifications and reads make of it: a
    classification result and its graph data are cached only while the
    method that gave them is remembered, and a total stress is cached only
    under a unit-weight profile that is there and is not empty. *)
Theorem reachable_well_formed p : reachable p -> well_formed p.
Proof.
  induction 1 as [id|m p _ IH|method p _ IH|param p _ IH|p _ IH].
  - apply well_formed_new.
  - destruct (run m p) as [r p'] eqn:E. exact (wf_run m _ _ _ E IH).
  - destruct (classify_soil _calculate_stress method p) as [r p'] eqn:E.
    exact (wf_classify_soil _ wf_calculate_stress method _ _ _ E IH).
  - destruct (getattribute _calculate_stress param p) as [r p'] eqn:E.
    exact (wf_getattribute _ wf_calculate_stress param _ _ _ E IH).
  - destruct (classification _calculate_stress p) as [r p'] eqn:E.
    revert E. unfold classification. intros E.
    assert (Hc : preserves keeps_well_formed (classification _calculate_stress)).
    { pose proof (wf_classify_soil _ wf_calculate_stress).
      unfold classification. repeat first [wf_step | solve [auto]]. }
    exact (Hc _ _ _ E IH).
Qed.

End WellFormed.

Lemma reachable_well_formed_witness : well_formed probe_C1.
Proof.
  apply (reachable_well_formed (ext := sample_ext)).
  apply (reachable_run (ext := sample_ext) (Set_unit_weight (Constant 16))
           (run (ext := sample_ext) (Set_qc (rows1 [1; 2] 1)) (new_CPT "CPT-1")).2).
  apply (reachable_run (ext := sample_ext) (Set_qc (rows1 [1; 2] 1)) (new_CPT "CPT-1")).
  apply reachable_new.
Defined.

(** ** What reading a property can change *)

Section Reads.

Context {ext : External}.

Variable R : CPT -> CPT -> Prop.
Hypothesis R_refl : forall p, R p p.
Hypothesis R_trans : forall p q r, R p q -> R q r -> R p r.

Ltac rd_step := pres_step_with ltac:(apply R_refl) ltac:(apply R_trans).

(** [qt] writes nothing but its own cache. *)
Lemma reads_qt_of_cache :
  (forall s p, R p (with_series (<["_qt" := s]> (series p)) p)) -> preserves R qt.
Proof.
  intros H. unfold qt, qc, u2, area_ratio, setattr.
  repeat first [ rd_step | apply preserves_modify; intros; apply H | solve [auto] ].
Qed.

Hypothesis R_method :
  forall p q, R p q -> _soil_classification_method q = _soil_classification_method p.
Hypothesis R_cache :
  forall name s p, name ∈ derived_slots -> name <> "_total_stress" -> name <> "_qt" ->
                   R p (with_series (<[name := s]> (series p)) p).
Hypothesis R_qt : preserves R qt.
Hypothesis R_total_stress : preserves R _calculate_total_stress.
Hypothesis R_classified :
  forall method rows g p,
    _soil_classification_method p = Some method ->
    R p (with_classification (Some method) (Some rows) (Some g) p).

Lemma reads_setattr name s :
  name ∈ derived_slots -> name <> "_total_stress" -> name <> "_qt" ->
  preserves R (setattr name s).
Proof. intros H1 H2 H3. apply preserves_modify. intros p. now apply R_cache. Qed.

Ltac slot := first [ apply list_elem_of_In; simpl; tauto | discriminate ].
Ltac rd :=
  repeat first [ rd_step
               | apply reads_setattr; slot
               | solve [auto] ].

Lemma reads_calculate_effective_stress : preserves R _calculate_effective_stress.
Proof. unfold _calculate_effective_stress. rd. Qed.

Lemma reads_qt : preserves R qt.
Proof. exact R_qt. Qed.

Section Getters.

Variable calc : M unit.
Hypothesis R_calc : preserves R calc.

Lemma reads_getattribute param : preserves R (getattribute calc param).
Proof.
  pose proof reads_qt. pose proof reads_calculate_effective_stress.
  assert (preserves R qt_or_qc) by (unfold qt_or_qc, qc; rd).
  assert (preserves R (total_stress calc)) by (unfold total_stress; rd).
  assert (preserves R (effective_stress calc)) by (unfold effective_stress; rd).
  assert (preserves R (static_u0 calc)) by (unfold static_u0; rd).
  assert (preserves R (elevated_u0 calc)) by (unfold elevated_u0; rd).
  assert (preserves R (Qt calc)) by (unfold Qt; rd).
  assert (preserves R (Fr calc)) by (unfold Fr, fs; rd).
  unfold getattribute.
  repeat match goal with
         | |- preserves _ (if ?b then _ else _) => destruct b
         end; try assumption.
  - unfold qc; rd.
  - unfold fs; rd.
  - unfold u2; rd.
  - unfold Rf; rd.
  - unfold Bq, u2; rd.
  - unfold Ic; rd.
  - rd.
Qed.

Lemma reads_compare_data method m : preserves R (compare_data calc method m).
Proof.
  pose proof reads_qt. pose proof reads_getattribute.
  unfold compare_data, fs, u2. rd.
Qed.

(** The classification ends by storing its result on a probe [p1] that
    reading the coordinates made of [p], or raises on such a probe. *)
Lemma calculate_soil_classification_run method p r p' :
  calculate_soil_classification calc method p = (r, p') ->
  exists p1, R p p1 /\
    ((exists e, r = Raise e) /\ p' = p1 \/
     r = Ok tt /\ exists rows g,
       p' = with_classification (Some method) (Some rows) (Some g) p1).
Proof.
  unfold calculate_soil_classification.
  destruct (db method) as [m|]; [|intros [= <- <-]; exists p; eauto].
  mred. destruct (compare_data calc method m p) as [[[g1 g2]|e] p1] eqn:E.
  2:{ intros [= <- <-]. exists p1. split; [eapply reads_compare_data, E|eauto]. }
  assert (HR : R p p1) by (eapply reads_compare_data, E).
  unfold qc. mred. destruct (series p1 !! "_qc") as [s_qc|].
  2:{ intros [= <- <-]. exists p1. eauto. }
  assert (Hfin : forall q : CPT,
             match classify_rows method m (index s_qc) g1 g2 with
             | Ok rows => fun q => (Ok tt, with_classification (Some method) (Some rows)
                                            (Some (graph_data (index s_qc) g1 g2)) q)
             | Raise e => fun q => (Raise e, q)
             end q = (r, p') -> q = p1 ->
             exists p1, R p p1 /\
               ((exists e, r = Raise e) /\ p' = p1 \/
                r = Ok tt /\ exists rows g,
                  p' = with_classification (Some method) (Some rows) (Some g) p1)).
  { intros q H ->. destruct (classify_rows method m (index s_qc) g1 g2);
      injection H as <- <-; exists p1; eauto 8. }
  destruct g2 as [g2|]; [intros H; now apply (Hfin p1)|].
  destruct (param_x2 m); [intros [= <- <-]; exists p1; eauto|].
  intros H; now apply (Hfin p1).
Qed.

Lemma reads_calculate_soil_classification method p r p' :
  _soil_classification_method p = Some method ->
  calculate_soil_classification calc method p = (r, p') -> R p p'.
Proof.
  intros Hm H. apply calculate_soil_classification_run in H
    as (p1 & HR & [[_ ->]|(_ & rows & g & ->)]); [exact HR|].
  eapply R_trans; [exact HR|]. apply R_classified.
  now rewrite (R_method _ _ HR).
Qed.

End Getters.

(** The stress pass after its first step: an effective-stress pass when a
    groundwater level is known, and the remembered classification again. *)
Lemma reads_calculate_stress_tail depth p r p' :
  _calculate_stress_at (S depth) p = (r, p') ->
  preserves R (_calculate_stress_at depth) ->
  exists r1 p1,
    _calculate_total_stress p = (r1, p1) /\ R p1 p' /\
    (r1 = Ok tt \/ r1 = r /\ p1 = p').
Proof.
  intros H IH. pose proof reads_calculate_effective_stress as He.
  simpl in H. revert H. mred.
  destruct (_calculate_total_stress p) as [[[]|e] p1].
  2:{ intros [= <- <-]. eexists _, _. split; [reflexivity|]. split; [apply R_refl|auto]. }
  intros H. exists (Ok tt), p1. split; [reflexivity|]. split; [|auto].
  revert H.
  destruct (bool_decide (is_Some (_gwl p1)) || bool_decide (is_Some (_elevated_gwl p1))).
  - destruct (_calculate_effective_stress p1) as [[[]|e] p2] eqn:E2.
    2:{ intros [= <- <-]. eapply He, E2. }
    pose proof (He _ _ _ E2) as H12.
    destruct (_soil_classification_method p2) as [method|] eqn:Em;
      [|intros [= <- <-]; exact H12].
    rewrite try_pass_run.
    destruct (classify_soil (_calculate_stress_at depth) (Some method) p2) as [r1 p3] eqn:E.
    intros [= <- <-]. eapply R_trans; [exact H12|]. revert E. unfold classify_soil. mred.
    now apply reads_calculate_soil_classification.
  - destruct (_soil_classification_method p1) as [method|] eqn:Em;
      [|intros [= <- <-]; apply R_refl].
    rewrite try_pass_run.
    destruct (classify_soil (_calculate_stress_at depth) (Some method) p1) as [r1 p3] eqn:E.
    intros [= <- <-]. revert E. unfold classify_soil. mred.
    now apply reads_calculate_soil_classification.
Qed.

Lemma reads_calculate_stress_at depth : preserves R (_calculate_stress_at depth).
Proof.
  induction depth as [|depth IH]; [apply preserves_raise, R_refl|].
  intros p r p' H.
  destruct (reads_calculate_stress_tail _ _ _ _ H IH) as (r1 & p1 & H1 & H2 & _).
  eapply R_trans; [eapply R_total_stress, H1|exact H2].
Qed.

Lemma reads_calculate_stress : preserves R _calculate_stress.
Proof. apply reads_calculate_stress_at. Qed.

Lemma reads_read param : preserves R (getattribute _calculate_stress param).
Proof. apply reads_getattribute, reads_calculate_stress. Qed.

Lemma reads_classification : preserves R (classification _calculate_stress).
Proof.
  intros p r p'. unfold classification. mred.
  destruct (_soil_classification_method p) as [method|] eqn:Em;
    [|intros [= <- <-]; apply R_refl].
  assert (Hfin : forall q, R p q ->
            match _soil_classification q with
            | Some c => fun q => (Ok c, q)
            | None => fun q => (Raise (no_attribute "_soil_classification"), q)
            end q = (r, p') -> R p p').
  { intros q HR. destruct (_soil_classification q); intros [= <- <-]; exact HR. }
  destruct (negb (bool_decide (is_Some (_soil_classification p)))); mred.
  - unfold classify_soil. mred.
    destruct (calculate_soil_classification _calculate_stress method p) as [[[]|e] p1] eqn:E.
    + apply Hfin.
      exact (reads_calculate_soil_classification _ reads_calculate_stress _ _ _ _ Em E).
    + intros [= <- <-].
      exact (reads_calculate_soil_classification _ reads_calculate_stress _ _ _ _ Em E).
  - apply Hfin, R_refl.
Qed.

(** A classification that was asked for by name stores its result on a
    probe that the reads made of [p], or raises on such a probe. *)
Lemma classify_soil_run method p r p' :
  classify_soil _calculate_stress method p = (r, p') ->
  exists p1, R p p1 /\
    ((exists e, r = Raise e) /\ p' = p1 \/
     r = Ok tt /\ exists m rows g,
       (method = Some m \/ method = None /\ _soil_classification_method p = Some m) /\
       p' = with_classification (Some m) (Some rows) (Some g) p1).
Proof.
  unfold classify_soil. mred.
  destruct method as [m|].
  - intros H. apply (calculate_soil_classification_run _ reads_calculate_stress) in H
      as (p1 & HR & [H|(-> & rows & g & ->)]); exists p1; eauto 10.
  - destruct (_soil_classification_method p) as [m|] eqn:Em.
    + intros H. apply (calculate_soil_classification_run _ reads_calculate_stress) in H
        as (p1 & HR & [H|(-> & rows & g & ->)]); exists p1; eauto 10.
    + intros [= <- <-]. exists p. eauto.
Qed.

End Reads.

(** ** Observations fill caches and change nothing else *)

Lemma expected_total_stress_agree p q :
  agree_on (fun k => k ∉ derived_slots) p q ->
  expected_total_stress q = expected_total_stress p.
Proof.
  intros [_ _ _ _ _ Hu Hs Hdt]. unfold expected_total_stress, depth_samples, first_raw_channel.
  rewrite Hu, Hdt, !Hs; [reflexivity|..];
    intros H; apply list_elem_of_In in H; simpl in H; intuition discriminate.
Qed.

Lemma caches_filled_refl p : caches_filled p p.
Proof. split; auto using agree_on_refl. Qed.

Lemma caches_filled_trans p q r :
  caches_filled p q -> caches_filled q r -> caches_filled p r.
Proof.
  intros [] []. split; auto.
  - eapply agree_on_trans; eauto.
  - congruence.
  - intros s Hs Hp. apply filled_total_stress1; [|auto].
    now rewrite (expected_total_stress_agree p q).
Qed.

Lemma caches_filled_cache name s p :
  name ∈ derived_slots -> name <> "_total_stress" ->
  caches_filled p (with_series (<[name := s]> (series p)) p).
Proof.
  intros Hn Ht. split; try reflexivity; try (simpl; tauto).
  - split; try reflexivity. intros k Hk. simpl. apply lookup_insert_ne. now intros <-.
  - intros k [x Hx]. simpl. destruct (decide (name = k)) as [->|Hne];
      [rewrite lookup_insert_eq|rewrite lookup_insert_ne by exact Hne]; eauto.
  - intros s0 _ Hs. simpl. now rewrite lookup_insert_ne.
Qed.

Lemma calculate_total_stress_inv p r p' :
  _calculate_total_stress p = (r, p') ->
  p' = p \/
  exists s, expected_total_stress p = Some s /\
            p' = with_series (<["_total_stress" := s]> (series p)) p.
Proof.
  unfold _calculate_total_stress, expected_total_stress, depth_samples. mred.
  destruct (_unit_weight p) as [uw|]; [|intros [= <- <-]; auto].
  destruct (first_raw_channel p) as [c|]; mred.
  - destruct (index c) as [|d0 ds]; [intros [= <- <-]; auto|].
    destruct uw as [|[x0 w0] rest]; intros [= <- <-]; eauto.
  - destruct uw as [|[x0 w0] rest]; mred; [intros [= <- <-]; auto|].
    cbn [map fst]. intros [= <- <-]. eauto.
Qed.

Lemma caches_filled_calculate_total_stress : preserves caches_filled _calculate_total_stress.
Proof.
  intros p r p' H. apply calculate_total_stress_inv in H as [->|(s & Hs & ->)];
    [apply caches_filled_refl|].
  split; try reflexivity; try (simpl; tauto).
  - split; try reflexivity. intros k Hk. simpl. apply lookup_insert_ne. intros <-.
    apply Hk. apply list_elem_of_In. simpl. tauto.
  - intros k [x Hx]. simpl. destruct (decide ("_total_stress" = k)) as [<-|Hne];
      [rewrite lookup_insert_eq|rewrite lookup_insert_ne by exact Hne]; eauto.
  - intros s0 Hs0 _. simpl. rewrite lookup_insert_eq. congruence.
Qed.

Lemma caches_filled_classified method rows g p :
  _soil_classification_method p = Some method ->
  caches_filled p (with_classification (Some method) (Some rows) (Some g) p).
Proof.
  intros Hm. split; simpl; eauto.
  - split; reflexivity.
Qed.

Lemma caches_filled_qt : preserves caches_filled qt.
Proof.
  apply reads_qt_of_cache; [exact caches_filled_refl|exact caches_filled_trans|].
  intros s p. apply caches_filled_cache; [apply list_elem_of_In; simpl; tauto|discriminate].
Qed.

Ltac caches_filled_hyps :=
  [> exact caches_filled_refl | exact caches_filled_trans
   | intros ? ? []; assumption
   | intros; apply caches_filled_cache; assumption
   | exact caches_filled_qt
   | exact caches_filled_calculate_total_stress | exact caches_filled_classified ].

Section Observations.

Context {ext : External}.

Lemma caches_filled_read param :
  preserves caches_filled (getattribute _calculate_stress param).
Proof.
  apply reads_read; caches_filled_hyps.
Qed.

Lemma caches_filled_calculate_stress : preserves caches_filled _calculate_stress.
Proof.
  apply reads_calculate_stress; caches_filled_hyps.
Qed.

Lemma caches_filled_classification :
  preserves caches_filled (classification _calculate_stress).
Proof.
  apply reads_classification; caches_filled_hyps.
Qed.

Lemma caches_filled_classify_soil method p r p' :
  classify_soil _calculate_stress method p = (r, p') ->
  exists p1, caches_filled p p1 /\
    ((exists e, r = Raise e) /\ p' = p1 \/
     r = Ok tt /\ exists m rows g,
       (method = Some m \/ method = None /\ _soil_classification_method p = Some m) /\
       p' = with_classification (Some m) (Some rows) (Some g) p1).
Proof.
  apply classify_soil_run; caches_filled_hyps.
Qed.

(** After an observation: a probe on which caches were filled, with the
    classification fields possibly replaced by a whole result. *)
Lemma observe_run o p :
  exists p1, caches_filled p p1 /\
    (observe o p = p1 \/
     exists m rows g, observe o p = with_classification (Some m) (Some rows) (Some g) p1).
Proof.
  destruct o as [param|method|]; simpl.
  - exists (getattribute _calculate_stress param p).2. split; [|auto].
    destruct (getattribute _calculate_stress param p) as [r p'] eqn:E.
    eapply caches_filled_read, E.
  - destruct (classify_soil _calculate_stress method p) as [r p'] eqn:E.
    apply caches_filled_classify_soil in E as (p1 & H1 & [[_ ->]|(_ & m & rows & g & _ & ->)]);
      exists p1; eauto 8.
  - exists (classification _calculate_stress p).2. split; [|auto].
    destruct (classification _calculate_stress p) as [r p'] eqn:E.
    eapply caches_filled_classification, E.
Qed.

(** X2.  Reading a property, classifying or reading the classification
    never changes an input of the probe: its identifier, hole depth, area
    ratio, groundwater levels, unit weight and raw channels are afterwards
    what they were, whether the operation returned or raised; only the ten
    cached quantities (and the classification fields) can differ. *)
Theorem observation_keeps_inputs o p :
  agree_on (fun k => k ∉ derived_slots) p (observe o p).
Proof.
  destruct (observe_run o p) as (p1 & [H _ _ _ _ _] & [->|(m & rows & g & ->)]); [exact H|].
  destruct H. split; assumption.
Qed.

(** X3.  An observation never evicts: a series that is cached before it is
    cached after it, and so are a classification result and its graph
    data. *)
Theorem observation_never_evicts o p :
  (forall k, is_Some (series p !! k) -> is_Some (series (observe o p) !! k)) /\
  (is_Some (_soil_classification p) -> is_Some (_soil_classification (observe o p))) /\
  (is_Some (_soil_classification_graph_data p) ->
   is_Some (_soil_classification_graph_data (observe o p))).
Proof.
  destruct (observe_run o p) as (p1 & [_ _ H1 H2 H3 _] & [->|(m & rows & g & ->)]);
    [auto|]. simpl. eauto.
Qed.

(** X4.  The remembered classification method changes in one way only: by
    a successful [classify_soil] that names a method, which is the one
    remembered afterwards.  A failed classification, a classification
    without a method name and every read leave the remembered method as it
    was. *)
Theorem remembered_method_after_observation o p :
  _soil_classification_method (observe o p)
  = match o with
    | Classify_soil (Some method) =>
        if succeeds o p then Some method else _soil_classification_method p
    | _ => _soil_classification_method p
    end.
Proof.
  destruct o as [param|method|]; simpl.
  - destruct (getattribute _calculate_stress param p) as [r p'] eqn:E.
    now destruct (caches_filled_read _ _ _ _ E).
  - destruct (classify_soil _calculate_stress method p) as [r p'] eqn:E.
    apply caches_filled_classify_soil in E
      as (p1 & [_ Hm _ _ _ _] & [[[e ->] ->]|(-> & m & rows & g & Hmeth & ->)]); simpl.
    + now destruct method.
    + destruct Hmeth as [->|[-> ->]]; reflexivity.
  - destruct (classification _calculate_stress p) as [r p'] eqn:E.
    now destruct (caches_filled_classification _ _ _ E).
Qed.

End Observations.

Lemma observation_never_evicts_witness :
  is_Some (series (observe (ext := sample_ext) (Read "Fr") probe_C1) !! "_total_stress").
Proof.
  apply (proj1 (observation_never_evicts (ext := sample_ext) (Read "Fr") probe_C1)).
  vm_compute. eauto.
Defined.

(** ** Memoised reads *)

Lemma ends_cached_attr slot p : ends_cached slot (attr slot) p.
Proof.
  intros s p'. unfold attr. destruct (series p !! slot) eqn:E; intros [= <- <-]. exact E.
Qed.

Lemma ends_cached_raise slot e p : ends_cached slot (raise e) p.
Proof. intros s p' [=]. Qed.

Lemma ends_cached_bind {A} slot (m : M A) (f : A -> M Series) p :
  (forall a p1, ends_cached slot (f a) p1) -> ends_cached slot (m ≫= f) p.
Proof.
  intros Hf s p'. mred. destruct (m p) as [[a|e] p1]; [apply Hf|intros [=]].
Qed.

Ltac ec :=
  repeat first
    [ apply ends_cached_attr
    | apply ends_cached_raise
    | apply ends_cached_bind; intros ? ?
    | match goal with
      | |- ends_cached _ (if ?b then _ else _) _ => destruct b
      | |- ends_cached _ (match ?x with _ => _ end) _ => destruct x
      end ].

Lemma bind_get {A} (f : CPT -> M A) p : (get ≫= f) p = f p p.
Proof. reflexivity. Qed.

Section Memoised.

Context {ext : External}.
Variable calc : M unit.

Lemma total_stress_cached p s p' :
  total_stress calc p = (Ok s, p') -> series p' !! "_total_stress" = Some s.
Proof.
  unfold total_stress. rewrite bind_get.
  destruct (series p !! "_total_stress") eqn:E; [intros [= <- <-]; exact E|].
  revert s p'. change (ends_cached "_total_stress" (calc;; attr "_total_stress") p). ec.
Qed.

Lemma effective_stress_cached p s p' :
  effective_stress calc p = (Ok s, p') -> series p' !! "_effective_stress" = Some s.
Proof.
  unfold effective_stress. rewrite bind_get.
  destruct (series p !! "_effective_stress") eqn:E; [intros [= <- <-]; exact E|].
  revert s p'. change (ends_cached "_effective_stress" (calc;; attr "_effective_stress") p). ec.
Qed.

Lemma static_u0_cached p s p' :
  static_u0 calc p = (Ok s, p') -> series p' !! "_static_u0" = Some s.
Proof.
  unfold static_u0. rewrite bind_get.
  destruct (series p !! "_static_u0") eqn:E; [intros [= <- <-]; exact E|].
  destruct (_gwl p); [|intros [=]].
  revert s p'. change (ends_cached "_static_u0" (calc;; attr "_static_u0") p). ec.
Qed.

Lemma elevated_u0_cached p s p' :
  elevated_u0 calc p = (Ok s, p') -> series p' !! "_elevated_u0" = Some s.
Proof.
  unfold elevated_u0. rewrite bind_get.
  destruct (series p !! "_elevated_u0") eqn:E; [intros [= <- <-]; exact E|].
  destruct (_elevated_gwl p); [|intros [=]].
  revert s p'. change (ends_cached "_elevated_u0" (calc;; attr "_elevated_u0") p). ec.
Qed.

Lemma Qt_cached p s p' : Qt calc p = (Ok s, p') -> series p' !! "_Qt" = Some s.
Proof.
  unfold Qt. rewrite bind_get.
  destruct (series p !! "_Qt") eqn:E; [intros [= <- <-]; exact E|].
  revert s p'.
  match goal with |- forall s p', ?m p = _ -> _ => change (ends_cached "_Qt" m p) end. ec.
Qed.

Lemma Fr_cached p s p' : Fr calc p = (Ok s, p') -> series p' !! "_Fr" = Some s.
Proof.
  unfold Fr. rewrite bind_get.
  destruct (series p !! "_Fr") eqn:E; [intros [= <- <-]; exact E|].
  revert s p'.
  match goal with |- forall s p', ?m p = _ -> _ => change (ends_cached "_Fr" m p) end. ec.
Qed.

Lemma Bq_cached p s p' : Bq calc p = (Ok s, p') -> series p' !! "_Bq" = Some s.
Proof.
  unfold Bq. rewrite bind_get.
  destruct (series p !! "_Bq") eqn:E; [intros [= <- <-]; exact E|].
  revert s p'.
  match goal with |- forall s p', ?m p = _ -> _ => change (ends_cached "_Bq" m p) end. ec.
Qed.

Lemma Ic_cached p s p' : Ic calc p = (Ok s, p') -> series p' !! "_Ic" = Some s.
Proof.
  unfold Ic. rewrite bind_get.
  destruct (series p !! "_Ic") eqn:E; [intros [= <- <-]; exact E|].
  revert s p'.
  match goal with |- forall s p', ?m p = _ -> _ => change (ends_cached "_Ic" m p) end. ec.
Qed.

Lemma channel_read_pure p :
  (forall s p', qc p = (Ok s, p') -> p' = p) /\
  (forall s p', fs p = (Ok s, p') -> p' = p) /\
  (forall s p', u2 p = (Ok s, p') -> p' = p).
Proof.
  unfold qc, fs, u2. rewrite !bind_get. repeat split; intros s p';
    match goal with |- context [series p !! ?k] => destruct (series p !! k) end;
    now intros [= <- <-].
Qed.

Lemma qt_memoised p s p' : qt p = (Ok s, p') -> qt p' = (Ok s, p').
Proof.
  intros H. destruct (qt_frame _ _ _ H) as [->|(s' & [= <-] & ->)]; [exact H|].
  revert H. unfold qt. rewrite !bind_get.
  destruct (negb (hasattr "_qc" p)) eqn:Eqc; [intros [=]|]. intros _.
  assert (hasattr "_qc" (with_series (<["_qt":=s]> (series p)) p) = hasattr "_qc" p) as ->.
  { unfold hasattr. simpl. now rewrite lookup_insert_ne. }
  rewrite Eqc. simpl. now rewrite lookup_insert_eq.
Qed.

Lemma Rf_memoised p s p' : Rf p = (Ok s, p') -> Rf p' = (Ok s, p').
Proof.
  intros H.
  assert (Hagree : agree_on raw_channel p p').
  { eapply (preserves_Rf raw_channel), H. apply raw_channel_not_derived. }
  assert (Hc : series p' !! "_Rf" = Some s).
  { revert H. unfold Rf. rewrite bind_get.
    destruct (hasattr "_qc" p), (hasattr "_fs" p); try (intros [=]; fail).
    destruct (series p !! "_Rf") eqn:E; [intros [= <- <-]; exact E|].
    revert s p' Hagree.
    match goal with |- forall s p', _ -> ?m p = _ -> _ =>
      intros s p' _; revert s p'; change (ends_cached "_Rf" m p) end. ec. }
  revert H. unfold Rf. rewrite !bind_get.
  assert (hasattr "_qc" p' = hasattr "_qc" p) as ->.
  { unfold hasattr. rewrite (agree_series _ _ _ Hagree); [reflexivity|].
    apply list_elem_of_In; simpl; tauto. }
  assert (hasattr "_fs" p' = hasattr "_fs" p) as ->.
  { unfold hasattr. rewrite (agree_series _ _ _ Hagree); [reflexivity|].
    apply list_elem_of_In; simpl; tauto. }
  destruct (hasattr "_qc" p), (hasattr "_fs" p); try (intros [=]; fail).
  rewrite Hc. reflexivity.
Qed.

(** X5.  Reads are memoised: once a property has been read successfully, a
    second read returns the same series and leaves the probe as the first
    read left it, without computing anything. *)
Theorem read_is_memoised param p s p' :
  getattribute calc param p = (Ok s, p') ->
  getattribute calc param p' = (Ok s, p').
Proof.
  destruct (channel_read_pure p) as (Hqc & Hfs & Hu2).
  unfold getattribute.
  repeat match goal with
         | |- (if ?b then _ else _) p = _ -> _ => destruct b
         end.
  - intros H. pose proof (Hqc _ _ H); subst p'. exact H.
  - intros H. pose proof (Hfs _ _ H); subst p'. exact H.
  - intros H. pose proof (Hu2 _ _ H); subst p'. exact H.
  - apply qt_memoised.
  - apply Rf_memoised.
  - intros H. unfold Qt. rewrite bind_get, (Qt_cached _ _ _ H). reflexivity.
  - intros H. unfold Fr. rewrite bind_get, (Fr_cached _ _ _ H). reflexivity.
  - intros H. unfold Bq. rewrite bind_get, (Bq_cached _ _ _ H). reflexivity.
  - intros H. unfold Ic. rewrite bind_get, (Ic_cached _ _ _ H). reflexivity.
  - intros H. unfold total_stress. rewrite bind_get, (total_stress_cached _ _ _ H). reflexivity.
  - intros H. unfold effective_stress.
    rewrite bind_get, (effective_stress_cached _ _ _ H). reflexivity.
  - intros H. unfold static_u0. rewrite bind_get, (static_u0_cached _ _ _ H). reflexivity.
  - intros H. unfold static_u0. rewrite bind_get, (static_u0_cached _ _ _ H). reflexivity.
  - intros H. unfold elevated_u0. rewrite bind_get, (elevated_u0_cached _ _ _ H). reflexivity.
  - intros [=].
Qed.

End Memoised.

Lemma read_is_memoised_witness :
  let read := getattribute (ext := sample_ext) (_calculate_stress (ext := sample_ext))
                           "total_stress" in
  read (read probe_constant_weight).2
  = (Ok (mkSeries [(1, Some 16); (2, Some 32)] "sv0"), (read probe_constant_weight).2).
Proof.
  apply (read_is_memoised (ext := sample_ext) (_calculate_stress (ext := sample_ext))
           "total_stress" probe_constant_weight).
  vm_compute. reflexivity.
Defined.

(** ** Bounds on the interpolated unit weight and on the total stress *)

Lemma interp_segment_within lo hi x0 y0 x1 y1 z :
  x0 <= z -> z < x1 -> lo <= y0 <= hi -> lo <= y1 <= hi ->
  lo <= (y1 - y0) / (x1 - x0) * (z - x0) + y0 <= hi.
Proof.
  intros H0 H1 [Hl0 Hh0] [Hl1 Hh1].
  assert (Hd : ~ x1 - x0 == 0) by lra.
  pose proof (interp_segment_nonneg x0 (y0 - lo) x1 (y1 - lo) z H0 H1) as Hlo.
  pose proof (interp_segment_nonneg x0 (hi - y0) x1 (hi - y1) z H0 H1) as Hhi.
  assert (E1 : (y1 - lo - (y0 - lo)) / (x1 - x0) * (z - x0) + (y0 - lo)
               == (y1 - y0) / (x1 - x0) * (z - x0) + y0 - lo) by (field; exact Hd).
  assert (E2 : (hi - y1 - (hi - y0)) / (x1 - x0) * (z - x0) + (hi - y0)
               == hi - ((y1 - y0) / (x1 - x0) * (z - x0) + y0)) by (field; exact Hd).
  rewrite E1 in Hlo. rewrite E2 in Hhi.
  split; [assert (0 <= y0 - lo) by lra; assert (0 <= y1 - lo) by lra
         |assert (0 <= hi - y0) by lra; assert (0 <= hi - y1) by lra]; lra.
Qed.

Lemma np_interp_within lo hi z pts :
  pts <> [] -> weights_within lo hi pts -> lo <= np_interp z pts <= hi.
Proof.
  intros Hne Hall. unfold weights_within in Hall. rewrite Forall_forall in Hall.
  destruct (np_interp_cases z pts Hne)
    as [(r & Hr & ->)|(r0 & r1 & H0 & H1 & Hlt0 & Hlt1 & ->)].
  - apply Hall, Hr.
  - apply interp_segment_within;
      [apply Qlt_le_weak, Hlt0|exact Hlt1|apply Hall, H0|apply Hall, H1].
Qed.

Lemma weights_within_values lo hi (rows rows' : list (Q * Q)) :
  map snd rows' = map snd rows -> weights_within lo hi rows -> weights_within lo hi rows'.
Proof.
  unfold weights_within. revert rows'.
  induction rows as [|r rows IH]; intros [|r' rows'] E H; try discriminate; [constructor|].
  simpl in E. injection E as E1 E2. inversion H; subst.
  constructor; [now rewrite E1|now apply IH].
Qed.

Lemma unitweight_within lo hi dt x0 w0 uw z :
  weights_within lo hi ((x0, w0) :: uw) ->
  lo <= unitweight dt ((x0, w0) :: uw) z <= hi.
Proof.
  intros H. unfold unitweight.
  pose proof (nudge_duplicates_values dt ((x0, w0) :: uw)) as E.
  apply (weights_within_values lo hi _ _ E) in H.
  apply np_interp_within; [|exact H].
  intros E'. rewrite E' in E. discriminate.
Qed.



Lemma Forall2_combine_items {A B} (P : A -> B -> Prop) (l : list A) (k : list B) :
  Forall2 P l k -> Forall (fun r => P r.1 r.2) (combine l k).
Proof. induction 1; simpl; constructor; auto. Qed.



(** With one unit weight throughout, the bounds meet. *)
Lemma cumsum_from_constant gamma (f : Q -> Q) ds : forall a acc,
  (forall z, f z == gamma) -> acc == gamma * a ->
  Forall2 (fun d t => t == gamma * d) ds
          (cumsum_from acc (np_mul (np_diff (a :: ds)) (map f ds))).
Proof.
  induction ds as [|b ds IH]; intros a acc Hf Hacc; [constructor|]. simpl.
  assert (Hb : Qred (acc + (b - a) * f b) == gamma * b).
  { rewrite Qred_correct, Hf, Hacc. ring. }
  constructor; [exact Hb|]. now apply IH.
Qed.

Lemma unitweight_constant gamma dt x0 w0 uw z :
  weights_within gamma gamma ((x0, w0) :: uw) -> unitweight dt ((x0, w0) :: uw) z == gamma.
Proof.
  intros H. apply Qle_antisym; now apply (unitweight_within gamma gamma dt x0 w0 uw z).
Qed.

(** X7.  Under one unit weight [gamma] throughout the profile (as after
    [cpt.unit_weight = gamma]) the total stress stored at a depth [z] is
    [gamma * z], whatever the order of the depth samples. *)
Theorem total_stress_of_constant_unit_weight p x0 w0 uw d0 ds gamma :
  _unit_weight p = Some ((x0, w0) :: uw) ->
  depth_samples p = d0 :: ds ->
  weights_within gamma gamma ((x0, w0) :: uw) ->
  exists p' s,
    _calculate_total_stress p = (Ok tt, p') /\
    series p' !! "_total_stress" = Some s /\
    index s = d0 :: ds /\
    Forall (fun r : Q * float => exists t, r.2 = Some t /\ t == gamma * r.1) (items s).
Proof.
  intros Huw Hds Hw.
  assert (H : Forall2 (fun d t => t == gamma * d) (d0 :: ds)
                      (total_stress_values (_unit_weight_dtype p) d0 ds x0 w0 uw)).
  { unfold total_stress_values.
    change (tl (map ?f (d0 :: ds))) with (map f ds). unfold cumsum.
    assert (H0 : Qred (d0 * w0) == gamma * d0).
    { rewrite Qred_correct. inversion Hw as [|? ? [H1 H2] _]; subst. simpl in *.
      assert (w0 == gamma) as -> by (now apply Qle_antisym). ring. }
    constructor; [exact H0|].
    apply (cumsum_from_constant gamma
             (fun z => np_interp z (nudge_duplicates (_unit_weight_dtype p)
                                      ((x0, w0) :: uw)))); [|exact H0].
    intros z. now apply (unitweight_constant gamma (_unit_weight_dtype p) x0 w0 uw z). }
  set (ts := total_stress_values (_unit_weight_dtype p) d0 ds x0 w0 uw) in *.
  destruct (values_combine_index (d0 :: ds) (map Some ts) "sv0") as [Hi _].
  { rewrite length_map. symmetry. exact (Forall2_length _ _ _ H). }
  eexists _, _. split; [apply (calculate_total_stress_ok p x0 w0 uw d0 ds Huw Hds)|].
  split; [simpl; apply lookup_insert_eq|].
  fold ts. split; [exact Hi|].
  - cbn [items].
    assert (H2 : Forall2 (fun (d : Q) (v : float) => exists t, v = Some t /\ t == gamma * d)
                         (d0 :: ds) (map Some ts)).
    { clear -H. induction H as [|d t l k H1 _ IH]; simpl; constructor; eauto. }
    exact (Forall2_combine_items _ _ _ H2).
Qed.

Lemma total_stress_of_constant_unit_weight_witness :
  exists p' s,
    _calculate_total_stress probe_constant_weight = (Ok tt, p') /\
    series p' !! "_total_stress" = Some s /\
    index s = [1; 2] /\
    Forall (fun r : Q * float => exists t, r.2 = Some t /\ t == 16 * r.1) (items s).
Proof.
  apply (total_stress_of_constant_unit_weight probe_constant_weight 0 16 [(9999, 16)] 1 [2] 16).
  - vm_compute; reflexivity.
  - vm_compute; reflexivity.
  - repeat constructor; vm_compute; discriminate.
Defined.

(** ** The stress pass, run *)

Lemma calculate_total_stress_run p :
  match expected_total_stress p with
  | Some s =>
      _calculate_total_stress p
      = (Ok tt, with_series (<["_total_stress" := s]> (series p)) p)
  | None => exists e, _calculate_total_stress p = (Raise e, p)
  end.
Proof.
  unfold _calculate_total_stress, expected_total_stress, depth_samples. mred.
  destruct (_unit_weight p) as [uw|]; [|eauto].
  destruct (first_raw_channel p) as [c|]; mred.
  - destruct uw as [|[x0 w0] rest], (index c) as [|d0 ds]; eauto.
  - destruct uw as [|[x0 w0] rest]; mred; [eauto|]. cbn [map fst]. reflexivity.
Qed.

Section StressPass.

Context {ext : External}.

Lemma calculate_stress_run p :
  match expected_total_stress p with
  | Some s =>
      exists p', _calculate_stress p = (Ok tt, p') /\
                 caches_filled (with_series (<["_total_stress" := s]> (series p)) p) p' /\
                 series p' !! "_total_stress" = Some s
  | None => exists e, _calculate_stress p = (Raise e, p)
  end.
Proof.
  pose proof (calculate_total_stress_run p) as Ht.
  destruct (expected_total_stress p) as [s|] eqn:Es.
  - assert (Hok : exists p', _calculate_stress p = (Ok tt, p')).
    { revert Es. unfold expected_total_stress.
      destruct (_unit_weight p) as [[|[x0 w0] uw]|] eqn:Eu; try discriminate.
      destruct (depth_samples p) as [|d0 ds] eqn:Ed; [discriminate|]. intros _.
      exact (calculate_stress_ok p x0 w0 uw d0 ds Eu Ed). }
    destruct Hok as [p' Hp']. exists p'. split; [exact Hp'|].
    unfold _calculate_stress in Hp'.
    destruct (reads_calculate_stress_tail caches_filled
                caches_filled_refl caches_filled_trans
                ltac:(intros ? ? []; assumption)
                ltac:(intros; apply caches_filled_cache; assumption) caches_filled_qt
                caches_filled_classified _ _ _ _ Hp')
      as (r1 & p1 & H1 & H2 & _).
    { apply reads_calculate_stress_at; caches_filled_hyps. }
    rewrite Ht in H1. injection H1 as <- <-. split; [exact H2|].
    apply (filled_total_stress _ _ H2).
    + rewrite <- Es. apply expected_total_stress_agree.
      split; try reflexivity. intros k Hk. simpl. apply lookup_insert_ne. intros <-.
      apply Hk. apply list_elem_of_In. simpl. tauto.
    + simpl. apply lookup_insert_eq.
  - destruct Ht as [e He]. exists e.
    unfold _calculate_stress. simpl _calculate_stress_at.
    exact (bind_raise _ _ _ _ _ He).
Qed.

End StressPass.

(** ** Assignments *)

Section Assignments.

Context {ext : External}.

Lemma set_unit_weight_run value p :
  run (Set_unit_weight value) p
  = _calculate_stress
      (evict unit_weight_dependencies (with_unit_weight_of value p)).
Proof.
  simpl run. unfold set_unit_weight. mred. rewrite listener_dependency_run. reflexivity.
Qed.

(** X8.  Assigning a unit weight stores it, as an array of floats or of
    integers as the value has them, whether or not the assignment returns.
    The assignment returns exactly when the stored profile and the depth
    samples are not empty; the total stress is then cached and up to date,
    and it is what the next read of [total_stress] returns, without changing
    the probe. *)
Theorem unit_weight_assignment value p :
  let r := run (Set_unit_weight value) p in
  _unit_weight r.2 = Some (profile_of value) /\
  _unit_weight_dtype r.2 = dtype_of value /\
  (is_ok r.1 = true <-> is_Some (expected_total_stress r.2)) /\
  (is_ok r.1 = true ->
   exists s, expected_total_stress r.2 = Some s /\
             series r.2 !! "_total_stress" = Some s /\
             total_stress _calculate_stress r.2 = (Ok s, r.2)).
Proof.
  cbv zeta. rewrite set_unit_weight_run.
  set (p1 := evict unit_weight_dependencies (with_unit_weight_of value p)).
  assert (Hu1 : _unit_weight p1 = Some (profile_of value)).
  { unfold p1. now destruct (evict_inputs unit_weight_dependencies
                               (with_unit_weight_of value p))
      as (_ & _ & _ & _ & _ & -> & _). }
  assert (Hd1 : _unit_weight_dtype p1 = dtype_of value).
  { unfold p1. now rewrite evict_unit_weight_dtype. }
  pose proof (calculate_stress_run p1) as Hrun.
  destruct (expected_total_stress p1) as [s|] eqn:Es.
  - destruct Hrun as (p' & -> & Hfill & Hs). simpl.
    assert (He : expected_total_stress p' = Some s).
    { rewrite (expected_total_stress_agree _ _ (filled_inputs _ _ Hfill)).
      rewrite <- Es. apply expected_total_stress_agree.
      split; try reflexivity. intros k Hk. simpl. apply lookup_insert_ne. intros <-.
      apply Hk. apply list_elem_of_In. simpl. tauto. }
    split; [|split; [|split]].
    + rewrite (agree_unit_weight _ _ _ (filled_inputs _ _ Hfill)). exact Hu1.
    + rewrite (agree_unit_weight_dtype _ _ _ (filled_inputs _ _ Hfill)). exact Hd1.
    + rewrite He. split; eauto.
    + intros _. exists s. split; [exact He|]. split; [exact Hs|].
      unfold total_stress. rewrite bind_get, Hs. reflexivity.
  - destruct Hrun as [e ->]. simpl. rewrite Es. split; [exact Hu1|]. split; [exact Hd1|].
    split; [|discriminate]. split; [discriminate|]. intros [? [=]].
Qed.

Lemma set_raw_data_ok data n p :
  num_columns data = Some n -> (3 <= n)%nat ->
  exists p',
    run (Set_raw_data data) p = (Ok tt, p') /\
    series p' !! "_qc" = Some (column 1 "qc" data) /\
    series p' !! "_fs" = Some (column 2 "fs" data) /\
    series p' !! "_u2"
    = (if (4 <=? n)%nat then Some (column 3 "u2" data) else series p !! "_u2") /\
    holedepth p' = max_depth data /\
    (forall d, d ∈ all_derived -> series p' !! ("_" +:+ d) = None).
Proof.
  intros Hn H3. simpl run. unfold set_raw_data, np_array.
  destruct data as [|row data]; [discriminate|]. rewrite Hn.
  destruct (n <? 3)%nat eqn:E; [apply Nat.ltb_lt in E; lia|].
  unfold setattr. mred. cbn [series with_series].
  assert (Hd : forall q d, d ∈ all_derived -> series (evict all_derived q) !! ("_" +:+ d) = None).
  { intros q d Hd. apply lookup_evict_in. in_cases Hd; reflexivity. }
  assert (Hh : forall q, holedepth (evict all_derived q) = holedepth q).
  { intros q. now destruct (evict_inputs all_derived q) as (_ & -> & _). }
  destruct (3 <? n)%nat eqn:E3; mred; rewrite listener_dependency_run;
    (rewrite hasattr_evict_in by reflexivity); eexists; (split; [reflexivity|]);
    rewrite !lookup_evict_notin by reflexivity; rewrite Hh; cbn [series with_series with_holedepth holedepth].
  - apply Nat.ltb_lt in E3. replace (4 <=? n)%nat with true by (symmetry; apply Nat.leb_le; lia).
    split_and!; [by simplify_map_eq..|reflexivity|auto].
  - apply Nat.ltb_ge in E3. replace (4 <=? n)%nat with false by (symmetry; apply Nat.leb_gt; lia).
    split_and!; [by simplify_map_eq..|reflexivity|auto].
Qed.

Lemma set_raw_data_refused data p :
  (forall n, num_columns data = Some n -> (n < 3)%nat) ->
  exists msg, run (Set_raw_data data) p = (Raise (ValueError msg), p).
Proof.
  intros H. simpl run. unfold set_raw_data, np_array.
  destruct data as [|row data]; [eauto|].
  destruct (num_columns (row :: data)) as [n|]; [|unfold ragged; eauto].
  destruct (n <? 3)%nat eqn:E; [eauto|].
  apply Nat.ltb_ge in E. specialize (H n eq_refl). lia.
Qed.


Lemma set_raw_shape_error c data p :
  (forall n, np_array data = Ok (Some n) -> (n < 2)%nat) ->
  exists e, set_raw c data p = (Raise e, p).
Proof.
  intros H. destruct c; simpl; unfold set_qc, set_fs, set_u2, set_channel;
    (destruct (np_array data) as [[n|]|e]; [|eauto..]);
    (destruct (n <? 2)%nat eqn:E; [eauto|]);
    apply Nat.ltb_ge in E; specialize (H n eq_refl); lia.
Qed.

(** An aligned channel of a good shape is accepted. *)
Lemma set_raw_accepted c data n p :
  np_array data = Ok (Some n) -> (2 <= n)%nat -> stress_ready p ->
  misaligned_series (column 1 (channel_name c) data) (other_channels c) p = [] ->
  exists p', set_raw c data p = (Ok tt, p') /\
             agree_on (fun k => k ∉ derived_slots)
                      (channel_stored c (column 1 (channel_name c) data) p) p'.
Proof.
  intros Hnp Hn Hready Hal.
  pose proof (set_raw_run c data n p Hnp Hn) as Hrun. cbv zeta in Hrun.
  set (new := column 1 (channel_name c) data) in *.
  fold (channel_stored c new p) in Hrun. rewrite Hrun, Hal. simpl.
  destruct (hasattr "_total_stress" (channel_stored c new p)) eqn:Ets; simpl;
    [destruct (negb _); simpl|]; eauto using agree_on_refl.
  apply hasattr_true in Ets.
  rewrite channel_stored_lookup in Ets by (apply list_elem_of_In; simpl; tauto).
  replace (String.eqb "_total_stress" ("_" +:+ channel_name c)) with false in Ets
    by (now destruct c).
  destruct (Hready Ets) as (x0 & w0 & uw & Huw).
  destruct (channel_stored_depth_samples c new p) as (d & ds & Hds).
  { unfold new. rewrite index_column. now apply (np_array_nonempty data n). }
  { now apply misaligned_series_nil. }
  destruct (calculate_stress_ok (channel_stored c new p) x0 w0 uw d ds) as [p' Hp'];
    [now rewrite channel_stored_unit_weight|exact Hds|].
  exists p'. split; [exact Hp'|].
  refine (preserves_calculate_stress _ _ _ _ _ Hp'). auto.
Qed.


(** *** The hole depth *)

Lemma same_holedepth_refl p : same_holedepth p p.
Proof. reflexivity. Qed.

Lemma same_holedepth_trans p q r : same_holedepth p q -> same_holedepth q r -> same_holedepth p r.
Proof. unfold same_holedepth. congruence. Qed.

Lemma same_holedepth_agree keep (m : M unit) :
  preserves (agree_on keep) m -> preserves same_holedepth m.
Proof. intros H p r p' E. exact (agree_holedepth _ _ _ (H _ _ _ E)). Qed.

Lemma same_holedepth_listener ls : preserves same_holedepth (listener_dependency ls).
Proof.
  intros p r p'. rewrite listener_dependency_run. intros [= <- <-].
  unfold same_holedepth. now destruct (evict_inputs ls p) as (_ & -> & _).
Qed.

Lemma same_holedepth_del_qt : preserves same_holedepth del_qt.
Proof.
  intros p r p'. rewrite del_qt_run. intros [= <- <-].
  unfold same_holedepth. now destruct (evict_inputs qt_cascade p) as (_ & -> & _).
Qed.

Lemma same_holedepth_del_attr name : preserves same_holedepth (del_attr name).
Proof.
  intros p r p'. unfold del_attr. destruct (series p !! name); intros [= <- <-]; reflexivity.
Qed.

Ltac hd_step :=
  pres_step_with ltac:(apply same_holedepth_refl) ltac:(apply same_holedepth_trans).

Ltac hd :=
  repeat first [ hd_step
               | apply same_holedepth_listener
               | apply same_holedepth_del_qt
               | apply same_holedepth_del_attr
               | apply preserves_modify; intros ?; reflexivity
               | solve [auto] ].

Lemma holedepth_channel_stored c new p :
  holedepth (channel_stored c new p) = holedepth (bump_holedepth (series_max new) p).
Proof.
  unfold channel_stored.
  destruct (evict_inputs (channel_dependencies c)
              (bump_holedepth (series_max new)
                 (with_series (<["_" +:+ channel_name c := new]> (series p)) p)))
    as (_ & -> & _).
  unfold bump_holedepth. simpl. now destruct (fltb (holedepth p) (series_max new)).
Qed.

(** X11.  The hole depth after a mutation that returns: the bulk assignment
    of raw data sets it to the largest depth of the table; the assignment of
    one channel raises it to the largest value of the assigned channel when
    that value is larger (the setters take [series.max()], the maximum of the
    values, where the bulk assignment takes the maximum of the depths);
    every other mutation, deletions of raw data included, leaves it as it
    was. *)
Theorem holedepth_after_mutation m p p' :
  stress_ready p ->
  run m p = (Ok tt, p') -> holedepth p' = holedepth_after m p.
Proof.
  intros Hready H.
  assert (Hcs : preserves same_holedepth _calculate_stress).
  { apply (same_holedepth_agree raw_channel), preserves_calculate_stress.
    apply raw_channel_not_derived. }
  assert (Hes : preserves same_holedepth _calculate_effective_stress).
  { apply (same_holedepth_agree raw_channel), preserves_calculate_effective_stress.
    apply raw_channel_not_derived. }
  assert (Hc : forall c data, set_raw c data p = (Ok tt, p') ->
             holedepth p' = holedepth (bump_holedepth
                                         (series_max (column 1 (channel_name c) data)) p)).
  { intros c data Hset.
    destruct (np_array data) as [[n|]|e0] eqn:Hnp.
    2,3: destruct (set_raw_shape_error c data p) as [e1 He1]; [|congruence];
         intros n0 Hn0; congruence.
    destruct (le_lt_dec 2 n) as [Hn|Hn].
    2:{ destruct (set_raw_shape_error c data p) as [e1 He1]; [|congruence].
        intros n0 Hn0. congruence. }
    pose proof (set_raw_run c data n p Hnp Hn) as Hrun. cbv zeta in Hrun.
    destruct (misaligned_series (column 1 (channel_name c) data) (other_channels c) p)
      as [|x l] eqn:Hal.
    2:{ rewrite Hrun in Hset. simpl in Hset. congruence. }
    destruct (set_raw_accepted c data n p Hnp Hn Hready Hal) as (q & Hq & Hag).
    assert (q = p') as -> by congruence.
    rewrite (agree_holedepth _ _ _ Hag). apply holedepth_channel_stored. }
  assert (Hother : forall m, assigns_raw m = false -> preserves same_holedepth (run m)).
  { clear -Hcs Hes. intros m Hm. destruct m; try discriminate; simpl run;
      unfold del_raw_data, del_qc, del_fs, del_u2, set_area_ratio, del_area_ratio,
        set_unit_weight, del_unit_weight, set_gwl, del_gwl, set_elevated_gwl,
        del_elevated_gwl; hd. }
  destruct m; simpl holedepth_after; simpl run in H.
  - destruct (num_columns data) as [n|] eqn:En.
    + destruct (le_lt_dec 3 n) as [Hn|Hn].
      * destruct (set_raw_data_ok data n p En Hn) as (q & Hq & _ & _ & _ & Hh & _).
        simpl in Hq. congruence.
      * destruct (set_raw_data_refused data p) as [msg Hq]; [|simpl in Hq; congruence].
        intros n0 Hn0. congruence.
    + destruct (set_raw_data_refused data p) as [msg Hq]; [|simpl in Hq; congruence].
      intros n0 Hn0. congruence.
  - refine (_ : same_holedepth p p'). revert H. apply (Hother Del_raw_data eq_refl).
  - exact (Hc Qc data H).
  - refine (_ : same_holedepth p p'). revert H. apply (Hother Del_qc eq_refl).
  - exact (Hc Fs data H).
  - refine (_ : same_holedepth p p'). revert H. apply (Hother Del_fs eq_refl).
  - exact (Hc U2 data H).
  - refine (_ : same_holedepth p p'). revert H. apply (Hother Del_u2 eq_refl).
  - refine (_ : same_holedepth p p'). revert H. apply (Hother (Set_area_ratio value) eq_refl).
  - refine (_ : same_holedepth p p'). revert H. apply (Hother Del_area_ratio eq_refl).
  - refine (_ : same_holedepth p p'). revert H. apply (Hother (Set_unit_weight value) eq_refl).
  - refine (_ : same_holedepth p p'). revert H. apply (Hother Del_unit_weight eq_refl).
  - refine (_ : same_holedepth p p'). revert H. apply (Hother (Set_static_gwl value) eq_refl).
  - refine (_ : same_holedepth p p'). revert H. apply (Hother Del_static_gwl eq_refl).
  - refine (_ : same_holedepth p p'). revert H. apply (Hother (Set_elevated_gwl value) eq_refl).
  - refine (_ : same_holedepth p p'). revert H. apply (Hother Del_elevated_gwl eq_refl).
Qed.

End Assignments.


Lemma holedepth_after_mutation_witness :
  holedepth (run (ext := sample_ext) (Set_qc (rows1 [1; 2] 50)) (new_CPT "CPT-1")).2
  = holedepth_after (Set_qc (rows1 [1; 2] 50)) (new_CPT "CPT-1").
Proof.
  apply (holedepth_after_mutation (ext := sample_ext)).
  - intros [s Hs]. vm_compute in Hs. discriminate.
  - vm_compute. reflexivity.
Defined.

(** The hole depth of a new probe is 0; after [cpt.qc = [[1, 50], [2, 50]]]
    it is 50, the largest cone resistance, and not 2, the largest depth. *)
Example holedepth_after_qc :
  holedepth (after [Set_qc (rows1 [1; 2] 50)] (new_CPT "CPT-1")) = num 50.
Proof. vm_compute. reflexivity. Qed.

(** ** The classification, zone by zone *)

Section FirstMatch.

Context {ext : External}.
Variable names : gmap string (string * string).
Variable method : string.
Hypothesis regular : String.eqb method Robertson_1986 = false.
Variables lx ly : bool.

Lemma in_bounds_fits v r xy :
  in_bounds v r xy = bool_decide (zr_number r = None) && fits v xy.
Proof.
  unfold in_bounds, fits. destruct v as [[[x0 x1] y0] y1].
  now rewrite <- !andb_assoc.
Qed.

(** One zone, one row. *)
Lemma classify_zone_row data st z st' i r xy oz :
  classify_zone method names lx ly data st z = Ok st' ->
  st.1 !! i = Some r -> data !! i = Some xy ->
  row_of names oz (zr_depth r) r ->
  st'.2 = st.2 /\
  exists r', st'.1 !! i = Some r' /\ zr_depth r' = zr_depth r /\
    row_of names (match oz with
                  | Some z0 => Some z0
                  | None => if holds lx ly xy z then Some z else None
                  end) (zr_depth r) r'.
Proof.
  intros H Hr Hxy Hrow. unfold classify_zone in H. rewrite regular in H. simpl in H.
  unfold holds.
  destruct (bounds (zone_boundary z)) as [v|].
  2:{ injection H as <-. split; [reflexivity|]. exists r. destruct oz; auto. }
  assert (Hc : combine st.1 data !! i = Some (r, xy)) by now apply lookup_combine_Some.
  assert (Hz : zr_number r = None <-> oz = None).
  { destruct oz as [z0|]; simpl in Hrow.
    - destruct Hrow as (de & us & _ & ->). simpl. split; discriminate.
    - rewrite Hrow. simpl. tauto. }
  destruct (negb (existsb _ _)) eqn:Ex.
  - injection H as <-. split; [reflexivity|]. exists r. split; [exact Hr|]. split; [reflexivity|].
    destruct oz as [z0|]; [exact Hrow|].
    apply negb_true_iff in Ex.
    assert (Hin : in_bounds v r xy = false).
    { destruct (in_bounds v r xy) eqn:Ein; [|reflexivity].
      rewrite <- Ex. symmetry. apply existsb_exists. exists (r, xy). split; [|exact Ein].
      apply list_elem_of_In. eapply list_elem_of_lookup_2, Hc. }
    rewrite in_bounds_fits in Hin. rewrite bool_decide_eq_true_2 in Hin by (now apply Hz).
    simpl in Hin. rewrite Hin. exact Hrow.
  - destruct (names !! zone_no z) as [[description uscs]|] eqn:En; [|discriminate].
    injection H as <-. split; [reflexivity|]. simpl.
    rewrite list_lookup_fmap, Hc. simpl. eexists. split; [reflexivity|].
    rewrite in_bounds_fits.
    destruct oz as [z0|].
    + rewrite bool_decide_eq_false_2 by (intros E; apply Hz in E; discriminate). simpl.
      split; [reflexivity|exact Hrow].
    + rewrite bool_decide_eq_true_2 by (now apply Hz). simpl.
      destruct (fits v xy); simpl; [|split; [reflexivity|exact Hrow]].
      destruct (in_polygon lx ly z xy); simpl; (split; [reflexivity|]); eauto.
Qed.

Lemma classify_zone_length data st z st' :
  length data = length st.1 ->
  classify_zone method names lx ly data st z = Ok st' -> length st'.1 = length st.1.
Proof.
  intros Hl H. apply same_depths_length. eapply classify_zone_depths; eauto.
Qed.

(** The zones of one graph, one row. *)
Lemma classify_graph_row data zs : forall st st' i r xy oz,
  length data = length st.1 ->
  classify_graph method names lx ly data st zs = Ok st' ->
  st.1 !! i = Some r -> data !! i = Some xy ->
  row_of names oz (zr_depth r) r ->
  st'.2 = st.2 /\
  exists r', st'.1 !! i = Some r' /\ zr_depth r' = zr_depth r /\
    row_of names (match oz with
                  | Some z0 => Some z0
                  | None => List.find (holds lx ly xy) zs
                  end) (zr_depth r) r'.
Proof.
  induction zs as [|z zs IH]; intros st st' i r xy oz Hl H Hr Hxy Hrow; simpl in H.
  - injection H as <-. split; [reflexivity|]. exists r. destruct oz; auto.
  - destruct (classify_zone method names lx ly data st z) as [st1|e] eqn:E; [|discriminate].
    destruct (classify_zone_row _ _ _ _ _ _ _ _ E Hr Hxy Hrow) as (H2 & r1 & Hr1 & Hd1 & Hrow1).
    rewrite <- Hd1 in Hrow1.
    assert (Hl1 : length data = length st1.1).
    { rewrite (classify_zone_length _ _ _ _ Hl E). exact Hl. }
    destruct (IH st1 st' i r1 xy _ Hl1 H Hr1 Hxy Hrow1) as (H2' & r' & Hr' & Hd' & Hrow').
    split; [congruence|]. exists r'. split; [exact Hr'|]. split; [congruence|].
    rewrite Hd1 in Hrow'. simpl. destruct oz as [z0|]; [exact Hrow'|].
    destruct (holds lx ly xy z); exact Hrow'.
Qed.

End FirstMatch.

Section ClassifyRows.

Context {ext : External}.

Lemma finalize_regular method st :
  String.eqb method Robertson_1986 = false -> finalize method st = st.1.
Proof. intros H. unfold finalize. rewrite H. now destruct st.2. Qed.

Lemma lookup_unassigned idx i d :
  idx !! i = Some d ->
  map (fun d => mkZoneRow d None None None) idx !! i = Some (mkZoneRow d None None None).
Proof. intros H. now rewrite list_lookup_fmap, H. Qed.

(** X12.  For every method other than "Robertson et al 1986" the zone of a
    sample is the first zone that holds it: the first zone of the first graph,
    in the order of the method store, whose bounding box and polygon contain
    the sample's coordinates of that graph, and when there is none the first
    such zone of the second graph; a sample in no zone is left without zone
    number, description and USCS.  The result has one row per depth of the
    index, in its order, and the description and USCS of a row are those the
    store gives for its zone. *)
Theorem classification_is_first_match method m idx g1 g2 final :
  String.eqb method Robertson_1986 = false ->
  classify_rows method m idx g1 g2 = Ok final ->
  length final = length idx /\
  forall i d xy1,
    idx !! i = Some d -> graph_points idx g1 !! i = Some xy1 ->
    exists r,
      final !! i = Some r /\ zr_depth r = d /\
      row_of (dict_of_rows (zone_names m))
             (first_zone m xy1 (g2 ≫= fun g2 => graph_points idx g2 !! i)) d r.
Proof.
  intros Hreg H. unfold classify_rows in H.
  set (names := dict_of_rows (zone_names m)) in *.
  set (st0 := (map (fun d => mkZoneRow d None None None) idx, None) : frame) in *.
  assert (Hl0 : forall g, length (graph_points idx g) = length st0.1).
  { intros g. simpl. now rewrite length_graph_points, length_map. }
  destruct (classify_graph method names (is_x1_on_log_scale m) (is_y1_on_log_scale m)
              (graph_points idx g1) st0 (zone_definitions_1 m)) as [st1|e] eqn:E1;
    [|discriminate].
  pose proof (classify_graph_depths _ _ _ _ _ _ _ _ (Hl0 g1) E1) as Hd1.
  assert (Hl1 : length st1.1 = length idx).
  { rewrite (same_depths_length _ _ Hd1). simpl. apply length_map. }
  assert (Hrow1 : forall i d xy1,
             idx !! i = Some d -> graph_points idx g1 !! i = Some xy1 ->
             exists r, st1.1 !! i = Some r /\ zr_depth r = d /\
               row_of names (List.find (holds (is_x1_on_log_scale m) (is_y1_on_log_scale m) xy1)
                                       (zone_definitions_1 m)) d r).
  { intros i d xy1 Hi Hxy.
    destruct (classify_graph_row names method Hreg _ _ _ _ st0 st1 i
                (mkZoneRow d None None None) xy1 None (Hl0 g1) E1)
      as (_ & r & Hr & Hd & Hrow); [now apply lookup_unassigned|exact Hxy|reflexivity|].
    exists r. auto. }
  destruct g2 as [g2|]; simpl.
  - destruct (classify_graph method names (is_x2_on_log_scale m) (is_y2_on_log_scale m)
                (graph_points idx g2) st1 (zone_definitions_2 m)) as [st2|e] eqn:E2;
      [|discriminate].
    injection H as <-. rewrite (finalize_regular _ _ Hreg).
    assert (Hl2 : length (graph_points idx g2) = length st1.1).
    { now rewrite length_graph_points. }
    pose proof (classify_graph_depths _ _ _ _ _ _ _ _ Hl2 E2) as Hd2.
    split; [rewrite (same_depths_length _ _ Hd2); exact Hl1|].
    intros i d xy1 Hi Hxy. destruct (Hrow1 i d xy1 Hi Hxy) as (r1 & Hr1 & Hdr1 & Hrow).
    assert (Hxy2 : exists xy2, graph_points idx g2 !! i = Some xy2).
    { apply lookup_lt_is_Some. rewrite length_graph_points. now apply lookup_lt_Some in Hi. }
    destruct Hxy2 as [xy2 Hxy2]. rewrite Hxy2.
    rewrite <- Hdr1 in Hrow.
    destruct (classify_graph_row names method Hreg _ _ _ _ st1 st2 i r1 xy2 _ Hl2 E2 Hr1 Hxy2 Hrow)
      as (_ & r & Hr & Hd & Hrow2).
    exists r. split; [exact Hr|]. split; [congruence|].
    rewrite Hdr1 in Hrow2. unfold first_zone.
    destruct (List.find _ (zone_definitions_1 m)); exact Hrow2.
  - injection H as <-. rewrite (finalize_regular _ _ Hreg).
    split; [exact Hl1|].
    intros i d xy1 Hi Hxy. destruct (Hrow1 i d xy1 Hi Hxy) as (r1 & Hr1 & Hdr1 & Hrow).
    exists r1. split; [exact Hr1|]. split; [exact Hdr1|].
    unfold first_zone. destruct (List.find _ (zone_definitions_1 m)); exact Hrow.
Qed.

End ClassifyRows.

(** ** Samples without coordinates *)

Section Undefined.

Context {ext : External}.

Lemma in_bounds_undefined v r (xy : float * float) :
  xy.1 = NaN \/ xy.2 = NaN -> in_bounds v r xy = false.
Proof.
  destruct v as [[[x0 x1] y0] y1], xy as [x y]. unfold in_bounds. simpl.
  intros [->| ->]; simpl.
  - now rewrite andb_false_r.
  - apply andb_false_iff. left. apply andb_false_r.
Qed.

Lemma lookup_combine_inv {A B} (l : list A) (k : list B) i x y :
  combine l k !! i = Some (x, y) -> l !! i = Some x /\ k !! i = Some y.
Proof.
  revert k i; induction l as [|a l IH]; intros [|b k] [|i]; simpl; try discriminate.
  - intros [= -> ->]. auto.
  - apply IH.
Qed.

(** The row [i] has no coordinates on this graph, and no other row has its
    depth label. *)
Lemma classify_zone_undefined names method lx ly data st z st' i r xy :
  length data = length st.1 ->
  classify_zone method names lx ly data st z = Ok st' ->
  st.1 !! i = Some r -> data !! i = Some xy -> xy.1 = NaN \/ xy.2 = NaN ->
  (String.eqb method Robertson_1986 = true ->
   forall j rj, st.1 !! j = Some rj -> zr_depth rj == zr_depth r -> j = i) ->
  (forall seg, st.2 = Some seg -> label_in (zr_depth r) seg = false) ->
  st'.1 !! i = Some r /\
  (forall seg, st'.2 = Some seg -> label_in (zr_depth r) seg = false).
Proof.
  intros Hl H Hr Hxy Hnan Huniq Hseg. unfold classify_zone in H.
  destruct (bounds (zone_boundary z)) as [v|]; [|injection H as <-; auto].
  assert (Hc : combine st.1 data !! i = Some (r, xy)) by now apply lookup_combine_Some.
  destruct (negb (existsb _ _)); [injection H as <-; auto|].
  destruct (String.eqb method Robertson_1986 && String.eqb (zone_no z) combined_zone) eqn:Ed.
  - injection H as <-. simpl. split; [exact Hr|]. intros seg [= <-].
    apply andb_true_iff in Ed as [Em _].
    destruct (label_in (zr_depth r) _) eqn:El; [|reflexivity]. exfalso.
    unfold label_in in El. apply existsb_exists in El as (dj & Hin & Heq).
    apply in_map_iff in Hin as ([rj xyj] & <- & Hin). apply filter_In in Hin as [Hin Hp].
    apply list_elem_of_In, list_elem_of_lookup_1 in Hin as [j Hj].
    apply lookup_combine_inv in Hj as [Hj1 Hj2].
    assert (j = i) as ->.
    { apply (Huniq Em j rj Hj1). apply Qeq_bool_iff in Heq. simpl in Heq. now symmetry. }
    assert (rj = r) as -> by congruence. assert (xyj = xy) as -> by congruence.
    unfold placed in Hp. simpl in Hp. now rewrite (in_bounds_undefined v r xy Hnan) in Hp.
  - destruct (names !! zone_no z) as [[description uscs]|]; [|discriminate].
    injection H as <-. simpl. split; [|exact Hseg].
    rewrite list_lookup_fmap, Hc. simpl.
    now rewrite (in_bounds_undefined v r xy Hnan).
Qed.

Lemma classify_graph_undefined names method lx ly data zs : forall st st' i r xy,
  length data = length st.1 ->
  classify_graph method names lx ly data st zs = Ok st' ->
  st.1 !! i = Some r -> data !! i = Some xy -> xy.1 = NaN \/ xy.2 = NaN ->
  (String.eqb method Robertson_1986 = true ->
   forall j rj, st.1 !! j = Some rj -> zr_depth rj == zr_depth r -> j = i) ->
  (forall seg, st.2 = Some seg -> label_in (zr_depth r) seg = false) ->
  st'.1 !! i = Some r /\
  (forall seg, st'.2 = Some seg -> label_in (zr_depth r) seg = false).
Proof.
  induction zs as [|z zs IH]; intros st st' i r xy Hl H Hr Hxy Hnan Huniq Hseg; simpl in H.
  - injection H as <-. auto.
  - destruct (classify_zone method names lx ly data st z) as [st1|e] eqn:E; [|discriminate].
    destruct (classify_zone_undefined _ _ _ _ _ _ _ _ _ _ _ Hl E Hr Hxy Hnan Huniq Hseg)
      as [Hr1 Hseg1].
    pose proof (classify_zone_depths _ _ _ _ _ _ _ _ Hl E) as Hd.
    apply (IH st1 st' i r xy); auto.
    + rewrite (same_depths_length _ _ Hd). exact Hl.
    + intros Em j rj Hj Heq.
      destruct (same_depths_lookup st.1 st1.1 j rj) as (rj' & Hj' & Hdj); [now symmetry|exact Hj|].
      apply (Huniq Em j rj' Hj'). now rewrite Hdj.
Qed.

(** X13.  A sample without coordinates is in no zone: when, on every graph
    of the method, the x or the y of a sample is undefined (NaN), the row of
    the sample in the result has no zone number, no description and no USCS.
    For "Robertson et al 1986", whose closing pass selects rows by depth
    label, this is so when no other sample carries the same depth label. *)
Theorem undefined_sample_is_unclassified method m idx g1 g2 final i d xy1 :
  classify_rows method m idx g1 g2 = Ok final ->
  idx !! i = Some d ->
  (String.eqb method Robertson_1986 = true ->
   forall j dj, idx !! j = Some dj -> dj == d -> j = i) ->
  graph_points idx g1 !! i = Some xy1 -> xy1.1 = NaN \/ xy1.2 = NaN ->
  (forall g xy2, g2 = Some g -> graph_points idx g !! i = Some xy2 ->
                 xy2.1 = NaN \/ xy2.2 = NaN) ->
  final !! i = Some (mkZoneRow d None None None).
Proof.
  intros H Hi Huniq Hxy1 Hnan1 Hnan2. unfold classify_rows in H.
  set (names := dict_of_rows (zone_names m)) in *.
  set (st0 := (map (fun d => mkZoneRow d None None None) idx, None) : frame) in *.
  set (r := mkZoneRow d None None None).
  assert (Hl0 : forall g, length (graph_points idx g) = length st0.1).
  { intros g. simpl. now rewrite length_graph_points, length_map. }
  assert (Hr0 : st0.1 !! i = Some r) by now apply lookup_unassigned.
  assert (Hu0 : String.eqb method Robertson_1986 = true ->
                forall j rj, st0.1 !! j = Some rj -> zr_depth rj == zr_depth r -> j = i).
  { intros Em j rj Hj Heq. simpl in Hj. rewrite list_lookup_fmap in Hj.
    destruct (idx !! j) as [dj|] eqn:Ej; [|discriminate]. injection Hj as <-.
    exact (Huniq Em j dj Ej Heq). }
  assert (Hfin : forall st : frame,
             st.1 !! i = Some r ->
             (forall seg, st.2 = Some seg -> label_in (zr_depth r) seg = false) ->
             finalize method st !! i = Some r).
  { intros st Hr Hseg. unfold finalize. destruct st.2 as [seg|] eqn:Es; [|exact Hr].
    destruct (String.eqb method Robertson_1986); [|exact Hr].
    rewrite list_lookup_fmap, Hr. simpl. unfold finalize_row.
    now rewrite (Hseg seg eq_refl). }
  destruct (classify_graph method names (is_x1_on_log_scale m) (is_y1_on_log_scale m)
              (graph_points idx g1) st0 (zone_definitions_1 m)) as [st1|e] eqn:E1;
    [|discriminate].
  destruct (classify_graph_undefined _ _ _ _ _ _ _ _ _ _ _ (Hl0 g1) E1 Hr0 Hxy1 Hnan1 Hu0)
    as [Hr1 Hseg1]; [discriminate|].
  pose proof (classify_graph_depths _ _ _ _ _ _ _ _ (Hl0 g1) E1) as Hd1.
  destruct g2 as [g2|].
  - destruct (classify_graph method names (is_x2_on_log_scale m) (is_y2_on_log_scale m)
                (graph_points idx g2) st1 (zone_definitions_2 m)) as [st2|e] eqn:E2;
      [|discriminate].
    injection H as <-.
    assert (Hl2 : length (graph_points idx g2) = length st1.1).
    { rewrite (same_depths_length _ _ Hd1). apply Hl0. }
    assert (Hxy2 : exists xy2, graph_points idx g2 !! i = Some xy2).
    { apply lookup_lt_is_Some. rewrite length_graph_points. now apply lookup_lt_Some in Hi. }
    destruct Hxy2 as [xy2 Hxy2].
    destruct (classify_graph_undefined _ _ _ _ _ _ _ _ _ _ _ Hl2 E2 Hr1 Hxy2
                (Hnan2 g2 xy2 eq_refl Hxy2)) as [Hr2 Hseg2]; [|exact Hseg1|now apply Hfin].
    intros Em j rj Hj Heq.
    destruct (same_depths_lookup st0.1 st1.1 j rj) as (rj' & Hj' & Hdj); [now symmetry|exact Hj|].
    apply (Hu0 Em j rj' Hj'). now rewrite Hdj.
  - injection H as <-. now apply Hfin.
Qed.

End Undefined.

(** ** The shape of a classification result *)

Section Shape.

Context {ext : External}.

Lemma finalize_depths method st : map zr_depth (finalize method st) = map zr_depth st.1.
Proof.
  unfold finalize. destruct st.2 as [seg|]; [|reflexivity].
  destruct (String.eqb method Robertson_1986); [|reflexivity].
  rewrite map_map. apply map_ext. intros r. unfold finalize_row.
  now destruct (label_in (zr_depth r) seg).
Qed.

Lemma classify_rows_depths method m idx g1 g2 rows :
  classify_rows method m idx g1 g2 = Ok rows -> map zr_depth rows = idx.
Proof.
  unfold classify_rows.
  set (names := dict_of_rows (zone_names m)).
  set (st0 := (map (fun d => mkZoneRow d None None None) idx, None) : frame).
  assert (Hl0 : forall g, length (graph_points idx g) = length st0.1).
  { intros g. simpl. now rewrite length_graph_points, length_map. }
  assert (H0 : map zr_depth st0.1 = idx).
  { simpl. rewrite map_map. simpl. apply map_id. }
  destruct (classify_graph method names _ _ (graph_points idx g1) st0 _) as [st1|e] eqn:E1;
    [|discriminate].
  pose proof (classify_graph_depths _ _ _ _ _ _ _ _ (Hl0 g1) E1) as Hd1.
  destruct g2 as [g2|].
  - destruct (classify_graph method names _ _ (graph_points idx g2) st1 _) as [st2|e] eqn:E2;
      [|discriminate].
    intros [= <-]. rewrite finalize_depths.
    assert (Hl2 : length (graph_points idx g2) = length st1.1).
    { rewrite (same_depths_length _ _ Hd1). apply Hl0. }
    rewrite (classify_graph_depths _ _ _ _ _ _ _ _ Hl2 E2). congruence.
  - intros [= <-]. rewrite finalize_depths. congruence.
Qed.

Lemma map_fst_combine {A B} (l : list A) (k : list B) :
  length l = length k -> map fst (combine l k) = l.
Proof.
  revert k; induction l as [|a l IH]; intros [|b k] H; simpl in *; try reflexivity;
    try discriminate. f_equal. apply IH. lia.
Qed.

Lemma graph_data_depths idx g1 g2 : map gr_depth (graph_data idx g1 g2) = idx.
Proof.
  unfold graph_data. rewrite map_map. simpl.
  rewrite <- (map_map fst (fun d => d)), map_id. apply map_fst_combine.
  rewrite length_combine, length_graph_points.
  destruct g2; [rewrite length_graph_points|rewrite length_map]; lia.
Qed.

Variable calc : M unit.

Lemma calculate_soil_classification_inv method p p' :
  calculate_soil_classification calc method p = (Ok tt, p') ->
  exists m g1 g2 p1 s_qc rows,
    db method = Some m /\
    compare_data calc method m p = (Ok (g1, g2), p1) /\
    series p1 !! "_qc" = Some s_qc /\
    classify_rows method m (index s_qc) g1 g2 = Ok rows /\
    p' = with_classification (Some method) (Some rows)
           (Some (graph_data (index s_qc) g1 g2)) p1.
Proof.
  unfold calculate_soil_classification.
  destruct (db method) as [m|]; [|discriminate].
  mred. destruct (compare_data calc method m p) as [[[g1 g2]|e] p1] eqn:E; [|discriminate].
  unfold qc. mred. destruct (series p1 !! "_qc") as [s_qc|] eqn:Eqc; [|discriminate].
  destruct (classify_rows method m (index s_qc) g1 g2) as [rows|] eqn:Er.
  - destruct g2 as [g2|]; [|destruct (param_x2 m); [discriminate|]];
      intros [= <-]; eexists m, g1, _, p1, s_qc, rows; repeat split; assumption.
  - destruct g2 as [g2|]; [|destruct (param_x2 m)]; discriminate.
Qed.

(** X14.  A classification that returns has the shape of the cone
    resistance: the result and its graph data have one row per sample of
    [qc], at the depths of [qc] in their order, the method used is the one
    remembered, and the channel [qc] itself is untouched. *)
Theorem classification_result_shape method p p' :
  calculate_soil_classification calc method p = (Ok tt, p') ->
  exists s_qc rows g,
    series p' !! "_qc" = Some s_qc /\
    _soil_classification_method p' = Some method /\
    _soil_classification p' = Some rows /\
    _soil_classification_graph_data p' = Some g /\
    map zr_depth rows = index s_qc /\
    map gr_depth g = index s_qc.
Proof.
  intros H. apply calculate_soil_classification_inv in H
    as (m & g1 & g2 & p1 & s_qc & rows & _ & _ & Hqc & Hrows & ->).
  exists s_qc, rows, (graph_data (index s_qc) g1 g2). simpl.
  repeat split; try assumption; try reflexivity.
  - eapply classify_rows_depths, Hrows.
  - apply graph_data_depths.
Qed.

End Shape.

Lemma classification_result_shape_witness :
  exists s_qc rows g,
    series classified_C10 !! "_qc" = Some s_qc /\
    _soil_classification_method classified_C10 = Some Eslami_Fellenius /\
    _soil_classification classified_C10 = Some rows /\
    _soil_classification_graph_data classified_C10 = Some g /\
    map zr_depth rows = index s_qc /\
    map gr_depth g = index s_qc.
Proof.
  apply (classification_result_shape (ext := sample_ext)
           (_calculate_stress (ext := sample_ext)) Eslami_Fellenius probe_C10).
  vm_compute. reflexivity.
Defined.

Lemma classification_is_first_match_witness :
  let idx := [1; 2] in
  let g1 := (mkSeries [(1, num 5); (2, num 50)] "fs",
             mkSeries [(1, num (1 # 2)); (2, num 2)] "qt") in
  let final := [mkZoneRow 1 (Some "1") (Some "Very soft clay") (Some "CH");
                mkZoneRow 2 (Some "5") (Some "Sand to sandy gravel") (Some "SW")] in
  length final = length idx /\
  forall i d xy1,
    idx !! i = Some d -> graph_points idx g1 !! i = Some xy1 ->
    exists r,
      final !! i = Some r /\ zr_depth r = d /\
      row_of (dict_of_rows (zone_names sample_Eslami_Fellenius))
             (first_zone (ext := sample_ext) sample_Eslami_Fellenius xy1 None) d r.
Proof.
  apply (classification_is_first_match (ext := sample_ext) Eslami_Fellenius
           sample_Eslami_Fellenius [1; 2]
           (mkSeries [(1, num 5); (2, num 50)] "fs",
            mkSeries [(1, num (1 # 2)); (2, num 2)] "qt") None).
  - reflexivity.
  - vm_compute. reflexivity.
Defined.

Lemma undefined_sample_is_unclassified_witness :
  [mkZoneRow 1 (Some "1") (Some "Very soft clay") (Some "CH");
   mkZoneRow 2 None None None] !! 1%nat
  = Some (mkZoneRow 2 None None None).
Proof.
  apply (undefined_sample_is_unclassified (ext := sample_ext) Eslami_Fellenius
           sample_Eslami_Fellenius [1; 2]
           (mkSeries [(1, num 5); (2, NaN)] "fs",
            mkSeries [(1, num (1 # 2)); (2, num 2)] "qt") None _ 1%nat 2 (NaN, num 2)).
  - vm_compute. reflexivity.
  - reflexivity.
  - discriminate.
  - vm_compute. reflexivity.
  - left. reflexivity.
  - discriminate.
Defined.

(** ** [calculate] *)

Lemma observed_refl p : observed p p.
Proof. split; [apply caches_filled_refl|intros s Hs; exact Hs]. Qed.

Lemma observed_trans p q r : observed p q -> observed q r -> observed p r.
Proof.
  intros [H1 K1] [H2 K2]. split; [eapply caches_filled_trans; eauto|].
  intros s Hs. apply K2, K1, Hs.
Qed.

Lemma observed_method p q :
  observed p q -> _soil_classification_method q = _soil_classification_method p.
Proof. intros [[] _]. assumption. Qed.

Lemma observed_cache name s p :
  name ∈ derived_slots -> name <> "_total_stress" -> name <> "_qt" ->
  observed p (with_series (<[name := s]> (series p)) p).
Proof.
  intros H1 H2 H3. split; [now apply caches_filled_cache|].
  intros s0 Hs. simpl. now rewrite lookup_insert_ne.
Qed.

Lemma observed_qt : preserves observed qt.
Proof.
  intros p r p' H. split; [eapply caches_filled_qt, H|].
  intros s Hs. revert H. unfold qt. rewrite bind_get, Hs.
  destruct (negb (hasattr "_qc" p)); intros [= <- <-]; exact Hs.
Qed.

Lemma observed_calculate_total_stress : preserves observed _calculate_total_stress.
Proof.
  intros p r p' H. split; [eapply caches_filled_calculate_total_stress, H|].
  apply calculate_total_stress_inv in H as [->|(s & _ & ->)]; intros s0 Hs; [exact Hs|].
  simpl. now rewrite lookup_insert_ne.
Qed.

Lemma observed_classified method rows g p :
  _soil_classification_method p = Some method ->
  observed p (with_classification (Some method) (Some rows) (Some g) p).
Proof. intros H. split; [now apply caches_filled_classified|intros s Hs; exact Hs]. Qed.

Ltac observed_hyps :=
  first [ exact observed_refl | exact observed_trans | exact observed_method
        | exact observed_cache | exact observed_qt
        | exact observed_calculate_total_stress | exact observed_classified ].

Lemma Rf_cached p s p' : Rf p = (Ok s, p') -> series p' !! "_Rf" = Some s.
Proof.
  unfold Rf. rewrite bind_get.
  destruct (hasattr "_qc" p), (hasattr "_fs" p); try (intros H; discriminate H).
  destruct (series p !! "_Rf") eqn:E; [intros [= <- <-]; exact E|].
  revert s p'.
  match goal with |- forall s p', ?m p = _ -> _ => change (ends_cached "_Rf" m p) end.
  ec.
Qed.

Section CalculateSteps.

Context {ext : External}.

Lemma observed_read param : preserves observed (getattribute _calculate_stress param).
Proof. apply reads_read; observed_hyps. Qed.

Lemma observed_calculate_stress : preserves observed _calculate_stress.
Proof. apply reads_calculate_stress; observed_hyps. Qed.

Lemma observed_calculate_effective_stress : preserves observed _calculate_effective_stress.
Proof. apply reads_calculate_effective_stress; observed_hyps. Qed.

Lemma observed_classify_soil method p r p' :
  classify_soil _calculate_stress method p = (r, p') ->
  exists p1, observed p p1 /\
    ((exists e, r = Raise e) /\ p' = p1 \/
     r = Ok tt /\ exists m rows g,
       (method = Some m \/ method = None /\ _soil_classification_method p = Some m) /\
       p' = with_classification (Some m) (Some rows) (Some g) p1).
Proof. apply classify_soil_run; observed_hyps. Qed.

(** The assignments that [calculate] makes: an eviction, and caches filled
    around it. *)
Lemma set_unit_weight_observed value p r p' :
  set_unit_weight value p = (r, p') ->
  observed (evict unit_weight_dependencies (with_unit_weight_of value p)) p'.
Proof.
  intros H. change (set_unit_weight value) with (run (Set_unit_weight value)) in H.
  rewrite set_unit_weight_run in H. eapply observed_calculate_stress, H.
Qed.

Lemma set_gwl_observed value p r p' :
  set_gwl value p = (r, p') ->
  exists p1, observed (with_gwl (Some value) p) p1 /\
             (p' = p1 \/ p' = evict gwl_dependencies p1).
Proof.
  unfold set_gwl. mred.
  destruct (_calculate_effective_stress (with_gwl (Some value) p)) as [[[]|e] p1] eqn:E;
    apply observed_calculate_effective_stress in E.
  - rewrite listener_dependency_run. intros [= <- <-]. eauto.
  - intros [= <- <-]. eauto.
Qed.

End CalculateSteps.

(** *** What [calculate] keeps *)

Lemma kept_refl p : kept_by_calculate p p.
Proof. split; try reflexivity. intros s Hs; exact Hs. Qed.

Lemma kept_trans p q r :
  kept_by_calculate p q -> kept_by_calculate q r -> kept_by_calculate p r.
Proof.
  intros [] []. split; try congruence.
  - intros k Hk. rewrite kept_raw1, kept_raw0 by exact Hk. reflexivity.
  - intros s Hs. auto.
Qed.

Lemma kept_observed p q : observed p q -> kept_by_calculate p q.
Proof.
  intros [[[? ? ? ? ? ? Hser] _ _ _ _ _] Hqt]. split; try assumption.
  intros k Hk. apply Hser. now apply raw_channel_not_derived.
Qed.

Lemma kept_preserves {A} (m : M A) : preserves observed m -> preserves kept_by_calculate m.
Proof. intros H p r p' E. apply kept_observed. eapply H, E. Qed.

Lemma kept_evict ls p :
  (forall k, k ∈ ["_qc"; "_fs"; "_u2"; "_qt"] ->
             existsb (String.eqb k) (map (String.append "_") ls) = false) ->
  kept_by_calculate p (evict ls p).
Proof.
  intros Hls. destruct (evict_inputs ls p) as (? & ? & ? & _).
  split; try assumption.
  - intros k Hk. rewrite lookup_evict, Hls; [reflexivity|].
    unfold raw_channel in Hk. apply list_elem_of_In in Hk. apply list_elem_of_In.
    simpl in *. tauto.
  - intros s Hs. rewrite lookup_evict, Hls; [exact Hs|]. apply list_elem_of_In. simpl. tauto.
Qed.

Ltac not_evicted :=
  let k := fresh "k" in
  let Hk := fresh "Hk" in
  intros k Hk;
  repeat (apply elem_of_cons in Hk as [->|Hk]; [reflexivity|]);
  now apply elem_of_nil in Hk.

Section CalculateKeeps.

Context {ext : External}.

Lemma kept_set_unit_weight value : preserves kept_by_calculate (set_unit_weight value).
Proof.
  intros p r p' H. apply set_unit_weight_observed, kept_observed in H.
  refine (kept_trans _ _ _ _ H).
  refine (kept_trans _ (with_unit_weight_of value p) _ _ _).
  - split; try reflexivity. intros s Hs; exact Hs.
  - apply kept_evict. not_evicted.
Qed.

Lemma kept_set_gwl value : preserves kept_by_calculate (set_gwl value).
Proof.
  intros p r p' H. apply set_gwl_observed in H as (p1 & H1 & H).
  apply kept_observed in H1.
  assert (H0 : kept_by_calculate p (with_gwl (Some value) p)).
  { split; try reflexivity. intros s Hs; exact Hs. }
  destruct H as [->| ->].
  - eapply kept_trans; eassumption.
  - eapply kept_trans; [eapply kept_trans; eassumption|]. apply kept_evict. not_evicted.
Qed.

Lemma kept_classify_soil method :
  preserves kept_by_calculate (classify_soil _calculate_stress method).
Proof.
  intros p r p' H.
  apply observed_classify_soil in H as (p1 & H1 & [[_ ->]|(_ & m & rows & g & _ & ->)]);
    apply kept_observed in H1; [exact H1|].
  destruct H1. split; try assumption.
Qed.

Lemma kept_read param : preserves kept_by_calculate (getattribute _calculate_stress param).
Proof. apply kept_preserves, observed_read. Qed.

Ltac kc_step := pres_step_with ltac:(apply kept_refl) ltac:(apply kept_trans).

Lemma kept_calculate_tail _elevation unit_weight gwl_depth gwl_el method (first : M unit) :
  preserves kept_by_calculate first ->
  preserves kept_by_calculate
    (first;;
     Rf;;
     match unit_weight with
     | Some w => set_unit_weight (Constant w)
     | None => mret tt
     end;;
     Fr _calculate_stress;;
     match gwl_depth, _elevation with
     | Some d, _ => set_gwl d
     | None, Some el =>
         match gwl_el with
         | Some g => set_gwl (el - g)
         | None => raise (TypeError "unsupported operand type(s) for -: 'float' and 'NoneType'")
         end
     | None, None => mret tt
     end;;
     p ← get;
     when (bool_decide (is_Some (_gwl p)))
          (Bq _calculate_stress;; Qt _calculate_stress;; Ic _calculate_stress;; mret tt);;
     p ← get;
     match method, _soil_classification_method p with
     | Some method, _ => classify_soil _calculate_stress (Some method)
     | None, Some method => classify_soil _calculate_stress (Some method)
     | None, None => mret tt
     end).
Proof.
  intros Hfirst.
  pose proof (kept_read "Rf") as HRf. pose proof (kept_read "Fr") as HFr.
  pose proof (kept_read "Bq") as HBq. pose proof (kept_read "Qt") as HQt.
  pose proof (kept_read "Ic") as HIc.
  change (getattribute _calculate_stress "Rf") with Rf in HRf.
  change (getattribute _calculate_stress "Fr") with (Fr _calculate_stress) in HFr.
  change (getattribute _calculate_stress "Bq") with (Bq _calculate_stress) in HBq.
  change (getattribute _calculate_stress "Qt") with (Qt _calculate_stress) in HQt.
  change (getattribute _calculate_stress "Ic") with (Ic _calculate_stress) in HIc.
  repeat first [ kc_step | apply kept_set_unit_weight | apply kept_set_gwl
               | apply kept_classify_soil ].
Qed.

End CalculateKeeps.

Lemma bind_modify {A} f (m : M unit) (rest : unit -> M A) p :
  ((modify f;; m) ≫= rest) p = (m ≫= rest) (f p).
Proof. reflexivity. Qed.

Section CalculateFrame.

Context {ext : External}.

Lemma calculate_kept _elevation area_ratio unit_weight gwl_depth gwl_el method p r p' :
  calculate _elevation area_ratio unit_weight gwl_depth gwl_el method p = (r, p') ->
  p' = p \/
  kept_by_calculate
    (match area_ratio with Some a => with_area_ratio (Some a) p | None => p end) p'.
Proof.
  unfold calculate.
  destruct (negb _); [intros [= <- <-]; left; reflexivity|].
  intros E. right. destruct area_ratio as [a|].
  - rewrite bind_modify in E. revert E. apply kept_calculate_tail.
    apply preserves_bind; [exact kept_trans|apply kept_preserves, observed_qt|].
    intros _. apply preserves_ret, kept_refl.
  - revert E. apply kept_calculate_tail. apply preserves_ret, kept_refl.
Qed.

(** X15.  Whether it returns or raises, [calculate] leaves the point ID, the
    hole depth and the raw channels qc, fs and u2 of the probe as they
    were. *)
Theorem calculate_keeps_raw_data _elevation area_ratio unit_weight gwl_depth gwl_el method p :
  let p' := (calculate _elevation area_ratio unit_weight gwl_depth gwl_el method p).2 in
  pointID p' = pointID p /\ holedepth p' = holedepth p /\
  series p' !! "_qc" = series p !! "_qc" /\
  series p' !! "_fs" = series p !! "_fs" /\
  series p' !! "_u2" = series p !! "_u2".
Proof.
  destruct (calculate _ _ _ _ _ _ p) as [r p'] eqn:E. simpl.
  apply calculate_kept in E as [->|[H1 H2 _ H3 _]]; [tauto|].
  assert (Hraw : forall k, raw_channel k -> series p' !! k = series p !! k).
  { intros k Hk. rewrite (H3 k Hk). now destruct area_ratio. }
  split_and!.
  - rewrite H1. now destruct area_ratio.
  - rewrite H2. now destruct area_ratio.
  - apply Hraw, list_elem_of_In. simpl. tauto.
  - apply Hraw, list_elem_of_In. simpl. tauto.
  - apply Hraw, list_elem_of_In. simpl. tauto.
Qed.

(** X16.  [calculate] with an area ratio stores the area ratio but keeps a
    corrected cone resistance qt that is cached already, where assigning the
    area ratio evicts it: after the call the probe has the new area ratio and
    the qt computed with the old one. *)
Theorem calculate_keeps_cached_qt _elevation a unit_weight gwl_depth gwl_el method p s :
  series p !! "_qt" = Some s ->
  truth_of_float (Some a) || truth_of_number unit_weight || truth_of_number gwl_depth
  || truth_of_number gwl_el || truth_of_str method = true ->
  let p' := (calculate _elevation (Some a) unit_weight gwl_depth gwl_el method p).2 in
  _area_ratio p' = Some a /\ series p' !! "_qt" = Some s /\
  series (set_area_ratio a p).2 !! "_qt" = None.
Proof.
  intros Hs Ht. split_and!.
  - destruct (calculate _ _ _ _ _ _ p) as [r p'] eqn:E. simpl.
    revert E. unfold calculate. rewrite Ht. cbn [negb]. rewrite bind_modify.
    intros E. refine (kept_area_ratio (with_area_ratio (Some a) p) p' _).
    revert E. apply kept_calculate_tail.
    apply preserves_bind; [exact kept_trans|apply kept_preserves, observed_qt|].
    intros _. apply preserves_ret, kept_refl.
  - destruct (calculate _ _ _ _ _ _ p) as [r p'] eqn:E. simpl.
    apply calculate_kept in E as [->|[_ _ _ _ H]]; [exact Hs|]. apply H. exact Hs.
  - unfold set_area_ratio. mred. rewrite del_qt_run. simpl. rewrite lookup_evict. reflexivity.
Qed.

End CalculateFrame.

(** *** What a [calculate] that returns leaves *)

Lemma bind_Ok_inv {A B} (m : M A) (f : A -> M B) p b p' :
  (m ≫= f) p = (Ok b, p') -> exists a p1, m p = (Ok a, p1) /\ f a p1 = (Ok b, p').
Proof. mred. destruct (m p) as [[a|e] p1]; [eauto|intros [=]]. Qed.

Lemma qt_cached p s p' :
  is_Some (_area_ratio p) -> qt p = (Ok s, p') -> series p' !! "_qt" = Some s.
Proof.
  intros [a Ha]. unfold qt. rewrite bind_get, Ha.
  destruct (negb (hasattr "_qc" p)); [intros [=]|].
  destruct (series p !! "_qt") eqn:E; [intros [= <- <-]; exact E|].
  revert s p'.
  match goal with |- forall s p', ?m p = _ -> _ => change (ends_cached "_qt" m p) end. ec.
Qed.

Lemma observed_present p q :
  observed p q ->
  _unit_weight q = _unit_weight p /\ _gwl q = _gwl p /\
  _soil_classification_method q = _soil_classification_method p /\
  forall k, is_Some (series p !! k) -> is_Some (series q !! k).
Proof. intros [[[] ? ? _ _ _] _]. auto. Qed.

Section CalculateResult.

Context {ext : External}.

Lemma set_unit_weight_result value p r p' :
  set_unit_weight value p = (r, p') ->
  _unit_weight p' = Some (profile_of value) /\
  (is_Some (series p !! "_Rf") -> is_Some (series p' !! "_Rf")).
Proof.
  intros H. apply set_unit_weight_observed, observed_present in H as (Hu & _ & _ & Hs).
  rewrite Hu. destruct (evict_inputs unit_weight_dependencies
                          (with_unit_weight_of value p))
    as (_ & _ & _ & _ & _ & -> & _).
  split; [reflexivity|]. intros H. apply Hs. now rewrite lookup_evict.
Qed.

Lemma set_gwl_result value p p' :
  set_gwl value p = (Ok tt, p') ->
  _gwl p' = Some value /\ _unit_weight p' = _unit_weight p /\
  (is_Some (series p !! "_Rf") -> is_Some (series p' !! "_Rf")) /\
  (is_Some (series p !! "_Fr") -> is_Some (series p' !! "_Fr")).
Proof.
  intros H. apply set_gwl_observed in H as (p1 & H1 & H).
  apply observed_present in H1 as (Hu & Hg & _ & Hs). simpl in Hu, Hg.
  destruct H as [->| ->]; [auto|].
  destruct (evict_inputs gwl_dependencies p1) as (_ & _ & _ & -> & _ & -> & _).
  split_and!; [assumption..| |]; intros H; rewrite lookup_evict; apply Hs, H.
Qed.

Lemma classify_soil_result method p p' :
  classify_soil _calculate_stress (Some method) p = (Ok tt, p') ->
  _soil_classification_method p' = Some method /\ is_Some (_soil_classification p') /\
  _unit_weight p' = _unit_weight p /\ _gwl p' = _gwl p /\
  forall k, is_Some (series p !! k) -> is_Some (series p' !! k).
Proof.
  intros H.
  apply observed_classify_soil in H
    as (p1 & H1 & [[[e [=]] _]|(_ & m & rows & g & [[= <-]|[[=] _]] & ->)]).
  apply observed_present in H1 as (Hu & Hg & _ & Hs). simpl. eauto.
Qed.

(** X17.  A [calculate] that returns leaves the arguments it was given
    stored (a unit weight as the profile from 0 to 9999, a groundwater
    elevation as the depth under the elevation of the probe) and every
    quantity it reads cached: Rf and Fr, qt when an area ratio was given, and
    Bq, Qt and Ic when the probe has a groundwater level.  If a
    classification method was given it is the remembered one, and whenever a
    method is remembered the classification is there. *)
Theorem calculate_result _elevation area_ratio unit_weight gwl_depth gwl_el method p p' :
  calculate _elevation area_ratio unit_weight gwl_depth gwl_el method p = (Ok tt, p') ->
  (forall a, area_ratio = Some a ->
     _area_ratio p' = Some a /\ is_Some (series p' !! "_qt")) /\
  (forall w, unit_weight = Some w -> _unit_weight p' = Some [(0, w); (9999, w)]) /\
  (forall d, gwl_depth = Some d -> _gwl p' = Some d) /\
  (forall el g, gwl_depth = None -> _elevation = Some el -> gwl_el = Some g ->
     _gwl p' = Some (el - g)) /\
  is_Some (series p' !! "_Rf") /\ is_Some (series p' !! "_Fr") /\
  (is_Some (_gwl p') ->
     is_Some (series p' !! "_Bq") /\ is_Some (series p' !! "_Qt") /\
     is_Some (series p' !! "_Ic")) /\
  (forall m, method = Some m -> _soil_classification_method p' = Some m) /\
  (is_Some (_soil_classification_method p') -> is_Some (_soil_classification p')).
Proof.
  intros E.
  (* the area ratio and qt, through the whole call *)
  assert (Harea : forall a, area_ratio = Some a ->
            _area_ratio p' = Some a /\ is_Some (series p' !! "_qt")).
  { intros a ->. revert E. unfold calculate. destruct (negb _); [intros [=]|].
    rewrite bind_modify. intros E.
    apply bind_Ok_inv in E as ([] & p1 & E1 & E).
    apply bind_Ok_inv in E1 as (s & p0 & E1 & [= <-]).
    pose proof (observed_qt _ _ _ E1) as [[[_ _ Ha _ _ _] _ _ _ _ _] _].
    apply qt_cached in E1; [|simpl; eauto].
    assert (K : kept_by_calculate p0 p').
    { refine (kept_calculate_tail _elevation unit_weight gwl_depth gwl_el method (mret tt)
                _ p0 (Ok tt) p' E).
      apply preserves_ret, kept_refl. }
    destruct K as [_ _ Ka _ Kq]. split; [now rewrite Ka, Ha|]. rewrite (Kq _ E1). eauto. }
  split; [exact Harea|]. clear Harea.
  revert E. unfold calculate. destruct (negb _); [intros [=]|]. intros E.
  apply bind_Ok_inv in E as ([] & p1 & _ & E).
  apply bind_Ok_inv in E as (s2 & p2 & E2 & E). apply Rf_cached in E2.
  apply bind_Ok_inv in E as ([] & p3 & E3 & E).
  assert (H3 : (forall w, unit_weight = Some w -> _unit_weight p3 = Some [(0, w); (9999, w)]) /\
               is_Some (series p3 !! "_Rf")).
  { destruct unit_weight as [w|].
    - apply set_unit_weight_result in E3 as [Hu Hs]. split; [|eauto].
      intros ? [= <-]. exact Hu.
    - injection E3 as <-. split; [intros ? [=]|eauto]. }
  clear E3 E2. destruct H3 as [Hu3 HRf3].
  apply bind_Ok_inv in E as (s4 & p4 & E4 & E).
  pose proof (observed_read "Fr" p3 _ _ E4) as H4. apply observed_present in H4 as (Hu4 & _ & _ & Hs4).
  apply Fr_cached in E4.
  apply bind_Ok_inv in E as ([] & p5 & E5 & E).
  assert (H5 : _unit_weight p5 = _unit_weight p4 /\
               (forall d, gwl_depth = Some d -> _gwl p5 = Some d) /\
               (forall el g, gwl_depth = None -> _elevation = Some el -> gwl_el = Some g ->
                  _gwl p5 = Some (el - g)) /\
               is_Some (series p5 !! "_Rf") /\ is_Some (series p5 !! "_Fr")).
  { destruct gwl_depth as [d|]; [|destruct _elevation as [el|]; [destruct gwl_el as [g|]|]].
    - apply set_gwl_result in E5 as (Hg & Hu & HR & HF).
      split_and!; [exact Hu| |intros ? ? [=]|auto|eauto]. intros ? [= <-]. exact Hg.
    - apply set_gwl_result in E5 as (Hg & Hu & HR & HF).
      split_and!; [exact Hu|intros ? [=]| |auto|eauto]. intros ? ? _ [= <-] [= <-]. exact Hg.
    - discriminate E5.
    - injection E5 as <-. split_and!; [reflexivity|intros ? [=]|intros ? ? _ [=]|auto|eauto]. }
  clear E5. destruct H5 as (Hu5 & Hgd & Hge & HRf5 & HFr5).
  apply bind_Ok_inv in E as (q & p5' & [= <- <-] & E).
  apply bind_Ok_inv in E as ([] & p6 & E6 & E).
  assert (H6 : _unit_weight p6 = _unit_weight p5 /\ _gwl p6 = _gwl p5 /\
               _soil_classification_method p6 = _soil_classification_method p5 /\
               is_Some (series p6 !! "_Rf") /\ is_Some (series p6 !! "_Fr") /\
               (is_Some (_gwl p6) ->
                  is_Some (series p6 !! "_Bq") /\ is_Some (series p6 !! "_Qt") /\
                  is_Some (series p6 !! "_Ic"))).
  { destruct (_gwl p5) as [g5|] eqn:Eg.
    - rewrite bool_decide_eq_true_2 in E6 by eauto. simpl in E6.
      apply bind_Ok_inv in E6 as (sa & pa & Ea & E6).
      apply bind_Ok_inv in E6 as (sb & pb & Eb & E6).
      apply bind_Ok_inv in E6 as (sc & pc & Ec & [= <-]).
      pose proof (observed_read "Bq" _ _ _ Ea) as Ha. apply observed_present in Ha as (? & ? & ? & Hsa).
      pose proof (observed_read "Qt" _ _ _ Eb) as Hb. apply observed_present in Hb as (? & ? & ? & Hsb).
      pose proof (observed_read "Ic" _ _ _ Ec) as Hc. apply observed_present in Hc as (? & ? & ? & Hsc).
      apply Bq_cached in Ea. apply Qt_cached in Eb. apply Ic_cached in Ec.
      split_and!; [congruence..| | |]; eauto 10.
    - rewrite bool_decide_eq_false_2 in E6 by (intros [? [=]]). injection E6 as <-.
      split_and!; auto. rewrite Eg. intros [? [=]]. }
  clear E6. destruct H6 as (Hu6 & Hg6 & Hm6 & HRf6 & HFr6 & Hgw6).
  apply bind_Ok_inv in E as (q & p6' & [= <- <-] & E).
  assert (H7 : _unit_weight p' = _unit_weight p6 /\ _gwl p' = _gwl p6 /\
               (forall k, is_Some (series p6 !! k) -> is_Some (series p' !! k)) /\
               (forall m, method = Some m -> _soil_classification_method p' = Some m) /\
               (is_Some (_soil_classification_method p') -> is_Some (_soil_classification p'))).
  { destruct method as [m|]; [|destruct (_soil_classification_method p6) as [m|] eqn:Em].
    - apply classify_soil_result in E as (Hm & Hc & ? & ? & ?).
      split_and!; auto. intros ? [= <-]. exact Hm.
    - apply classify_soil_result in E as (Hm & Hc & ? & ? & ?).
      split_and!; auto. intros ? [=].
    - injection E as <-. split_and!; auto; [intros ? [=]|]. rewrite Em. intros [? [=]]. }
  destruct H7 as (Hu7 & Hg7 & Hs7 & Hm7 & Hc7).
  split_and!.
  - intros w Hw. rewrite Hu7, Hu6, Hu5, Hu4. auto.
  - intros d Hd. rewrite Hg7, Hg6. auto.
  - intros el g H1 H2 H3. rewrite Hg7, Hg6. auto.
  - auto.
  - auto.
  - rewrite Hg7. intros H. destruct (Hgw6 H) as (? & ? & ?). auto.
  - exact Hm7.
  - exact Hc7.
Qed.

End CalculateResult.

Lemma calculate_result_witness :
  (forall a, Some (num (8 # 10)) = Some a ->
     _area_ratio calculated_raw4 = Some a /\ is_Some (series calculated_raw4 !! "_qt")) /\
  (forall w, Some 16 = Some w -> _unit_weight calculated_raw4 = Some [(0, w); (9999, w)]) /\
  (forall d, Some 1 = Some d -> _gwl calculated_raw4 = Some d) /\
  (forall el g, Some 1 = None -> None = Some el -> None = Some g ->
     _gwl calculated_raw4 = Some (el - g)) /\
  is_Some (series calculated_raw4 !! "_Rf") /\ is_Some (series calculated_raw4 !! "_Fr") /\
  (is_Some (_gwl calculated_raw4) ->
     is_Some (series calculated_raw4 !! "_Bq") /\ is_Some (series calculated_raw4 !! "_Qt") /\
     is_Some (series calculated_raw4 !! "_Ic")) /\
  (forall m, Some Eslami_Fellenius = Some m ->
     _soil_classification_method calculated_raw4 = Some m) /\
  (is_Some (_soil_classification_method calculated_raw4) ->
   is_Some (_soil_classification calculated_raw4)).
Proof.
  apply (calculate_result (ext := sample_ext) None (Some (num (8 # 10))) (Some 16) (Some 1)
           None (Some Eslami_Fellenius) probe_raw4 calculated_raw4).
  vm_compute. reflexivity.
Defined.

Lemma calculate_keeps_cached_qt_witness :
  exists s,
    series probe_with_qt !! "_qt" = Some s /\
    let p' := (calculate (ext := sample_ext) None (Some (num (1 # 2))) None None None None
                 probe_with_qt).2 in
    _area_ratio probe_with_qt = Some (num (8 # 10)) /\
    _area_ratio p' = Some (num (1 # 2)) /\ series p' !! "_qt" = Some s /\
    series (set_area_ratio (num (1 # 2)) probe_with_qt).2 !! "_qt" = None.
Proof.
  eexists. split; [vm_compute; reflexivity|].
  split; [vm_compute; reflexivity|].
  apply (calculate_keeps_cached_qt (ext := sample_ext) None (num (1 # 2)) None None None None
           probe_with_qt).
  - vm_compute. reflexivity.
  - reflexivity.
Defined.

(** *** What [calculate] refuses *)

Lemma bind_never {A B} (m : M A) (f : A -> M B) p :
  (forall a p1, is_ok (f a p1).1 = false) -> is_ok ((m ≫= f) p).1 = false.
Proof. intros H. mred. destruct (m p) as [[a|e] p1]; [apply H|reflexivity]. Qed.

(** X18.  [calculate] raises a ValueError and leaves the probe as it was
    when every argument is [None], zero or the empty string, so that a
    groundwater depth of 0 alone is refused.  On a probe that has an
    elevation it never returns when neither a groundwater depth nor a
    groundwater elevation is given: the missing elevation of the groundwater
    is subtracted all the same. *)
Theorem calculate_refused `{ext : External} _elevation area_ratio unit_weight gwl_depth gwl_el
    method p :
  (truth_of_float area_ratio || truth_of_number unit_weight || truth_of_number gwl_depth
   || truth_of_number gwl_el || truth_of_str method = false ->
   calculate _elevation area_ratio unit_weight gwl_depth gwl_el method p
   = (Raise (ValueError
        "Please enter at least one parameter, e.g. unit weight, to calculate the CPT data."),
      p)) /\
  (is_Some _elevation -> gwl_depth = None -> gwl_el = None ->
   is_ok (calculate _elevation area_ratio unit_weight gwl_depth gwl_el method p).1 = false).
Proof.
  split.
  - intros H. unfold calculate. rewrite H. reflexivity.
  - intros [el ->] -> ->. unfold calculate. destruct (negb _); [reflexivity|].
    do 4 (apply bind_never; intros ? ?). reflexivity.
Qed.

Lemma calculate_refused_witness :
  calculate (ext := sample_ext) None None None (Some 0) None None probe_raw4
  = (Raise (ValueError
       "Please enter at least one parameter, e.g. unit weight, to calculate the CPT data."),
     probe_raw4) /\
  is_ok (calculate (ext := sample_ext) None None (Some 16) None None None probe_raw4).1 = true /\
  is_ok (calculate (ext := sample_ext) (Some 5) None (Some 16) None None None probe_raw4).1
  = false.
Proof.
  split_and!.
  - apply (calculate_refused (ext := sample_ext) None None None (Some 0) None None probe_raw4).
    reflexivity.
  - vm_compute. reflexivity.
  - apply (calculate_refused (ext := sample_ext) (Some 5) None (Some 16) None None None
             probe_raw4); [eexists|..]; reflexivity.
Defined.

(** ** The project container *)

Section ProjectDicts.

Context {Point : Type}.
Implicit Types (d : Project.dict Point) (k : string) (v : Point).

Lemma contains_getitem k d : Project.contains k d = false <-> Project.getitem k d = None.
Proof.
  induction d as [|[k' v'] d IH]; simpl; [tauto|].
  destruct (String.eqb k k'); simpl; [split; discriminate|exact IH].
Qed.

Lemma contains_keys k d : Project.contains k d = true <-> k ∈ map fst d.
Proof.
  induction d as [|[k' v'] d IH]; simpl.
  - split; [discriminate|]. intros H. now apply elem_of_nil in H.
  - rewrite elem_of_cons, <- IH. destruct (String.eqb k k') eqn:E; simpl.
    + apply String.eqb_eq in E. tauto.
    + apply String.eqb_neq in E. tauto.
Qed.

Lemma getitem_setitem k v d : Project.getitem k (Project.setitem k v d) = Some v.
Proof.
  induction d as [|[k' v'] d IH]; simpl; [now rewrite String.eqb_refl|].
  destruct (String.eqb k k') eqn:E; simpl; rewrite E; [reflexivity|exact IH].
Qed.

Lemma getitem_setitem_ne k k0 v d :
  k0 <> k -> Project.getitem k0 (Project.setitem k v d) = Project.getitem k0 d.
Proof.
  intros Hne. induction d as [|[k' v'] d IH]; simpl.
  - apply String.eqb_neq in Hne. now rewrite Hne.
  - destruct (String.eqb k k') eqn:E; simpl; [|now rewrite IH].
    apply String.eqb_eq in E as <-. apply String.eqb_neq in Hne. now rewrite Hne.
Qed.

Lemma contains_setitem k k0 v d :
  Project.contains k0 (Project.setitem k v d)
  = if String.eqb k0 k then true else Project.contains k0 d.
Proof.
  induction d as [|[k' v'] d IH]; simpl.
  - now destruct (String.eqb k0 k).
  - destruct (String.eqb k k') eqn:E; simpl.
    + apply String.eqb_eq in E as <-. now destruct (String.eqb k0 k).
    + rewrite IH. destruct (String.eqb k0 k) eqn:E0; [|reflexivity]. apply orb_true_r.
Qed.

Lemma setitem_new k v d :
  Project.contains k d = false -> Project.setitem k v d = d ++ [(k, v)].
Proof.
  induction d as [|[k' v'] d IH]; simpl; [reflexivity|].
  destruct (String.eqb k k'); simpl; [discriminate|]. intros H. now rewrite IH.
Qed.

End ProjectDicts.

Section ProjectAdd.

Context {Point : Type}.
Variable class_name : Point -> string.
Variable pointID : Point -> string.

Lemma length_setitem_new k (v : Point) d :
  Project.contains k d = false -> length (Project.setitem k v d) = S (length d).
Proof. intros H. rewrite (setitem_new _ _ _ H), length_app. simpl. lia. Qed.

Lemma get_from_cons_setitem k id (v : Point) d vs :
  id <> k ->
  Project.get_from id (Project.setitem k v d :: vs) = Project.get_from id (d :: vs).
Proof.
  intros Hne. simpl. rewrite contains_setitem, getitem_setitem_ne by exact Hne.
  apply String.eqb_neq in Hne. now rewrite Hne.
Qed.

Lemma get_from_cons_new k (v : Point) d vs :
  Project.get_from k (Project.setitem k v d :: vs) = Some v.
Proof. simpl. now rewrite contains_setitem, String.eqb_refl, getitem_setitem. Qed.

(** X19.  [add] either files the point or changes nothing.  It raises a
    KeyError when the class of the point has no dict in the project, and the
    IndexError that names the ID when the dict of its kind has the ID
    already.  Otherwise it returns the point, the project
    has one point more, every other ID is found as before, and the ID of the
    new point is found in the first dict that has it: the point that was
    added, unless a dict that [get] searches earlier has a point of this ID,
    which then stays the one that [get] returns. *)
Theorem add_then_get point pr :
  let ID := pointID point in
  let key := dict_key_of (class_name point) in
  match Project.add class_name pointID point pr with
  | (Project.Raise e, pr') =>
      pr' = pr /\
      match Project.points_getitem key pr with
      | Some d =>
          Project.contains ID d = true /\
          e = Project.IndexError
                ("A geotechnical point already exists in the project with the name "
                 +:+ ID +:+ ".")
      | None => e = Project.KeyError key
      end
  | (Project.Ok point', pr') =>
      point' = point /\
      (exists d, Project.points_getitem key pr = Some d /\ Project.contains ID d = false /\
                 Project.points_getitem key pr' = Some (d ++ [(ID, point)])) /\
      Project.size pr' = S (Project.size pr) /\
      (forall id, id <> ID -> Project.get id pr' = Project.get id pr) /\
      Project.get ID pr'
      = Some (default point (Project.get_from ID (dicts_before key pr)))
  end.
Proof.
  intros ID key. unfold Project.add. fold (dict_key_of (class_name point)). fold key. fold ID.
  destruct (Project.points_getitem key pr) as [d|] eqn:Ed; [|split; reflexivity].
  destruct (Project.contains ID d) eqn:Ec; [split; [reflexivity|split; reflexivity]|].
  split; [reflexivity|].
  destruct pr as [B C O cs].
  unfold Project.points_getitem, Project.points_store, dicts_before in *. simpl in *.
  destruct (String.eqb key "Borehole") eqn:E1;
    [|destruct (String.eqb key "CPT") eqn:E2;
      [|destruct (String.eqb key "Other") eqn:E3; [|discriminate]]];
    injection Ed as <-; unfold Project.size, Project.get; simpl.
  - split_and!.
    + eexists. split_and!; [reflexivity|exact Ec|]. now rewrite (setitem_new _ _ _ Ec).
    + rewrite (length_setitem_new _ _ _ Ec). lia.
    + intros id Hid. exact (get_from_cons_setitem ID id point B [C; O] Hid).
    + now rewrite contains_setitem, String.eqb_refl, getitem_setitem.
  - split_and!.
    + eexists. split_and!; [reflexivity|exact Ec|]. now rewrite (setitem_new _ _ _ Ec).
    + rewrite (length_setitem_new _ _ _ Ec). lia.
    + intros id Hid. destruct (Project.contains id B); [reflexivity|].
      exact (get_from_cons_setitem ID id point C [O] Hid).
    + destruct (Project.contains ID B) eqn:EB.
      * destruct (Project.getitem ID B) eqn:EG; [reflexivity|].
        apply contains_getitem in EG. congruence.
      * simpl. now rewrite contains_setitem, String.eqb_refl, getitem_setitem.
  - split_and!.
    + eexists. split_and!; [reflexivity|exact Ec|]. now rewrite (setitem_new _ _ _ Ec).
    + rewrite (length_setitem_new _ _ _ Ec). lia.
    + intros id Hid. destruct (Project.contains id B); [reflexivity|].
      destruct (Project.contains id C); [reflexivity|].
      exact (get_from_cons_setitem ID id point O [] Hid).
    + destruct (Project.contains ID B) eqn:EB.
      * destruct (Project.getitem ID B) eqn:EG; [reflexivity|].
        apply contains_getitem in EG. congruence.
      * destruct (Project.contains ID C) eqn:EC.
        -- destruct (Project.getitem ID C) eqn:EG; [reflexivity|].
           apply contains_getitem in EG. congruence.
        -- simpl. now rewrite contains_setitem, String.eqb_refl, getitem_setitem.
Qed.

End ProjectAdd.

Section ProjectIteration.

Context {Point : Type}.
Implicit Types (pr : Project.t Point).

Lemma concat_drop_step {A B} (f : A -> list B) (vs : list A) n :
  concat (map f (drop n vs))
  = match vs !! n with Some d => f d | None => [] end ++ concat (map f (drop (S n) vs)).
Proof.
  destruct (vs !! n) as [d|] eqn:E.
  - rewrite (drop_S _ _ _ E). reflexivity.
  - apply lookup_ge_None in E. rewrite !drop_ge by lia. reflexivity.
Qed.

Lemma remaining_next_dict k pr :
  remaining_points 0 (S k) pr
  = concat (map Project.dict_values (drop (S k) (Project.points_values pr))).
Proof.
  unfold remaining_points. rewrite (concat_drop_step _ _ (S k)).
  now destruct (Project.points_values pr !! S k).
Qed.

Lemma next_at_spec depth : forall c k pr,
  Project.counters pr = Some (c, k) -> iterating c k pr ->
  (length (Project.points_values pr) - k < depth)%nat ->
  match remaining_points c k pr with
  | [] =>
      Project.next_at depth pr
      = (Project.Raise Project.StopIteration,
         Project.with_counters (Some (0, length (Project.points_values pr))%nat) pr)
  | x :: rest =>
      exists c' k',
        Project.next_at depth pr = (Project.Ok x, Project.with_counters (Some (c', k')) pr) /\
        iterating c' k' pr /\ remaining_points c' k' pr = rest
  end.
Proof.
  induction depth as [|depth IH]; intros c k pr Hc [Hk Hi] Hd; [lia|].
  cbn [Project.next_at]. rewrite Hc.
  destruct (length (Project.points_values pr) <=? k)%nat eqn:Ek.
  - apply Nat.leb_le in Ek. assert (k = length (Project.points_values pr)) as -> by lia.
    assert (Hnone : Project.points_values pr !! length (Project.points_values pr) = None)
      by (apply lookup_ge_None; lia).
    unfold remaining_points. rewrite Hnone, drop_ge by lia. simpl.
    destruct Hi as [->|(d & Hd' & _)]; [|congruence].
    destruct pr; simpl in *. now subst.
  - apply Nat.leb_gt in Ek.
    destruct (_ !! k) as [d|] eqn:Hd';
      [change (Project.points_values pr !! k = Some (d : Project.dict Point)) in Hd'
      |change (Project.points_values pr !! k = None) in Hd'; apply lookup_ge_None in Hd'; lia].
    assert (Hrem : remaining_points c k pr
                   = drop c (Project.dict_values d) ++ remaining_points 0 (S k) pr).
    { unfold remaining_points at 1. now rewrite Hd', remaining_next_dict. }
    destruct (length d =? 0)%nat eqn:E0.
    + apply Nat.eqb_eq in E0. destruct d; [|discriminate]. clear E0.
      rewrite Hrem. unfold Project.dict_values at 1. cbn [map]. rewrite drop_nil. simpl app.
      replace (k + 1)%nat with (S k) by lia.
      specialize (IH 0%nat (S k) (Project.with_counters (Some (0, S k)%nat) pr) eq_refl).
      apply IH; [split; [simpl in *; lia|now left]|simpl in *; lia].
    + apply Nat.eqb_neq in E0.
      assert (Hlt : (c < length d)%nat).
      { destruct Hi as [->|(d' & Hd'' & Hlt)]; [lia|]. congruence. }
      assert (Hx : is_Some (Project.dict_values d !! c)).
      { apply lookup_lt_is_Some_2. unfold Project.dict_values. now rewrite length_map. }
      destruct Hx as [x Hx]. rewrite Hx, Hrem, (drop_S _ _ _ Hx). simpl app.
      destruct (length d <=? c + 1)%nat eqn:E1.
      * apply Nat.leb_le in E1. exists 0%nat, (k + 1)%nat. split; [reflexivity|].
        split; [split; [lia|now left]|].
        replace (k + 1)%nat with (S k) by lia.
        rewrite drop_ge; [reflexivity|]. unfold Project.dict_values. rewrite length_map. lia.
      * apply Nat.leb_gt in E1. exists (c + 1)%nat, k. split; [reflexivity|].
        split; [split; [lia|right; exists d; split; [exact Hd'|lia]]|].
        replace (c + 1)%nat with (S c) by lia.
        unfold remaining_points at 1. now rewrite Hd', remaining_next_dict.
Qed.

Lemma drain_spec recursion_limit n : forall c k pr,
  (3 <= recursion_limit)%nat ->
  Project.counters pr = Some (c, k) -> iterating c k pr ->
  (length (remaining_points c k pr) < n)%nat ->
  Project.drain recursion_limit n pr
  = (remaining_points c k pr, Some Project.StopIteration,
     Project.with_counters (Some (0, 3)%nat) pr).
Proof.
  induction n as [|n IH]; intros c k pr Hrl Hc Hi Hn; [lia|].
  simpl Project.drain. unfold Project.__next__.
  pose proof (next_at_spec (S recursion_limit) c k pr Hc Hi) as H.
  destruct (remaining_points c k pr) as [|x rest] eqn:Er.
  - rewrite H by (simpl; lia). reflexivity.
  - destruct H as (c' & k' & -> & Hi' & Hr'); [simpl; lia|].
    rewrite (IH c' k' (Project.with_counters (Some (c', k')) pr) Hrl eq_refl).
    + now rewrite <- Hr'.
    + exact Hi'.
    + change (length (remaining_points c' k' pr) < n)%nat. rewrite Hr'. simpl in Hn. lia.
Qed.

(** X20.  Iterating over a project returns every point once: the boreholes,
    then the probes, then the other points, each kind in the order it was
    added, as many points as [size] counts, and then stops. *)
Theorem iteration_returns_all_points recursion_limit n pr :
  (3 <= recursion_limit)%nat -> (Project.size pr < n)%nat ->
  Project.for_each recursion_limit n pr
  = (all_points pr, Some Project.StopIteration, Project.with_counters (Some (0, 3)%nat) pr)
  /\ length (all_points pr) = Project.size pr.
Proof.
  intros Hrl Hn.
  assert (Hlen : length (all_points pr) = Project.size pr).
  { unfold all_points, Project.size, Project.points_values, Project.dict_values. simpl.
    rewrite !length_app, !length_map. simpl. lia. }
  split; [|exact Hlen].
  unfold Project.for_each.
  rewrite (drain_spec recursion_limit n 0%nat 0%nat (Project.__iter__ pr) Hrl eq_refl).
  - unfold remaining_points, all_points. simpl. reflexivity.
  - split; [simpl; lia|now left].
  - assert (remaining_points 0 0 (Project.__iter__ pr) = all_points pr) as -> by reflexivity.
    rewrite Hlen. exact Hn.
Qed.

End ProjectIteration.

Section ProjectQuery.

Context {Point : Type}.
Implicit Types (d other : Project.dict Point) (pr : Project.t Point).

Lemma update_disjoint other : forall d,
  NoDup (map fst d ++ map fst other) -> Project.update d other = d ++ other.
Proof.
  unfold Project.update.
  induction other as [|[k v] other IH]; intros d H; simpl; [now rewrite app_nil_r|].
  assert (Hk : Project.contains k d = false).
  { destruct (Project.contains k d) eqn:E; [|reflexivity].
    apply contains_keys in E. apply NoDup_app in H as (_ & H & _).
    exfalso. apply (H k E). simpl. left. }
  rewrite (setitem_new _ _ _ Hk), IH.
  - now rewrite <- app_assoc.
  - rewrite map_app, <- app_assoc. exact H.
Qed.

Lemma length_setitem k (v : Point) d : (length (Project.setitem k v d) <= S (length d))%nat.
Proof.
  induction d as [|[k' v'] d IH]; simpl; [lia|].
  destruct (String.eqb k k'); simpl; lia.
Qed.

Lemma length_update other : forall d,
  (length (Project.update d other) <= length d + length other)%nat.
Proof.
  unfold Project.update.
  induction other as [|[k v] other IH]; intros d; simpl; [lia|].
  specialize (IH (Project.setitem k v d)). pose proof (length_setitem k v d). lia.
Qed.

(** X21.  [query_points] never returns when it is given a list of IDs: it
    reads the list of points before it has one.  For 'all' points of one
    kind it returns the points of that kind in the order they were added.
    For 'all' points of every kind it returns at most as many points as the
    project has, and every point, by kind and in the order they were
    added, when no two points of the project share an ID. *)
Theorem query_points_returns pr :
  (forall ids holetype,
     exists e, Project.query_points (Project.Named ids) holetype pr = Project.Raise e) /\
  (forall key d,
     Project.points_getitem key pr = Some d ->
     Project.query_points Project.All (Some key) pr = Project.Ok (Project.dict_values d)) /\
  (exists l, Project.query_points Project.All None pr = Project.Ok l /\
             (length l <= Project.size pr)%nat) /\
  (NoDup (all_ids pr) -> Project.query_points Project.All None pr = Project.Ok (all_points pr)).
Proof.
  split_and!.
  - intros ids holetype. unfold Project.query_points.
    destruct holetype as [key|]; [destruct (Project.points_getitem key pr)|]; eauto.
  - intros key d H. unfold Project.query_points. now rewrite H.
  - eexists. split; [reflexivity|].
    unfold Project.dict_values, Project.size. rewrite length_map. simpl.
    pose proof (length_update (Project.Other pr)
                  (Project.update (Project.update [] (Project.Borehole pr)) (Project.CPT pr))).
    pose proof (length_update (Project.CPT pr) (Project.update [] (Project.Borehole pr))).
    pose proof (length_update (Project.Borehole pr) []).
    simpl in *. lia.
  - intros H. unfold Project.query_points, all_points, all_ids in *. simpl in *.
    rewrite app_nil_r in H.
    rewrite (update_disjoint (Project.Borehole pr) [])
      by (simpl; now apply NoDup_app in H as (H & _ & _)).
    rewrite app_nil_l.
    rewrite (update_disjoint (Project.CPT pr) (Project.Borehole pr)).
    + rewrite (update_disjoint (Project.Other pr)).
      * unfold Project.dict_values. now rewrite !map_app, app_nil_r, <- app_assoc.
      * now rewrite map_app, <- app_assoc.
    + rewrite app_assoc in H. now apply NoDup_app in H as (H & _ & _).
Qed.

End ProjectQuery.

Lemma add_then_get_witness :
  (Project.add fst snd sample_probe sample_project).1 = Project.Ok sample_probe /\
  Project.size (Project.add fst snd sample_probe sample_project).2 = 2%nat /\
  Project.get "P-1" (Project.add fst snd sample_probe sample_project).2
  = Some sample_borehole /\
  Project.add fst snd sample_borehole sample_project
  = (Project.Raise
       (Project.IndexError
          "A geotechnical point already exists in the project with the name P-1."),
     sample_project).
Proof.
  pose proof (add_then_get fst snd sample_probe sample_project) as H1.
  pose proof (add_then_get fst snd sample_borehole sample_project) as H2.
  cbv zeta in H1, H2.
  destruct (Project.add fst snd sample_probe sample_project) as [[point'|e] pr'] eqn:E1;
    [|discriminate E1].
  destruct (Project.add fst snd sample_borehole sample_project) as [[point''|e] pr''] eqn:E2;
    [discriminate E2|].
  destruct H1 as (-> & _ & Hsize & _ & Hget).
  destruct H2 as [-> H2]. vm_compute in H2. destruct H2 as [_ ->].
  split_and!; [reflexivity|exact Hsize|exact Hget|reflexivity].
Defined.

Lemma iteration_returns_all_points_witness :
  let pr := (Project.add fst snd sample_probe sample_project).2 in
  Project.for_each 1000 3 pr
  = ([sample_borehole; sample_probe], Some Project.StopIteration,
     Project.with_counters (Some (0, 3)%nat) pr)
  /\ length [sample_borehole; sample_probe] = Project.size pr.
Proof.
  apply (iteration_returns_all_points 1000 3 (Project.add fst snd sample_probe sample_project).2).
  - lia.
  - vm_compute. lia.
Defined.

Lemma query_points_returns_witness :
  let pr := (Project.add fst snd sample_probe sample_project).2 in
  Project.query_points Project.All None sample_project = Project.Ok [sample_borehole] /\
  Project.query_points Project.All None pr = Project.Ok [sample_probe] /\
  Project.size pr = 2%nat.
Proof.
  split_and!.
  - apply (query_points_returns sample_project). vm_compute. repeat constructor. set_solver.
  - reflexivity.
  - reflexivity.
Defined.

(** ** Deleting an input that is not set *)

Lemma evict_agree ls p :
  (forall d, d ∈ ls -> d ∈ all_derived) ->
  agree_on (fun k => k ∉ derived_slots) p (evict ls p).
Proof.
  intros Hls. destruct (evict_inputs ls p) as (? & ? & ? & ? & ? & ? & _).
  split; try assumption; [|apply evict_unit_weight_dtype].
  intros k Hk. apply lookup_evict_notin.
  destruct (existsb _ _) eqn:E; [|reflexivity]. exfalso. apply Hk.
  apply existsb_exists in E as (x & Hx & Ex). apply String.eqb_eq in Ex as ->.
  apply in_map_iff in Hx as (d & <- & Hd). apply list_elem_of_In in Hd. apply Hls in Hd.
  apply list_elem_of_In in Hd. apply list_elem_of_In. simpl in *.
  intuition (subst; simpl; tauto).
Qed.

Section Deleters.

Context {ext : External}.

(** X22.  Deleting an input that is not set raises the AttributeError of
    the missing attribute, but only after the caches that depend on the
    input, and the classification result, are evicted; the inputs and the
    raw channels stay as they were. *)
Theorem deleting_a_missing_input m name p :
  classification_has_method p ->
  deleted_input m p = Some (name, false) ->
  exists p',
    run m p = (Raise (no_attribute name), p') /\
    evicts_exactly (listed m) [] p p' /\
    agree_on (fun k => k ∉ derived_slots) p p'.
Proof.
  intros Hp Hm.
  assert (Hgen : forall L,
            (forall d, d ∈ listed m <-> d ∈ L) -> (forall d, d ∈ L -> d ∈ all_derived) ->
            evicts_exactly (listed m) [] p (evict L p) /\
            agree_on (fun k => k ∉ derived_slots) p (evict L p)).
  { intros L HL Hall. split; [|now apply evict_agree].
    apply (evicts_exactly_same_set L); [exact HL|].
    eapply (evicts_exactly_intro _ L _ p p); eauto using same_classification_refl.
    - intros d Hd. split; [auto|]. apply existsb_exists. exists ("_" +:+ d).
      split; [|apply String.eqb_refl]. apply in_map. now apply list_elem_of_In.
    - intros ? ? Hd. inversion Hd.
    - intros d Ha Hn _. split; [|reflexivity].
      destruct (existsb _ _) eqn:E; [|reflexivity]. exfalso. apply Hn.
      apply existsb_exists in E as (x & Hx & Ex). apply String.eqb_eq in Ex.
      apply in_map_iff in Hx as (d' & <- & Hd'). cbv in Ex. injection Ex as ->.
      now apply list_elem_of_In. }
  destruct m; try discriminate; injection Hm as <- Hm; simpl run.
  - (* qc *)
    exists (evict qt_cascade p). apply hasattr_false in Hm.
    split; [|apply Hgen; [apply qt_cascade_listed|intros d Hd; in_cases Hd; apply list_elem_of_In; simpl; tauto]].
    unfold del_qc. rewrite (bind_ok _ _ _ _ _ (del_qt_run p)). unfold del_attr.
    now rewrite lookup_evict, Hm.
  - (* fs *)
    exists (evict ["Rf"; "Fr"; "Ic"] p). apply hasattr_false in Hm.
    split; [|apply Hgen; [reflexivity|intros d Hd; in_cases Hd; apply list_elem_of_In; simpl; tauto]].
    unfold del_fs. rewrite (bind_ok _ _ _ _ _ (listener_dependency_run _ p)). unfold del_attr.
    now rewrite lookup_evict, Hm.
  - (* u2 *)
    exists (evict qt_cascade p). apply hasattr_false in Hm.
    split; [|apply Hgen; [apply qt_cascade_listed|intros d Hd; in_cases Hd; apply list_elem_of_In; simpl; tauto]].
    unfold del_u2. rewrite (bind_ok _ _ _ _ _ (del_qt_run p)). unfold del_attr.
    now rewrite lookup_evict, Hm.
  - (* area_ratio *)
    exists (evict qt_cascade p). apply bool_decide_eq_false in Hm.
    split; [|apply Hgen; [apply qt_cascade_listed|intros d Hd; in_cases Hd; apply list_elem_of_In; simpl; tauto]].
    unfold del_area_ratio. rewrite (bind_ok _ _ _ _ _ (del_qt_run p)). mred.
    destruct (evict_inputs qt_cascade p) as (_ & _ & -> & _).
    destruct (_area_ratio p); [exfalso; eauto|reflexivity].
  - (* unit_weight *)
    exists (evict unit_weight_dependencies p). apply bool_decide_eq_false in Hm.
    split; [|apply Hgen; [reflexivity|intros d Hd; in_cases Hd; apply list_elem_of_In; simpl; tauto]].
    unfold del_unit_weight. rewrite (bind_ok _ _ _ _ _ (listener_dependency_run _ p)). mred.
    destruct (evict_inputs unit_weight_dependencies p) as (_ & _ & _ & _ & _ & -> & _).
    destruct (_unit_weight p); [exfalso; eauto|reflexivity].
  - (* gwl *)
    exists (evict gwl_dependencies p). apply bool_decide_eq_false in Hm.
    split; [|apply Hgen; [reflexivity|intros d Hd; in_cases Hd; apply list_elem_of_In; simpl; tauto]].
    unfold del_gwl. rewrite (bind_ok _ _ _ _ _ (listener_dependency_run _ p)). mred.
    destruct (evict_inputs gwl_dependencies p) as (_ & _ & _ & -> & _).
    destruct (_gwl p); [exfalso; eauto|reflexivity].
  - (* elevated gwl *)
    exists (evict elevated_gwl_dependencies p). apply bool_decide_eq_false in Hm.
    split; [|apply Hgen; [reflexivity|intros d Hd; in_cases Hd; apply list_elem_of_In; simpl; tauto]].
    unfold del_elevated_gwl. rewrite (bind_ok _ _ _ _ _ (listener_dependency_run _ p)). mred.
    destruct (evict_inputs elevated_gwl_dependencies p) as (_ & _ & _ & _ & -> & _).
    destruct (_elevated_gwl p); [exfalso; eauto|reflexivity].
Qed.

End Deleters.

Lemma deleting_a_missing_input_witness :
  is_Some (series probe_with_Rf !! "_Rf") /\
  exists p',
    run (ext := sample_ext) Del_area_ratio probe_with_Rf
    = (Raise (no_attribute "_area_ratio"), p') /\
    evicts_exactly (listed Del_area_ratio) [] probe_with_Rf p' /\
    agree_on (fun k => k ∉ derived_slots) probe_with_Rf p'.
Proof.
  split; [vm_compute; eauto|].
  apply (deleting_a_missing_input (ext := sample_ext) Del_area_ratio "_area_ratio"
           probe_with_Rf).
  - intros _. split; reflexivity.
  - reflexivity.
Defined.

(** ** The coordinates of "Eslami Fellenius", sample by sample (C10) *)


Section EslamiFellenius.

Context {ext : External}.



End EslamiFellenius.

